(** * Runge-Kutta integrators of notebook 06b

    A shallow embedding of the two routines of
    [06b-Runge-Kutta-and-adaptivity.ipynb]:

    - [explicitRK]: the fixed-step explicit Runge-Kutta integrator driven by
      a Butcher tableau [(a, b, c)];
    - [HeunWithEuler]: the embedded Heun-Euler scheme with step-size control.

    The routines are modelled twice.  In the first model Python floats are
    replaced by the canonical rationals [Qc]: a statement about it is a
    statement about exact arithmetic.  The module [Binary64] is the same code
    on IEEE 754 doubles, the numbers that the code computes with; it settles
    what depends on rounding.  The two [while]
    loops are bounded by a fuel argument counting loop iterations: the result
    [None] means that the loop is still running when the fuel is used up,
    [Some (Ok r)] that the routine returned [r], and [Some IndexError] that
    an indexing expression raised.  The right-hand side [f] is a total
    function of the time and the state. *)

From Stdlib Require Import PrimFloat.
From Stdlib Require FloatOps.
From Stdlib Require Import QArith Qcanon Qround Lia Lqa.
From Stdlib Require Qcabs.
From stdpp Require Import base tactics option numbers list.

Local Open Scope Qc_scope.
Set Warnings "-inexact-float".

(** ** Exceptions raised by indexing *)

Inductive exn (A : Type) : Type :=
  | Ok (a : A)
  | IndexError.
Arguments Ok {A} a.
Arguments IndexError {A}.

Definition exn_bind {A B : Type} (m : exn A) (k : A → exn B) : exn B :=
  match m with
  | Ok a => k a
  | IndexError => IndexError
  end.

Notation "'do' x <- m ; k" := (exn_bind m (λ x, k))
  (at level 10, x name, m at level 100, k at level 200).

(** [l[i]] for a non-negative index [i]. *)
Definition getitem {A : Type} (l : list A) (i : nat) : exn A :=
  match l !! i with
  | Some x => Ok x
  | None => IndexError
  end.

(** [l[-1]]. *)
Definition getitem_last {A : Type} (l : list A) : exn A :=
  match last l with
  | Some x => Ok x
  | None => IndexError
  end.

(** [l[i] = x] for a non-negative index [i]. *)
Definition setitem {A : Type} (l : list A) (i : nat) (x : A) : exn (list A) :=
  if decide (i < length l)%nat then Ok (<[i:=x]> l) else IndexError.

(** [a[i,j]] on a two-dimensional array stored as the list of its rows. *)
Definition getitem2 (a : list (list Qc)) (i j : nat) : exn Qc :=
  do row <- getitem a i; getitem row j.

(** [for i in range(n): acc = body i acc], stopping at the first exception. *)
Fixpoint for_from {S : Type} (start n : nat) (body : nat → S → exn S)
    (acc : S) : exn S :=
  match n with
  | O => Ok acc
  | S n' => do acc' <- body start acc; for_from (Datatypes.S start) n' body acc'
  end.

Definition for_range {S : Type} (n : nat) (body : nat → S → exn S)
    (acc : S) : exn S :=
  for_from 0 n body acc.

(** ** The state space

    Both routines are written against numpy's arithmetic and work alike for
    a scalar state and for an array state.  The operations they use are
    collected in a class: [Y] is the set of arrays of one fixed shape,
    [zero] the array [np.zeros_like(y)] of that shape, [add] is [+],
    [scale x v] is [x*v] for a scalar [x], and [norm] is
    [numpy.linalg.norm]. *)

Class State (Y : Type) : Type := {
  zero : Y;
  add : Y → Y → Y;
  scale : Qc → Y → Y;
  norm : Y → Qc;
}.

Definition zeros_like {Y : Type} `{State Y} (y : Y) : Y := zero.

(** The vector-space laws of [add] and [scale], needed only by the
    statements that rearrange state arithmetic. *)
Class StateLaws (Y : Type) `{State Y} : Prop := {
  add_comm : ∀ u v : Y, add u v = add v u;
  add_assoc : ∀ u v w : Y, add u (add v w) = add (add u v) w;
  add_zero_l : ∀ v : Y, add zero v = v;
  scale_zero_l : ∀ v : Y, scale 0 v = zero;
  scale_one : ∀ v : Y, scale 1 v = v;
  scale_scale : ∀ (p q : Qc) (v : Y), scale p (scale q v) = scale (p * q) v;
  scale_plus : ∀ (p q : Qc) (v : Y),
    scale (p + q) v = add (scale p v) (scale q v);
  scale_add : ∀ (p : Qc) (u v : Y),
    scale p (add u v) = add (scale p u) (scale p v);
}.

(** A scalar state: [numpy.linalg.norm] of a scalar is its absolute value. *)
#[export] Instance scalar_state : State Qc := {|
  zero := 0;
  add := Qcplus;
  scale := Qcmult;
  norm := Qcabs.Qcabs;
|}.

(** The literal [.5] (and [0.5]) of the source. *)
Definition point5 : Qc := Q2Qc 0.5.

(** ** The adaptive stepper [HeunWithEuler] *)

Section Adaptive.
Context {Y : Type} `{State Y}.

(** The variables of the loop: the three lists, the current step size and,
    as a ghost counter, the number of calls of [f] made so far. *)
Record he_state : Type := HeState {
  he_ys : list Y;
  he_ts : list Qc;
  he_hs : list Qc;
  he_h : Qc;
  he_calls : nat;
}.

Variables (T : Qc) (f : Qc → Y → Y) (tol gamma alpha : Qc).

(** [epsilon] of one iteration, from the two stages. *)
Definition he_epsilon (h : Qc) (k1 k2 : Y) : Qc :=
  norm (scale h (add (scale (point5 - 1) k1) (scale (point5 - 0) k2))).

(** One pass through the body of the [while] loop.  The division
    [tol/epsilon] is reached only when [tol < epsilon], so its divisor is not
    zero unless [tol] is negative; there [Qc] gives [x/0 = 0] where numpy
    gives an infinity. *)
Definition HeunWithEuler_body (st : he_state) : exn he_state :=
  do t <- getitem_last (he_ts st);
  do y <- getitem_last (he_ys st);
  let h := he_h st in
  let k1 := f t y in
  let k2 := f (t + h) (add y (scale h k1)) in
  let calls := Datatypes.S (Datatypes.S (he_calls st)) in
  let epsilon := he_epsilon h k1 k2 in
  if decide (epsilon ≤ tol) then
    if decide (T < t + h) then
      Ok (HeState (he_ys st) (he_ts st) (he_hs st) (T - t) calls)
    else
      Ok (HeState (he_ys st ++ [add y (scale (point5 * h) (add k1 k2))])
                  (he_ts st ++ [t + h])
                  (he_hs st ++ [h])
                  (alpha * h) calls)
  else
    Ok (HeState (he_ys st) (he_ts st) (he_hs st)
                (h * gamma * ((tol / epsilon) ^ 1 / 2)) calls).

(** [while(ts[-1] < T): body], at most [fuel] passes. *)
Fixpoint HeunWithEuler_loop (fuel : nat) (st : he_state)
    : option (exn he_state) :=
  match getitem_last (he_ts st) with
  | IndexError => Some IndexError
  | Ok t =>
      if decide (t < T) then
        match fuel with
        | O => None
        | Datatypes.S fuel' =>
            match HeunWithEuler_body st with
            | Ok st' => HeunWithEuler_loop fuel' st'
            | IndexError => Some IndexError
            end
        end
      else Some (Ok st)
  end.

Definition he_init (y0 : Y) (h : Qc) : he_state :=
  HeState [y0] [0] [h] h 0.

(** The full run: the final loop state, ghost counter included. *)
Definition HeunWithEuler_run (fuel : nat) (y0 : Y) (h : Qc)
    : option (exn he_state) :=
  HeunWithEuler_loop fuel (he_init y0 h).
End Adaptive.

Arguments he_state : clear implicits.

(** [HeunWithEuler(y0, T, f, h, tol, gamma, alpha)]: the returned triple
    [(ts, ys, hs)]. *)
Definition HeunWithEuler {Y : Type} `{State Y} (fuel : nat)
    (y0 : Y) (T : Qc) (f : Qc → Y → Y) (h tol gamma alpha : Qc)
    : option (exn (list Qc * list Y * list Qc)) :=
  match HeunWithEuler_run T f tol gamma alpha fuel y0 h with
  | Some (Ok st) => Some (Ok (he_ts st, he_ys st, he_hs st))
  | Some IndexError => Some IndexError
  | None => None
  end.

(** The number of calls of [f] made by a run that returned. *)
Definition HeunWithEuler_calls {Y : Type} `{State Y} (fuel : nat)
    (y0 : Y) (T : Qc) (f : Qc → Y → Y) (h tol gamma alpha : Qc)
    : option nat :=
  match HeunWithEuler_run T f tol gamma alpha fuel y0 h with
  | Some (Ok st) => Some (he_calls st)
  | _ => None
  end.

(** ** The fixed-step integrator [explicitRK] *)

Section FixedStep.
Context {Y : Type} `{State Y}.

(** The variables of the loop: the two lists, the stage derivatives [ks]
    (allocated once, before the loop, and overwritten in every pass) and
    the ghost counter of calls of [f]. *)
Record rk_state : Type := RkState {
  rk_ys : list Y;
  rk_ts : list Qc;
  rk_ks : list Y;
  rk_calls : nat;
}.

Variables (a : list (list Qc)) (b c : list Qc).
Variables (T : Qc) (f : Qc → Y → Y) (h : Qc).

(** [s = len(b)]. *)
Definition rk_s : nat := length b.

(** [dY_i = zeros_like(y); for j in range(i): dY_i += h*a[i,j]*ks[j]]. *)
Definition rk_increment (i : nat) (ks : list Y) (y : Y) : exn Y :=
  for_range i
    (λ j dY_i,
       do a_ij <- getitem2 a i j;
       do k_j <- getitem ks j;
       Ok (add dY_i (scale (h * a_ij) k_j)))
    (zeros_like y).

(** The body of the stage loop for stage [i]; the accumulator is [ks]
    together with the ghost counter. *)
Definition rk_stage (t : Qc) (y : Y) (i : nat) (acc : list Y * nat)
    : exn (list Y * nat) :=
  do c_i <- getitem c i;
  let t_i := t + c_i * h in
  do dY_i <- rk_increment i (fst acc) y;
  do ks' <- setitem (fst acc) i (f t_i (add y dY_i));
  Ok (ks', Datatypes.S (snd acc)).

(** [dy = zeros_like(y); for i in range(s): dy += h*b[i]*ks[i]]. *)
Definition rk_update (ks : list Y) (y : Y) : exn Y :=
  for_range rk_s
    (λ i dy,
       do b_i <- getitem b i;
       do k_i <- getitem ks i;
       Ok (add dy (scale (h * b_i) k_i)))
    (zeros_like y).

(** One pass through the body of the [while] loop. *)
Definition explicitRK_body (st : rk_state) : exn rk_state :=
  do t <- getitem_last (rk_ts st);
  do y <- getitem_last (rk_ys st);
  do acc <- for_range rk_s (rk_stage t y) (rk_ks st, rk_calls st);
  do dy <- rk_update (fst acc) y;
  Ok (RkState (rk_ys st ++ [add y dy]) (rk_ts st ++ [t + h])
              (fst acc) (snd acc)).

(** [while(ts[-1] < T): body], at most [fuel] passes. *)
Fixpoint explicitRK_loop (fuel : nat) (st : rk_state)
    : option (exn rk_state) :=
  match getitem_last (rk_ts st) with
  | IndexError => Some IndexError
  | Ok t =>
      if decide (t < T) then
        match fuel with
        | O => None
        | Datatypes.S fuel' =>
            match explicitRK_body st with
            | Ok st' => explicitRK_loop fuel' st'
            | IndexError => Some IndexError
            end
        end
      else Some (Ok st)
  end.

Definition rk_init (y0 : Y) : rk_state :=
  RkState [y0] [0] (replicate rk_s (zeros_like y0)) 0.

Definition explicitRK_run (fuel : nat) (y0 : Y) : option (exn rk_state) :=
  explicitRK_loop fuel (rk_init y0).
End FixedStep.

Arguments rk_state : clear implicits.

(** [explicitRK(a, b, c, y0, T, f, h)]: the returned pair [(ts, ys)]. *)
Definition explicitRK {Y : Type} `{State Y} (fuel : nat)
    (a : list (list Qc)) (b c : list Qc) (y0 : Y) (T : Qc)
    (f : Qc → Y → Y) (h : Qc) : option (exn (list Qc * list Y)) :=
  match explicitRK_run a b c T f h fuel y0 with
  | Some (Ok st) => Some (Ok (rk_ts st, rk_ys st))
  | Some IndexError => Some IndexError
  | None => None
  end.

(** The number of calls of [f] made by a run that returned. *)
Definition explicitRK_calls {Y : Type} `{State Y} (fuel : nat)
    (a : list (list Qc)) (b c : list Qc) (y0 : Y) (T : Qc)
    (f : Qc → Y → Y) (h : Qc) : option nat :=
  match explicitRK_run a b c T f h fuel y0 with
  | Some (Ok st) => Some (rk_calls st)
  | _ => None
  end.

(** The tableau of Heun's method used by the notebook. *)
Definition aHeun : list (list Qc) := [[0; 0]; [1; 0]].
Definition bHeun : list Qc := [point5; point5].
Definition cHeun : list Qc := [0; 1].

(** ** The same two routines on binary64 numbers

    Python's [float] and numpy's [float64] are IEEE 754 binary64 numbers:
    Rocq's primitive [float], whose [+], [-], [*], [/] and [sqrt] round to
    nearest (ties to even) and whose comparisons are false on a NaN.  The
    module below is the code of [explicitRK] and [HeunWithEuler] once more,
    operation for operation, on these numbers; it decides the statements
    that depend on rounding.  The integer literals of the source ([0] in
    [ts = [0]], the entries of an integer tableau) are the doubles of the
    same value. *)
Module Binary64.

(** States: Python or numpy scalars, or numpy arrays. *)
Class State (Y : Type) : Type := {
  zero : Y;
  add : Y → Y → Y;
  scale : float → Y → Y;
  norm : Y → float;
}.

Definition zeros_like {Y : Type} `{State Y} (y : Y) : Y := zero.

(** A scalar state.  [numpy.linalg.norm] flattens its argument [x] and
    returns [sqrt(x.dot(x))]: for a scalar, [sqrt(x*x)]. *)
#[global] Instance scalar_state : State float := {|
  zero := 0%float;
  add := PrimFloat.add;
  scale := PrimFloat.mul;
  norm := λ x, PrimFloat.sqrt (x * x)%float;
|}.

(** [a[i,j]]. *)
Definition getitem2 (a : list (list float)) (i j : nat) : exn float :=
  do row <- getitem a i; getitem row j.

Section Adaptive.
Context {Y : Type} `{State Y}.

Record he_state : Type := HeState {
  he_ys : list Y;
  he_ts : list float;
  he_hs : list float;
  he_h : float;
}.

Variables (T : float) (f : float → Y → Y) (tol gamma alpha : float).

(** [norm(h*((.5-1)*k1 + (.5-0)*k2))]. *)
Definition he_epsilon (h : float) (k1 k2 : Y) : float :=
  norm (scale h (add (scale (0.5 - 1)%float k1) (scale (0.5 - 0)%float k2))).

(** One pass through the body of the [while] loop.  In the rejection
    branch [(tol/epsilon)**1] is [tol/epsilon] itself, and [epsilon] is a
    numpy number, so that the division follows IEEE 754 also on zero. *)
Definition HeunWithEuler_body (st : he_state) : exn he_state :=
  do t <- getitem_last (he_ts st);
  do y <- getitem_last (he_ys st);
  let h := he_h st in
  let k1 := f t y in
  let k2 := f (t + h)%float (add y (scale h k1)) in
  let epsilon := he_epsilon h k1 k2 in
  if (epsilon <=? tol)%float then
    if (T <? t + h)%float then
      Ok (HeState (he_ys st) (he_ts st) (he_hs st) (T - t)%float)
    else
      Ok (HeState (he_ys st ++ [add y (scale (0.5 * h)%float (add k1 k2))])
                  (he_ts st ++ [(t + h)%float])
                  (he_hs st ++ [h])
                  (alpha * h)%float)
  else
    Ok (HeState (he_ys st) (he_ts st) (he_hs st)
                (h * gamma * (tol / epsilon / 2))%float).

(** [while(ts[-1] < T): body], at most [fuel] passes. *)
Fixpoint HeunWithEuler_loop (fuel : nat) (st : he_state)
    : option (exn he_state) :=
  match getitem_last (he_ts st) with
  | IndexError => Some IndexError
  | Ok t =>
      if (t <? T)%float then
        match fuel with
        | O => None
        | Datatypes.S fuel' =>
            match HeunWithEuler_body st with
            | Ok st' => HeunWithEuler_loop fuel' st'
            | IndexError => Some IndexError
            end
        end
      else Some (Ok st)
  end.

Definition he_init (y0 : Y) (h : float) : he_state :=
  HeState [y0] [0%float] [h] h.

Definition HeunWithEuler_run (fuel : nat) (y0 : Y) (h : float)
    : option (exn he_state) :=
  HeunWithEuler_loop fuel (he_init y0 h).
End Adaptive.

Arguments he_state : clear implicits.

(** [HeunWithEuler(y0, T, f, h, tol, gamma, alpha)]. *)
Definition HeunWithEuler {Y : Type} `{State Y} (fuel : nat)
    (y0 : Y) (T : float) (f : float → Y → Y) (h tol gamma alpha : float)
    : option (exn (list float * list Y * list float)) :=
  match HeunWithEuler_run T f tol gamma alpha fuel y0 h with
  | Some (Ok st) => Some (Ok (he_ts st, he_ys st, he_hs st))
  | Some IndexError => Some IndexError
  | None => None
  end.

Section FixedStep.
Context {Y : Type} `{State Y}.

Record rk_state : Type := RkState {
  rk_ys : list Y;
  rk_ts : list float;
  rk_ks : list Y;
}.

Variables (a : list (list float)) (b c : list float).
Variables (T : float) (f : float → Y → Y) (h : float).

Definition rk_s : nat := length b.

(** [dY_i = zeros_like(y); for j in range(i): dY_i += h*a[i,j]*ks[j]]. *)
Definition rk_increment (i : nat) (ks : list Y) (y : Y) : exn Y :=
  for_range i
    (λ j dY_i,
       do a_ij <- getitem2 a i j;
       do k_j <- getitem ks j;
       Ok (add dY_i (scale (h * a_ij)%float k_j)))
    (zeros_like y).

(** The body of the stage loop for stage [i]. *)
Definition rk_stage (t : float) (y : Y) (i : nat) (ks : list Y)
    : exn (list Y) :=
  do c_i <- getitem c i;
  let t_i := (t + c_i * h)%float in
  do dY_i <- rk_increment i ks y;
  setitem ks i (f t_i (add y dY_i)).

(** [dy = zeros_like(y); for i in range(s): dy += h*b[i]*ks[i]]. *)
Definition rk_update (ks : list Y) (y : Y) : exn Y :=
  for_range rk_s
    (λ i dy,
       do b_i <- getitem b i;
       do k_i <- getitem ks i;
       Ok (add dy (scale (h * b_i)%float k_i)))
    (zeros_like y).

(** One pass through the body of the [while] loop. *)
Definition explicitRK_body (st : rk_state) : exn rk_state :=
  do t <- getitem_last (rk_ts st);
  do y <- getitem_last (rk_ys st);
  do ks <- for_range rk_s (rk_stage t y) (rk_ks st);
  do dy <- rk_update ks y;
  Ok (RkState (rk_ys st ++ [add y dy]) (rk_ts st ++ [(t + h)%float]) ks).

(** [while(ts[-1] < T): body], at most [fuel] passes. *)
Fixpoint explicitRK_loop (fuel : nat) (st : rk_state)
    : option (exn rk_state) :=
  match getitem_last (rk_ts st) with
  | IndexError => Some IndexError
  | Ok t =>
      if (t <? T)%float then
        match fuel with
        | O => None
        | Datatypes.S fuel' =>
            match explicitRK_body st with
            | Ok st' => explicitRK_loop fuel' st'
            | IndexError => Some IndexError
            end
        end
      else Some (Ok st)
  end.

Definition rk_init (y0 : Y) : rk_state :=
  RkState [y0] [0%float] (replicate rk_s (zeros_like y0)).

Definition explicitRK_run (fuel : nat) (y0 : Y) : option (exn rk_state) :=
  explicitRK_loop fuel (rk_init y0).
End FixedStep.

Arguments rk_state : clear implicits.

(** [explicitRK(a, b, c, y0, T, f, h)]. *)
Definition explicitRK {Y : Type} `{State Y} (fuel : nat)
    (a : list (list float)) (b c : list float) (y0 : Y) (T : float)
    (f : float → Y → Y) (h : float) : option (exn (list float * list Y)) :=
  match explicitRK_run a b c T f h fuel y0 with
  | Some (Ok st) => Some (Ok (rk_ts st, rk_ys st))
  | Some IndexError => Some IndexError
  | None => None
  end.

(** The tableau of Heun's method used by the notebook. *)
Definition aHeun : list (list float) := [[0; 0]; [1; 0]]%float.
Definition bHeun : list float := [0.5; 0.5]%float.
Definition cHeun : list float := [0; 1]%float.

(** The real number that a double stands for, as a rational (and 0 for
    the infinities and NaN). *)
Definition exact (x : float) : Qc :=
  match FloatOps.Prim2SF x with
  | SpecFloat.S754_finite s m e =>
      Q2Qc ((if s then -1 else 1) * inject_Z (Z.pos m) * (2 ^ e)%Q)
  | _ => 0
  end.

End Binary64.

(** ** The root finders of notebook 04

    [bisection], [fixpoint], [newton] and [newton_system] of
    [04-numerical-solution-of-nonlinear-equations.ipynb].  Each runs a
    [for k in range(max_iter)] loop that a [break] may leave, and returns the
    variables its last pass assigned; with [max_iter = 0] no pass assigns
    them and the [return] raises.  The [verbose] printing has no effect on
    the result and is left out.  The numbers are exact rationals, as in the
    first model of the integrators; a statement that holds in exact
    arithmetic only says so. *)

Inductive outcome (A : Type) : Type :=
  | Returned (a : A)
  | UnboundLocalError
  | ZeroDivisionError
  | LinAlgError.
Arguments Returned {A} a.
Arguments UnboundLocalError {A}.
Arguments ZeroDivisionError {A}.
Arguments LinAlgError {A}.

(** The loop of [bisection], [n] passes from the pass numbered [k] on the
    interval [[a, b]]: the values of [c] and [k] when the loop is left, or
    [None] when no pass was made. *)
Fixpoint bisection_for (f : Qc → Qc) (tol fa : Qc) (n k : nat) (a b : Qc)
    : option (Qc * nat) :=
  match n with
  | O => None
  | S n' =>
      let c := point5 * (a + b) in
      let fc := f c in
      if decide (Qcabs.Qcabs (f c) < Q2Qc 1e-14) then Some (c, k)
      else if decide (b - a < 2 * tol) then Some (c, k)
      else
        let ab := if decide (fa * fc < 0) then (a, c) else (c, b) in
        match bisection_for f tol fa n' (S k) ab.1 ab.2 with
        | Some r => Some r
        | None => Some (c, k)
        end
  end.

(** [bisection(f, a, b, tol, max_iter)]. *)
Definition bisection (f : Qc → Qc) (a b tol : Qc) (max_iter : nat)
    : outcome (Qc * nat) :=
  let fa := f a in
  let fb := f b in
  if decide (0 < fa * fb) then Returned (0, 0%nat)
  else
    match bisection_for f tol fa max_iter 0 a b with
    | Some r => Returned r
    | None => UnboundLocalError
    end.

(** The loop of [fixpoint]: the value of [x] when the loop is left, and the
    value of [k] if a pass was made. *)
Fixpoint fixpoint_for (g : Qc → Qc) (tol : Qc) (n k : nat) (x : Qc)
    : Qc * option nat :=
  match n with
  | O => (x, None)
  | S n' =>
      let x_old := x in
      let x' := g x in
      let err := Qcabs.Qcabs (x' - x_old) in
      if decide (err < tol) then (x', Some k)
      else
        match fixpoint_for g tol n' (S k) x' with
        | (xf, Some kf) => (xf, Some kf)
        | (xf, None) => (xf, Some k)
        end
  end.

(** [fixpoint(g, x0, tol, max_iter)]. *)
Definition fixpoint (g : Qc → Qc) (x0 tol : Qc) (max_iter : nat)
    : outcome (Qc * nat) :=
  match fixpoint_for g tol max_iter 0 x0 with
  | (x, Some k) => Returned (x, (k + 1)%nat)
  | (_, None) => UnboundLocalError
  end.

(** The loop of [newton].  The quotient [fx/df(x)] is that of Python's own
    numbers, which raises [ZeroDivisionError] on a zero divisor. *)
Fixpoint newton_for (f df : Qc → Qc) (tol : Qc) (n k : nat) (x : Qc)
    : outcome (Qc * option nat) :=
  match n with
  | O => Returned (x, None)
  | S n' =>
      let fx := f x in
      if decide (Qcabs.Qcabs fx < tol) then Returned (x, Some k)
      else if decide (df x = 0) then ZeroDivisionError
      else
        let x' := x - fx / df x in
        match newton_for f df tol n' (S k) x' with
        | Returned (xf, Some kf) => Returned (xf, Some kf)
        | Returned (xf, None) => Returned (xf, Some k)
        | e => e
        end
  end.

(** [newton(f, df, x0, tol, max_iter)]. *)
Definition newton (f df : Qc → Qc) (x0 tol : Qc) (max_iter : nat)
    : outcome (Qc * nat) :=
  match newton_for f df tol max_iter 0 x0 with
  | Returned (x, Some k) => Returned (x, (k + 1)%nat)
  | Returned (_, None) => UnboundLocalError
  | UnboundLocalError => UnboundLocalError
  | ZeroDivisionError => ZeroDivisionError
  | LinAlgError => LinAlgError
  end.

Section NewtonSystem.
(** Vectors [X] and matrices [M] with the numpy operations that
    [newton_system] uses: [norm(v, math.inf)], [solve(A, v)], which raises
    [LinAlgError] on a singular matrix, [-v] and [u + v]. *)
Variables (X M : Type).
Variables (norm_inf : X → Qc) (solve : M → X → option X).
Variables (neg : X → X) (plus : X → X → X).
Variables (f : X → X) (J : X → M) (tol : Qc).

(** The loop of [newton_system]. *)
Fixpoint newton_system_for (n k : nat) (x : X) : outcome (X * option nat) :=
  match n with
  | O => Returned (x, None)
  | S n' =>
      let fx := f x in
      let me := norm_inf fx in
      if decide (me < tol) then Returned (x, Some k)
      else
        let Jx := J x in
        match solve Jx (neg fx) with
        | None => LinAlgError
        | Some delta =>
            let x' := plus x delta in
            match newton_system_for n' (S k) x' with
            | Returned (xf, Some kf) => Returned (xf, Some kf)
            | Returned (xf, None) => Returned (xf, Some k)
            | e => e
            end
        end
  end.

(** [newton_system(f, J, x0, tol, max_iter)]: it returns [x, k], not
    [x, k+1]. *)
Definition newton_system (x0 : X) (max_iter : nat) : outcome (X * nat) :=
  match newton_system_for max_iter 0 x0 with
  | Returned (x, Some k) => Returned (x, k)
  | Returned (_, None) => UnboundLocalError
  | UnboundLocalError => UnboundLocalError
  | ZeroDivisionError => ZeroDivisionError
  | LinAlgError => LinAlgError
  end.
End NewtonSystem.

(** ** Vocabulary of the statements *)

(** The update of Newton's method. *)
Definition newton_step (f df : Qc → Qc) (x : Qc) : Qc := x - f x / df x.

Definition sub {Y : Type} `{State Y} (u v : Y) : Y := add u (scale (-1) v).

(** A time sequence is strictly increasing when a later entry is always
    the larger one. *)
Definition strictly_increasing (l : list Qc) : Prop :=
  ∀ i j x y, (i < j)%nat → l !! i = Some x → l !! j = Some y → x < y.

(** The tableau can be indexed wherever [explicitRK] indexes it: [c[i]] for
    every stage [i < len(b)] and [a[i,j]] for every [j < i < len(b)]. *)
Definition tableau_ok (a : list (list Qc)) (b c : list Qc) : Prop :=
  (∀ i, (i < length b)%nat → is_Some (c !! i))
  ∧ (∀ i j, (j < i)%nat → (i < length b)%nat →
       ∃ row, a !! i = Some row ∧ is_Some (row !! j)).

Definition sum_list (l : list Qc) : Qc := foldr Qcplus 0 l.

Definition Qc_of_nat (n : nat) : Qc := Qc_of_Z (Z.of_nat n).

(** The time grid [0, h, 2h, ..., n*h]. *)
Definition grid (h : Qc) (n : nat) : list Qc :=
  map (λ k, Qc_of_nat k * h) (seq 0 (S n)).

(** The number of steps of size [h] needed to reach [T]. *)
Definition steps_needed (T h : Qc) : nat := Z.to_nat (Qceiling (T / h)%Qc).

(** The shape of the three lists of [HeunWithEuler]: equal lengths, the
    first time 0, the first step size the initial guess [h0], and every
    later step size the increment of the times. *)
Record he_shape {Y : Type} (h0 : Qc) (st : he_state Y) : Prop := {
  shape_len_ys : length (he_ys st) = length (he_ts st);
  shape_len_hs : length (he_hs st) = length (he_ts st);
  shape_ts0 : he_ts st !! 0%nat = Some 0;
  shape_hs0 : he_hs st !! 0%nat = Some h0;
  shape_incr : ∀ i t0 t1,
    he_ts st !! i = Some t0 → he_ts st !! S i = Some t1 →
    he_hs st !! S i = Some (t1 - t0);
}.

(** The current and the recorded step sizes are positive. *)
Definition he_positive {Y : Type} (st : he_state Y) : Prop :=
  0 < he_h st ∧ Forall (λ x, 0 < x) (he_hs st).

(** The times increase and stay within the horizon [T]. *)
Definition he_timed {Y : Type} (T : Qc) (st : he_state Y) : Prop :=
  strictly_increasing (he_ts st) ∧ ∀ t, last (he_ts st) = Some t → t ≤ T.

(** The state of [explicitRK] after [n] passes: times on the grid, one state per time,
    each state satisfying [Q], and [n * s] calls of [f]. *)
Definition rk_at {Y : Type} (b : list Qc) (h : Qc) (Q : nat → Y → Prop)
    (n : nat) (st : rk_state Y) : Prop :=
  length (rk_ks st) = length b
  ∧ rk_ts st = grid h n
  ∧ length (rk_ys st) = S n
  ∧ (∀ k y, rk_ys st !! k = Some y → Q k y)
  ∧ rk_calls st = (n * length b)%nat.

(** One step of Heun's method from [(t, y)] with step size [h]: the state
    that an accepting pass of [HeunWithEuler] appends. *)
Definition heun_next {Y : Type} `{State Y} (f : Qc → Y → Y) (h t : Qc) (y : Y)
    : Y :=
  let k1 := f t y in
  let k2 := f (t + h) (add y (scale h k1)) in
  add y (scale (point5 * h) (add k1 k2)).

(** The estimate [epsilon] of a pass of [HeunWithEuler] at [(t, y)] with
    step size [h]. *)
Definition heun_estimate {Y : Type} `{State Y} (f : Qc → Y → Y) (h t : Qc)
    (y : Y) : Qc :=
  let k1 := f t y in
  let k2 := f (t + h) (add y (scale h k1)) in
  he_epsilon h k1 k2.

(** Every returned sample of [HeunWithEuler] after the first is a Heun step
    from the sample before it, of the recorded size, whose estimate is
    within [tol]. *)
Definition he_chain {Y : Type} `{State Y} (f : Qc → Y → Y) (tol : Qc)
    (ts : list Qc) (ys : list Y) (hs : list Qc) : Prop :=
  ∀ i t y t' y' h', ts !! i = Some t → ys !! i = Some y →
    ts !! S i = Some t' → ys !! S i = Some y' → hs !! S i = Some h' →
    t' = t + h' ∧ y' = heun_next f h' t y ∧ heun_estimate f h' t y ≤ tol.

(** A run used as the running example: [y' = 4t] over [[0, 0.2]] with the
    initial guess 0.3 and tolerance 0.1.  The first proposal is rejected
    (the estimate is 0.18), two steps are accepted, the next proposal is
    clipped to the horizon, and the clipped step is accepted. *)
Definition demo_result : list Qc * list Qc * list Qc :=
  ([0; Q2Qc 0.075; Q2Qc 0.1575; Q2Qc 0.2],
   [0; Q2Qc 0.01125; Q2Qc 0.0496125; Q2Qc 0.08],
   [Q2Qc 0.3; Q2Qc 0.075; Q2Qc 0.0825; Q2Qc 0.0425]).

#[export] Instance exn_eq_dec {A : Type} `{EqDecision A} : EqDecision (exn A).
Proof. solve_decision. Defined.

#[export] Instance he_state_eq_dec {Y : Type} `{EqDecision Y} :
  EqDecision (he_state Y).
Proof. solve_decision. Defined.

#[export] Instance rk_state_eq_dec {Y : Type} `{EqDecision Y} :
  EqDecision (rk_state Y).
Proof. solve_decision. Defined.

#[export] Instance outcome_eq_dec {A : Type} `{EqDecision A} :
  EqDecision (outcome A).
Proof. solve_decision. Defined.

(** ** Arithmetic in [Qc] through [Q] *)

Lemma Qc_eq_Qeq (x y : Qc) : x = y ↔ (this x == this y)%Q.
Proof. split; [by intros -> | apply Qc_is_canon]. Qed.

(** Turn the goal and the hypotheses on [Qc] into statements on the
    underlying fractions, where [lra] and [nra] apply. *)
Ltac qc_to_q :=
  repeat match goal with
  | H : @eq Qc _ _ |- _ => apply Qc_eq_Qeq in H
  | H : ¬ (@eq Qc _ _) |- _ => rewrite Qc_eq_Qeq in H
  end;
  try apply Qc_eq_Qeq;
  unfold Qcle, Qclt, Qcdiv, Qcminus, Qcinv, Qcopp, Qcplus, Qcmult in *;
  cbn [this Q2Qc] in *;
  repeat match goal with
  | H : context [Qred _] |- _ => rewrite !Qred_correct in H
  end;
  rewrite ?Qred_correct;
  change (/ (1 + 1))%Q with (1 # 2)%Q in *.

(** Settle a decidable closed statement by evaluating its decision. *)
Ltac by_evaluation :=
  match goal with
  | |- ?P => apply (bool_decide_eq_true_1 P); vm_compute; reflexivity
  end.

Ltac qc_lra := intros; qc_to_q; lra.

Lemma point5_half : point5 = 1 / 2.
Proof. by apply Qc_is_canon. Qed.

Lemma Qcdiv_pos (x y : Qc) : 0 < x → 0 < y → 0 < x / y.
Proof. intros Hx Hy. apply Qcmult_pos_pos; [done | by apply Qcinv_pos]. Qed.

Lemma Qcdiv_lt_1 (x y : Qc) : 0 < y → x < y → x / y < 1.
Proof.
  intros Hy Hxy. apply (Qcmult_lt_mono_pos_r _ _ y); [done|].
  unfold Qcdiv. rewrite <-Qcmult_assoc, (Qcmult_comm (/ y)), Qcmult_inv_r.
  - by rewrite Qcmult_1_r, Qcmult_1_l.
  - intros ->. by apply (Qclt_not_eq 0 0).
Qed.

(** Halving a ratio below 1 gives less than its square root. *)
Lemma shrink_below_sqrt (p r : Qc) :
  0 < p → 0 < r → r < 1 → (p * r / 2) ^ 2 < p ^ 2 * r.
Proof.
  intros Hp Hr0 Hr1.
  assert (0 < p ^ 2 * r) as Hq.
  { simpl. rewrite Qcmult_1_r. by repeat apply Qcmult_pos_pos. }
  replace ((p * r / 2) ^ 2) with (p ^ 2 * r * (r * Q2Qc 0.25)).
  - rewrite <-(Qcmult_1_r (p ^ 2 * r)) at 2.
    apply Qcmult_lt_mono_pos_l; [done|]. clear Hq. qc_to_q. lra.
  - simpl. qc_to_q. ring.
Qed.

(** ** Strictly increasing lists *)

Lemma strictly_increasing_singleton (x : Qc) : strictly_increasing [x].
Proof.
  intros i j u v Hij Hi Hj. apply lookup_lt_Some in Hj. simpl in Hj. lia.
Qed.

Lemma strictly_increasing_snoc (l : list Qc) (t z : Qc) :
  strictly_increasing l → last l = Some t → t < z →
  strictly_increasing (l ++ [z]).
Proof.
  intros Hl Hlast Htz i j x y Hij Hi Hj.
  assert (Hj' := lookup_lt_Some _ _ _ Hj). rewrite length_app in Hj'.
  simpl in Hj'. rewrite last_lookup in Hlast.
  rewrite lookup_app_l in Hi by lia.
  destruct (decide (j < length l)%nat) as [Hlt|Hge].
  - rewrite lookup_app_l in Hj by done. eauto.
  - rewrite lookup_app_r in Hj by lia.
    replace (j - length l)%nat with 0%nat in Hj by lia.
    simpl in Hj. injection Hj as <-.
    destruct (decide (i = pred (length l))) as [->|Hne].
    + rewrite Hlast in Hi. by injection Hi as <-.
    + apply Qclt_trans with t; [|done].
      apply (Hl i (pred (length l))); [lia|done..].
Qed.

(** ** Facts about the adaptive loop *)

Section AdaptiveFacts.
Context {Y : Type} `{State Y}.
Variables (T : Qc) (f : Qc → Y → Y) (tol gamma alpha : Qc).

Abbreviation body := (HeunWithEuler_body T f tol gamma alpha).
Abbreviation loop := (HeunWithEuler_loop T f tol gamma alpha).

(** The three ways through the body. *)
Lemma HeunWithEuler_body_inv (st st' : he_state Y) :
  body st = Ok st' →
  ∃ t y, last (he_ts st) = Some t ∧ last (he_ys st) = Some y ∧
    let h := he_h st in
    let k1 := f t y in
    let k2 := f (t + h) (add y (scale h k1)) in
    let epsilon := he_epsilon h k1 k2 in
    let calls := S (S (he_calls st)) in
    (epsilon ≤ tol ∧ T < t + h ∧
       st' = HeState (he_ys st) (he_ts st) (he_hs st) (T - t) calls)
    ∨ (epsilon ≤ tol ∧ t + h ≤ T ∧
       st' = HeState (he_ys st ++ [add y (scale (point5 * h) (add k1 k2))])
                     (he_ts st ++ [t + h]) (he_hs st ++ [h])
                     (alpha * h) calls)
    ∨ (tol < epsilon ∧
       st' = HeState (he_ys st) (he_ts st) (he_hs st)
                     (h * gamma * ((tol / epsilon) ^ 1 / 2)) calls).
Proof.
  unfold HeunWithEuler_body, getitem_last.
  destruct (last (he_ts st)) as [t|]; [|done].
  destruct (last (he_ys st)) as [y|]; [|done]. simpl.
  intros Hst'. exists t, y. split; [done|]. split; [done|].
  repeat case_decide; injection Hst' as <-.
  - left. done.
  - right. left. split; [done|]. split; [|done]. by apply Qcnot_lt_le.
  - right. right. split; [|done]. by apply Qcnot_le_lt.
Qed.

(** The same three ways, read forwards. *)
Lemma HeunWithEuler_body_rejected (st : he_state Y) (t : Qc) (y : Y) :
  last (he_ts st) = Some t → last (he_ys st) = Some y →
  let h := he_h st in
  let k1 := f t y in
  let k2 := f (t + h) (add y (scale h k1)) in
  let epsilon := he_epsilon h k1 k2 in
  tol < epsilon →
  body st = Ok (HeState (he_ys st) (he_ts st) (he_hs st)
                  (h * gamma * ((tol / epsilon) ^ 1 / 2))
                  (S (S (he_calls st)))).
Proof.
  intros Ht Hy h k1 k2 epsilon Heps.
  unfold HeunWithEuler_body, getitem_last. rewrite Ht, Hy. simpl.
  fold h k1 k2 epsilon. by rewrite decide_False by by apply Qclt_not_le.
Qed.

Lemma HeunWithEuler_body_clipped (st : he_state Y) (t : Qc) (y : Y) :
  last (he_ts st) = Some t → last (he_ys st) = Some y →
  let h := he_h st in
  let k1 := f t y in
  let k2 := f (t + h) (add y (scale h k1)) in
  let epsilon := he_epsilon h k1 k2 in
  epsilon ≤ tol → T < t + h →
  body st = Ok (HeState (he_ys st) (he_ts st) (he_hs st) (T - t)
                  (S (S (he_calls st)))).
Proof.
  intros Ht Hy h k1 k2 epsilon Heps Hclip.
  unfold HeunWithEuler_body, getitem_last. rewrite Ht, Hy. simpl.
  fold h k1 k2 epsilon. by rewrite !decide_True.
Qed.

Lemma HeunWithEuler_body_accepted (st : he_state Y) (t : Qc) (y : Y) :
  last (he_ts st) = Some t → last (he_ys st) = Some y →
  let h := he_h st in
  let k1 := f t y in
  let k2 := f (t + h) (add y (scale h k1)) in
  let epsilon := he_epsilon h k1 k2 in
  epsilon ≤ tol → t + h ≤ T →
  body st = Ok (HeState
                  (he_ys st ++ [add y (scale (point5 * h) (add k1 k2))])
                  (he_ts st ++ [t + h]) (he_hs st ++ [h]) (alpha * h)
                  (S (S (he_calls st)))).
Proof.
  intros Ht Hy h k1 k2 epsilon Heps Hfit.
  unfold HeunWithEuler_body, getitem_last. rewrite Ht, Hy. simpl.
  fold h k1 k2 epsilon. rewrite decide_True by done.
  by rewrite decide_False by by apply Qcle_not_lt.
Qed.

(** Loop invariants: what the body preserves while the loop condition
    holds is true of the returned state, where the condition fails. *)
Lemma HeunWithEuler_loop_inv (P : he_state Y → Prop) :
  (∀ st t st', P st → last (he_ts st) = Some t → t < T →
               body st = Ok st' → P st') →
  ∀ fuel st r, P st → loop fuel st = Some (Ok r) →
  P r ∧ ∃ t, last (he_ts r) = Some t ∧ ¬ t < T.
Proof.
  intros Hstep fuel. induction fuel as [|fuel IH]; intros st r HP; simpl;
    unfold getitem_last; destruct (last (he_ts st)) as [t|] eqn:Ht;
    try done; case_decide as Hlt; try done.
  - intros [= <-]. eauto.
  - destruct (body st) as [st'|] eqn:Hbody; [|done].
    intros Hr. eapply IH; [|done]. eauto.
  - intros [= <-]. eauto.
Qed.

(** More fuel does not change a result. *)
Lemma HeunWithEuler_loop_mono (fuel fuel' : nat) (st : he_state Y) r :
  (fuel ≤ fuel')%nat → loop fuel st = Some r → loop fuel' st = Some r.
Proof.
  revert fuel' st. induction fuel as [|fuel IH]; intros fuel' st Hle; simpl;
    destruct (getitem_last (he_ts st)) as [t|] eqn:Ht.
  - case_decide; [done|]. intros <-. destruct fuel'; simpl; rewrite Ht;
      by rewrite decide_False.
  - intros <-. destruct fuel'; simpl; by rewrite Ht.
  - destruct fuel' as [|fuel']; [lia|]. simpl. rewrite Ht.
    case_decide; [|done]. destruct (body st); [|done]. apply IH. lia.
  - intros <-. destruct fuel'; simpl; by rewrite Ht.
Qed.

Lemma he_shape_init (y0 : Y) (h0 : Qc) : he_shape h0 (he_init y0 h0).
Proof.
  by split.
Qed.

Lemma he_shape_body (h0 : Qc) (st st' : he_state Y) :
  he_shape h0 st → body st = Ok st' → he_shape h0 st'.
Proof.
  intros [Hys Hhs Hts0 Hhs0 Hincr] Hbody.
  apply HeunWithEuler_body_inv in Hbody as (t & y & Ht & Hy & Hcases).
  destruct Hcases as [(_ & _ & ->)|[(_ & _ & ->)|(_ & ->)]];
    [by split| |by split].
  split; simpl.
  - rewrite !length_app. simpl. lia.
  - rewrite !length_app. simpl. lia.
  - apply lookup_app_l_Some, Hts0.
  - apply lookup_app_l_Some, Hhs0.
  - intros i t0 t1 Hi HSi.
    assert (HSi' := lookup_lt_Some _ _ _ HSi). rewrite length_app in HSi'.
    simpl in HSi'. rewrite lookup_app_l in Hi by lia.
    destruct (decide (S i < length (he_ts st))%nat) as [Hlt|Hge].
    + rewrite lookup_app_l in HSi by done.
      rewrite lookup_app_l by lia. eauto.
    + rewrite lookup_app_r in HSi by lia. rewrite lookup_app_r by lia.
      rewrite Hhs. replace (S i - length (he_ts st))%nat with 0%nat in * by lia.
      simpl in *. injection HSi as <-.
      rewrite last_lookup in Ht.
      replace (pred (length (he_ts st))) with i in Ht by lia.
      rewrite Ht in Hi. injection Hi as <-. f_equal. ring.
Qed.

(** *** Positive step sizes *)

Lemma he_positive_body (st st' : he_state Y) (t : Qc) :
  0 < tol → 0 < gamma → 0 < alpha →
  he_positive st → last (he_ts st) = Some t → t < T →
  body st = Ok st' → he_positive st'.
Proof.
  intros Htol Hgamma Halpha [Hh Hhs] Ht HtT Hbody.
  apply HeunWithEuler_body_inv in Hbody as (t' & y & Ht' & Hy & Hcases).
  rewrite Ht in Ht'. injection Ht' as <-.
  destruct Hcases as [(_ & _ & ->)|[(_ & _ & ->)|(Heps & ->)]];
    split; simpl; try done.
  - qc_lra.
  - by apply Qcmult_pos_pos.
  - apply Forall_app. split; [done|]. by apply Forall_singleton.
  - set (epsilon := he_epsilon _ _ _) in *.
    assert (0 < tol / epsilon) as Hr.
    { apply Qcdiv_pos; [done|]. by apply Qclt_trans with tol. }
    apply Qcmult_pos_pos; [by apply Qcmult_pos_pos|].
    simpl. rewrite Qcmult_1_r. by apply Qcdiv_pos.
Qed.

(** *** Times that increase and stay within the horizon *)

Lemma he_timed_body (st st' : he_state Y) :
  0 < he_h st → he_timed T st → body st = Ok st' → he_timed T st'.
Proof.
  intros Hh [Hincr Hlast] Hbody.
  apply HeunWithEuler_body_inv in Hbody as (t & y & Ht & Hy & Hcases).
  destruct Hcases as [(_ & _ & ->)|[(_ & Hle & ->)|(_ & ->)]];
    [by split| |by split].
  split; simpl.
  - apply strictly_increasing_snoc with t; [done..|]. qc_lra.
  - intros t'. rewrite last_snoc. by intros [= <-].
Qed.
End AdaptiveFacts.

(** ** The adaptive stepper: results *)

#[export] Instance scalar_laws : StateLaws Qc.
Proof. split; intros; simpl; ring. Qed.

Lemma HeunWithEuler_Ok {Y : Type} `{State Y} fuel (y0 : Y) T f h tol gamma alpha
    ts ys hs :
  HeunWithEuler fuel y0 T f h tol gamma alpha = Some (Ok (ts, ys, hs)) →
  ∃ st, HeunWithEuler_run T f tol gamma alpha fuel y0 h = Some (Ok st)
        ∧ he_ts st = ts ∧ he_ys st = ys ∧ he_hs st = hs.
Proof.
  unfold HeunWithEuler.
  destruct (HeunWithEuler_run _ _ _ _ _ _ _ _) as [[st|]|]; [|done..].
  intros [= <- <- <-]. eauto.
Qed.

Lemma demo_run :
  HeunWithEuler 5 (0 : Qc) (Q2Qc 0.2) (λ t y, Q2Qc 4 * t) (Q2Qc 0.3) (Q2Qc 0.1)
    (Q2Qc 0.9) (Q2Qc 1.1)
  = Some (Ok demo_result).
Proof. by_evaluation. Qed.

Lemma demo_still_running :
  HeunWithEuler 4 (0 : Qc) (Q2Qc 0.2) (λ t y, Q2Qc 4 * t) (Q2Qc 0.3) (Q2Qc 0.1)
    (Q2Qc 0.9) (Q2Qc 1.1)
  = None.
Proof. by_evaluation. Qed.

(** C1.  Whenever [HeunWithEuler] returns, for a horizon [T > 0] and positive
    [h], [tol], [gamma] and [alpha], the returned times are strictly
    increasing and the last of them is [T] itself. *)
Theorem HeunWithEuler_times_increase_to_T {Y : Type} `{State Y}
    fuel (y0 : Y) T f h tol gamma alpha ts ys hs :
  0 < T → 0 < h → 0 < tol → 0 < gamma → 0 < alpha →
  HeunWithEuler fuel y0 T f h tol gamma alpha = Some (Ok (ts, ys, hs)) →
  strictly_increasing ts ∧ last ts = Some T.
Proof.
  intros HT Hh Htol Hgamma Halpha Hret.
  apply HeunWithEuler_Ok in Hret as (st & Hrun & <- & _ & _).
  apply (HeunWithEuler_loop_inv T f tol gamma alpha
           (λ st, he_positive st ∧ he_timed T st)) in Hrun.
  - destruct Hrun as [[_ [Hincr Hle]] (t & Ht & Hnlt)]. split; [done|].
    rewrite Ht. f_equal. apply Qcle_antisym; [by apply Hle|].
    by apply Qcnot_lt_le.
  - intros s t s' [Hpos Htimed] Ht HtT Hbody. split.
    + by apply (he_positive_body T f tol gamma alpha s s' t).
    + apply (he_timed_body T f tol gamma alpha s s'); [|done..].
      by destruct Hpos.
  - split; [split; [done|by apply Forall_singleton]|]. split.
    + apply strictly_increasing_singleton.
    + intros t [= <-]. by apply Qclt_le_weak.
Qed.

Lemma HeunWithEuler_times_increase_to_T_witness :
  HeunWithEuler 5 (0 : Qc) (Q2Qc 0.2) (λ t y, Q2Qc 4 * t) (Q2Qc 0.3) (Q2Qc 0.1)
    (Q2Qc 0.9) (Q2Qc 1.1)
  = Some (Ok demo_result)
  ∧ strictly_increasing [0; Q2Qc 0.075; Q2Qc 0.1575; Q2Qc 0.2]
  ∧ last [0; Q2Qc 0.075; Q2Qc 0.1575; Q2Qc 0.2] = Some (Q2Qc 0.2).
Proof.
  split; [exact demo_run|].
  apply (HeunWithEuler_times_increase_to_T 5 (0 : Qc) (Q2Qc 0.2)
           (λ t y, Q2Qc 4 * t) (Q2Qc 0.3) (Q2Qc 0.1) (Q2Qc 0.9) (Q2Qc 1.1)
           [0; Q2Qc 0.075; Q2Qc 0.1575; Q2Qc 0.2]
           [0; Q2Qc 0.01125; Q2Qc 0.0496125; Q2Qc 0.08]
           [Q2Qc 0.3; Q2Qc 0.075; Q2Qc 0.0825; Q2Qc 0.0425]);
    [reflexivity..|exact demo_run].
Defined.

(** C2.  When the estimate exceeds the tolerance the pass leaves the three
    lists as they are and sets the step size to [h*gamma*(tol/epsilon)/2],
    the value of [h*gamma*((tol/epsilon)**1/2)] with [**] binding tighter
    than [/].  For positive [tol], [h] and [gamma] the square of that value is strictly
    below [(h*gamma)^2 * (tol/epsilon)], the square of the conventional
    [h*gamma*sqrt(tol/epsilon)]: the two updates never agree. *)
Theorem HeunWithEuler_body_reject {Y : Type} `{State Y}
    T f tol gamma alpha (st : he_state Y) (t : Qc) (y : Y) :
  last (he_ts st) = Some t → last (he_ys st) = Some y →
  let h := he_h st in
  let k1 := f t y in
  let k2 := f (t + h) (add y (scale h k1)) in
  let epsilon := he_epsilon h k1 k2 in
  let h' := h * gamma * (tol / epsilon) / 2 in
  tol < epsilon →
  HeunWithEuler_body T f tol gamma alpha st
  = Ok (HeState (he_ys st) (he_ts st) (he_hs st) h' (S (S (he_calls st))))
  ∧ h' = h * gamma * ((tol / epsilon) ^ 1 / 2)
  ∧ (0 < tol → 0 < h → 0 < gamma →
     h' ^ 2 < (h * gamma) ^ 2 * (tol / epsilon)).
Proof.
  intros Ht Hy h k1 k2 epsilon h' Heps.
  assert (h' = h * gamma * ((tol / epsilon) ^ 1 / 2)) as Hh'.
  { unfold h', Qcdiv. simpl. ring. }
  split; [|split; [done|]].
  - rewrite (HeunWithEuler_body_rejected T f tol gamma alpha st t y) by done.
    fold h k1 k2 epsilon. by rewrite Hh'.
  - clear Hh'. intros Htol Hh Hgamma. subst h'.
    assert (0 < epsilon) as Heps0 by by apply Qclt_trans with tol.
    apply shrink_below_sqrt.
    + by apply Qcmult_pos_pos.
    + by apply Qcdiv_pos.
    + by apply Qcdiv_lt_1.
Qed.

Lemma HeunWithEuler_body_reject_witness :
  HeunWithEuler_body (Q2Qc 0.2) (λ t y : Qc, Q2Qc 4 * t) (Q2Qc 0.1) (Q2Qc 0.9)
    (Q2Qc 1.1) (he_init (0 : Qc) (Q2Qc 0.3))
  = Ok (HeState [0] [0] [Q2Qc 0.3] (Q2Qc 0.075) 2)
  ∧ Q2Qc 0.075 ^ 2 < (Q2Qc 0.3 * Q2Qc 0.9) ^ 2 * (Q2Qc 0.1 / Q2Qc 0.18).
Proof.
  destruct (HeunWithEuler_body_reject (Q2Qc 0.2) (λ t y : Qc, Q2Qc 4 * t)
              (Q2Qc 0.1) (Q2Qc 0.9) (Q2Qc 1.1) (he_init (0 : Qc) (Q2Qc 0.3))
              0 0 eq_refl eq_refl) as (Hbody & _ & Hsq); [reflexivity|].
  split.
  - etrans; [exact Hbody|]. by_evaluation.
  - specialize (Hsq eq_refl eq_refl eq_refl).
    eapply Qcle_lt_trans; [|eapply Qclt_le_trans; [exact Hsq|]];
      by_evaluation.
Defined.

(** C5.  In a pass of the loop with [k1 = f(t,y)] and
    [k2 = f(t+h, y+h*k1)], the estimate is the norm of
    [h*((.5-1)*k1 + (.5-0)*k2)], which is the norm of [h*(k2-k1)/2]; the pass
    appends an entry exactly when the estimate is at most [tol] and
    [t+h <= T]; the entry is [y + 0.5*h*(k1+k2)] at time [t+h], with [h]
    recorded, and the step size becomes [alpha*h]. *)
Theorem HeunWithEuler_body_accept {Y : Type} `{State Y} `{!StateLaws Y}
    T f tol gamma alpha (st : he_state Y) (t : Qc) (y : Y) :
  last (he_ts st) = Some t → last (he_ys st) = Some y →
  let h := he_h st in
  let k1 := f t y in
  let k2 := f (t + h) (add y (scale h k1)) in
  let epsilon :=
    norm (scale h (add (scale (point5 - 1) k1) (scale (point5 - 0) k2))) in
  epsilon = norm (scale (1 / 2) (scale h (sub k2 k1)))
  ∧ (epsilon ≤ tol ∧ t + h ≤ T →
     HeunWithEuler_body T f tol gamma alpha st
     = Ok (HeState (he_ys st ++ [add y (scale (point5 * h) (add k1 k2))])
             (he_ts st ++ [t + h]) (he_hs st ++ [h]) (alpha * h)
             (S (S (he_calls st)))))
  ∧ (¬ (epsilon ≤ tol ∧ t + h ≤ T) →
     ∃ h', HeunWithEuler_body T f tol gamma alpha st
           = Ok (HeState (he_ys st) (he_ts st) (he_hs st) h'
                   (S (S (he_calls st))))).
Proof.
  intros Ht Hy h k1 k2 epsilon. split; [|split].
  - unfold epsilon, sub. f_equal.
    rewrite !scale_add, !scale_scale, add_comm. f_equal; f_equal.
    + rewrite point5_half. clearbody h. clear. qc_lra.
    + rewrite point5_half. clearbody h. clear. qc_lra.
  - intros [Heps Hfit].
    by apply (HeunWithEuler_body_accepted T f tol gamma alpha st t y).
  - intros Hnot. destruct (decide (epsilon ≤ tol)) as [Heps|Heps].
    + eexists.
      apply (HeunWithEuler_body_clipped T f tol gamma alpha st t y);
        [done..|].
      apply Qcnot_le_lt. intros Hfit. by apply Hnot.
    + eexists.
      apply (HeunWithEuler_body_rejected T f tol gamma alpha st t y);
        [done..|].
      by apply Qcnot_le_lt.
Qed.

Lemma HeunWithEuler_body_accept_witness :
  he_epsilon (Q2Qc 0.075) (0 : Qc) (Q2Qc 0.3) = Q2Qc 0.01125
  ∧ HeunWithEuler_body (Q2Qc 0.2) (λ t y : Qc, Q2Qc 4 * t) (Q2Qc 0.1)
      (Q2Qc 0.9) (Q2Qc 1.1) (HeState [0] [0] [Q2Qc 0.3] (Q2Qc 0.075) 2)
    = Ok (HeState [0; Q2Qc 0.01125] [0; Q2Qc 0.075] [Q2Qc 0.3; Q2Qc 0.075]
            (Q2Qc 0.0825) 4)
  ∧ ∃ h', HeunWithEuler_body (Q2Qc 0.2) (λ t y : Qc, Q2Qc 4 * t) (Q2Qc 0.1)
            (Q2Qc 0.9) (Q2Qc 1.1) (HeState [0] [0] [Q2Qc 0.3] (Q2Qc 0.3) 0)
          = Ok (HeState [0] [0] [Q2Qc 0.3] h' 2).
Proof.
  split; [by_evaluation|]. split.
  - destruct (HeunWithEuler_body_accept (Q2Qc 0.2) (λ t y : Qc, Q2Qc 4 * t)
                (Q2Qc 0.1) (Q2Qc 0.9) (Q2Qc 1.1)
                (HeState [0] [0] [Q2Qc 0.3] (Q2Qc 0.075) 2) 0 0
                eq_refl eq_refl) as (_ & Hacc & _).
    etrans; [apply Hacc; split; by_evaluation|]. by_evaluation.
  - destruct (HeunWithEuler_body_accept (Q2Qc 0.2) (λ t y : Qc, Q2Qc 4 * t)
                (Q2Qc 0.1) (Q2Qc 0.9) (Q2Qc 1.1)
                (HeState [0] [0] [Q2Qc 0.3] (Q2Qc 0.3) 0) 0 0
                eq_refl eq_refl) as (_ & _ & Hrej).
    apply Hrej. intros [Heps _]. revert Heps. by_evaluation.
Defined.

(** C7.  Whenever [HeunWithEuler] returns, for positive [h], [tol], [gamma]
    and [alpha], the returned step sizes are as many as the times and as
    the states, the first of them is the initial guess [h], and all of them
    are positive. *)
Theorem HeunWithEuler_step_sizes {Y : Type} `{State Y}
    fuel (y0 : Y) T f h tol gamma alpha ts ys hs :
  0 < h → 0 < tol → 0 < gamma → 0 < alpha →
  HeunWithEuler fuel y0 T f h tol gamma alpha = Some (Ok (ts, ys, hs)) →
  length hs = length ts ∧ length hs = length ys
  ∧ hs !! 0%nat = Some h ∧ Forall (λ x, 0 < x) hs.
Proof.
  intros Hh Htol Hgamma Halpha Hret.
  apply HeunWithEuler_Ok in Hret as (st & Hrun & <- & <- & <-).
  apply (HeunWithEuler_loop_inv T f tol gamma alpha
           (λ st, he_shape h st ∧ he_positive st)) in Hrun.
  - destruct Hrun as [[[Hys Hhs _ Hhs0 _] [_ Hpos]] _].
    repeat split; [done|congruence|done..].
  - intros s t s' [Hshape Hpos] Ht HtT Hbody. split.
    + by apply (he_shape_body T f tol gamma alpha h s s').
    + by apply (he_positive_body T f tol gamma alpha s s' t).
  - split; [apply he_shape_init|]. split; [done|by apply Forall_singleton].
Qed.

Lemma HeunWithEuler_step_sizes_witness :
  HeunWithEuler 5 (0 : Qc) (Q2Qc 0.2) (λ t y, Q2Qc 4 * t) (Q2Qc 0.3) (Q2Qc 0.1)
    (Q2Qc 0.9) (Q2Qc 1.1)
  = Some (Ok demo_result)
  ∧ length (demo_result.2) = length (demo_result.1.1)
  ∧ length (demo_result.2) = length (demo_result.1.2)
  ∧ demo_result.2 !! 0%nat = Some (Q2Qc 0.3)
  ∧ Forall (λ x, 0 < x) (demo_result.2).
Proof.
  split; [exact demo_run|].
  apply (HeunWithEuler_step_sizes 5 (0 : Qc) (Q2Qc 0.2) (λ t y, Q2Qc 4 * t)
           (Q2Qc 0.3) (Q2Qc 0.1) (Q2Qc 0.9) (Q2Qc 1.1)
           (demo_result.1.1) (demo_result.1.2) (demo_result.2));
    [reflexivity..|exact demo_run].
Defined.

(** In exact arithmetic: whenever [HeunWithEuler] returns, the entry of the
    step-size sequence at every index [i >= 1] is the difference
    [ts[i] - ts[i-1]] of the returned times. *)
Theorem HeunWithEuler_step_sizes_are_increments {Y : Type} `{State Y}
    fuel (y0 : Y) T f h tol gamma alpha ts ys hs (i : nat) :
  HeunWithEuler fuel y0 T f h tol gamma alpha = Some (Ok (ts, ys, hs)) →
  (1 ≤ i)%nat → (i < length ts)%nat →
  ∃ t0 t1, ts !! (i - 1)%nat = Some t0 ∧ ts !! i = Some t1
           ∧ hs !! i = Some (t1 - t0).
Proof.
  intros Hret Hi Hlen.
  apply HeunWithEuler_Ok in Hret as (st & Hrun & <- & <- & <-).
  apply (HeunWithEuler_loop_inv T f tol gamma alpha (he_shape h)) in Hrun.
  - destruct Hrun as [[_ _ _ _ Hincr] _].
    destruct i as [|i]; [lia|]. replace (S i - 1)%nat with i by lia.
    destruct (lookup_lt_is_Some_2 (he_ts st) i) as [t0 Ht0]; [lia|].
    destruct (lookup_lt_is_Some_2 (he_ts st) (S i)) as [t1 Ht1]; [lia|].
    exists t0, t1. eauto.
  - intros s t s' Hshape _ _ Hbody.
    by apply (he_shape_body T f tol gamma alpha h s s').
  - apply he_shape_init.
Qed.

Lemma HeunWithEuler_step_sizes_are_increments_witness :
  HeunWithEuler 5 (0 : Qc) (Q2Qc 0.2) (λ t y, Q2Qc 4 * t) (Q2Qc 0.3) (Q2Qc 0.1)
    (Q2Qc 0.9) (Q2Qc 1.1)
  = Some (Ok demo_result)
  ∧ ∃ t0 t1, demo_result.1.1 !! 1%nat = Some t0
             ∧ demo_result.1.1 !! 2%nat = Some t1
             ∧ demo_result.2 !! 2%nat = Some (t1 - t0).
Proof.
  split; [exact demo_run|].
  apply (HeunWithEuler_step_sizes_are_increments 5 (0 : Qc) (Q2Qc 0.2)
           (λ t y, Q2Qc 4 * t) (Q2Qc 0.3) (Q2Qc 0.1) (Q2Qc 0.9) (Q2Qc 1.1)
           (demo_result.1.1) (demo_result.1.2) (demo_result.2) 2);
    [exact demo_run|simpl; lia..].
Defined.

(** In the running example the initial guess 0.3, kept as entry 0, is the
    size of no step taken: the first proposal was rejected. *)
Lemma demo_initial_guess_not_taken :
  demo_result.2 !! 0%nat = Some (Q2Qc 0.3)
  ∧ ∀ i t0 t1, demo_result.1.1 !! i = Some t0 →
               demo_result.1.1 !! S i = Some t1 → t1 - t0 ≠ Q2Qc 0.3.
Proof.
  split; [done|]. intros i t0 t1 Hi HSi.
  do 3 (destruct i as [|i]; [simplify_eq/=; by_evaluation|]). done.
Qed.

(** C8.  When the estimate at the initial point exceeds the tolerance for
    every positive step size, [HeunWithEuler] never returns: every pass
    rejects, whatever the number of passes allowed. *)
Theorem HeunWithEuler_rejects_forever {Y : Type} `{State Y}
    (y0 : Y) T f h tol gamma alpha :
  0 < T → 0 < h → 0 < tol → 0 < gamma →
  (∀ h', 0 < h' →
     tol < he_epsilon h' (f 0 y0) (f (0 + h') (add y0 (scale h' (f 0 y0))))) →
  ∀ fuel, HeunWithEuler fuel y0 T f h tol gamma alpha = None.
Proof.
  intros HT Hh Htol Hgamma Hbad fuel.
  assert (∀ fuel h' calls, 0 < h' →
            HeunWithEuler_loop T f tol gamma alpha fuel
              (HeState [y0] [0] [h] h' calls) = None) as Hloop.
  { clear fuel. induction fuel as [|fuel IH]; intros h' calls Hh'; simpl;
      rewrite decide_True by done; [done|].
    rewrite (HeunWithEuler_body_rejected T f tol gamma alpha _ 0 y0)
      by (try done; by apply Hbad).
    simpl. apply IH. specialize (Hbad h' Hh').
    set (epsilon := he_epsilon _ _ _) in *.
    rewrite Qcmult_1_r. apply Qcmult_pos_pos; [by apply Qcmult_pos_pos|].
    apply Qcdiv_pos; [|done]. apply Qcdiv_pos; [done|].
    by apply Qclt_trans with tol. }
  unfold HeunWithEuler, HeunWithEuler_run, he_init. by rewrite Hloop.
Qed.

Lemma HeunWithEuler_rejects_forever_witness :
  (∀ h', 0 < h' →
     Q2Qc 0.25 < he_epsilon h' (/ 0) (/ (0 + h')))
  ∧ (∀ fuel, HeunWithEuler fuel (0 : Qc) 1 (λ t y : Qc, / t) 1 (Q2Qc 0.25)
               (Q2Qc 0.9) (Q2Qc 1.1) = None).
Proof.
  assert (∀ h', 0 < h' → Q2Qc 0.25 < he_epsilon h' (/ 0) (/ (0 + h')))
    as Hbad.
  { intros h' Hh'. unfold he_epsilon. simpl.
    replace (h' * ((point5 - 1) * / 0 + (point5 - 0) * / (0 + h')))
      with point5; [reflexivity|].
    rewrite point5_half. replace (/ 0) with 0 by by apply Qc_is_canon.
    field. split.
    - intros ->. by apply (Qclt_not_eq 0 0).
    - intros Hx. by apply Qc_eq_Qeq in Hx. }
  split; [exact Hbad|].
  apply (HeunWithEuler_rejects_forever (0 : Qc) 1 (λ t y : Qc, / t) 1
           (Q2Qc 0.25) (Q2Qc 0.9) (Q2Qc 1.1)); [reflexivity..|exact Hbad].
Defined.

(** ** Facts about the fixed-step loop *)

Lemma Qc_of_nat_0 : Qc_of_nat 0 = 0.
Proof. apply Z2Qc_inj_0. Qed.

Lemma Qc_of_nat_S (n : nat) : Qc_of_nat (S n) = Qc_of_nat n + 1.
Proof.
  unfold Qc_of_nat.
  by rewrite Nat2Z.inj_succ, <-Z.add_1_r, Z2Qc_inj_add, Z2Qc_inj_1.
Qed.

Lemma Qcdiv_mult_cancel (x y : Qc) : 0 < y → x / y * y = x.
Proof.
  intros Hy. unfold Qcdiv.
  rewrite <-Qcmult_assoc, (Qcmult_comm (/ y)), Qcmult_inv_r.
  - apply Qcmult_1_r.
  - intros ->. by apply (Qclt_not_eq 0 0).
Qed.

Lemma steps_needed_reaches (T h : Qc) :
  0 < h → T ≤ Qc_of_nat (steps_needed T h) * h.
Proof.
  intros Hh. rewrite <-(Qcdiv_mult_cancel T h Hh) at 1.
  apply Qcmult_le_mono_nonneg_r; [by apply Qclt_le_weak|].
  unfold steps_needed, Qc_of_nat, Qcle. generalize (T / h). intros x. simpl.
  eapply Qle_trans; [apply Qle_ceiling|].
  rewrite <-Zle_Qle. lia.
Qed.

Lemma steps_needed_before (T h : Qc) (k : nat) :
  0 < h → (k < steps_needed T h)%nat → Qc_of_nat k * h < T.
Proof.
  intros Hh Hk. rewrite <-(Qcdiv_mult_cancel T h Hh) at 1.
  apply Qcmult_lt_mono_pos_r; [done|].
  unfold steps_needed in Hk. unfold Qc_of_nat, Qclt. revert Hk.
  generalize (T / h). intros x Hk. simpl.
  eapply Qle_lt_trans; [|apply Qceiling_lt].
  rewrite <-Zle_Qle. lia.
Qed.

Lemma steps_needed_pos (T h : Qc) :
  0 < T → 0 < h → (1 ≤ steps_needed T h)%nat.
Proof.
  intros HT Hh. destruct (steps_needed T h) eqn:HN; [|lia].
  pose proof (steps_needed_reaches T h Hh) as Hle. rewrite HN in Hle.
  rewrite Qc_of_nat_0, Qcmult_0_l in Hle. by apply Qcle_not_lt in Hle.
Qed.

Lemma grid_0 (h : Qc) : grid h 0 = [0].
Proof. unfold grid. simpl. by rewrite Qc_of_nat_0, Qcmult_0_l. Qed.

Lemma grid_S (h : Qc) (n : nat) :
  grid h (S n) = grid h n ++ [Qc_of_nat (S n) * h].
Proof. unfold grid. by rewrite (seq_S (S n)), map_app. Qed.

Lemma grid_length (h : Qc) (n : nat) : length (grid h n) = S n.
Proof. unfold grid. by rewrite length_map, length_seq. Qed.

Lemma grid_lookup (h : Qc) (n i : nat) :
  (i ≤ n)%nat → grid h n !! i = Some (Qc_of_nat i * h).
Proof.
  intros Hi. unfold grid. rewrite list_lookup_fmap, lookup_seq_lt by lia.
  done.
Qed.

Lemma grid_last (h : Qc) (n : nat) : last (grid h n) = Some (Qc_of_nat n * h).
Proof. rewrite last_lookup, grid_length. by apply grid_lookup. Qed.

(** *** [for] loops *)

Lemma for_from_ext {S : Type} (start n : nat) (body body' : nat → S → exn S)
    (acc : S) :
  (∀ i x, (start ≤ i < start + n)%nat → body i x = body' i x) →
  for_from start n body acc = for_from start n body' acc.
Proof.
  revert start acc. induction n as [|n IH]; intros start acc Hext; [done|].
  simpl. rewrite Hext by lia. destruct (body' start acc); [|done]. simpl.
  apply IH. intros i x Hi. apply Hext. lia.
Qed.

Lemma for_from_inv {S : Type} (P : nat → S → Prop) (start n : nat)
    (body : nat → S → exn S) (acc : S) :
  P start acc →
  (∀ i x, (start ≤ i < start + n)%nat → P i x →
          ∃ x', body i x = Ok x' ∧ P (Datatypes.S i) x') →
  ∃ acc', for_from start n body acc = Ok acc' ∧ P (start + n)%nat acc'.
Proof.
  revert start acc. induction n as [|n IH]; intros start acc HP Hstep.
  - exists acc. by rewrite Nat.add_0_r.
  - destruct (Hstep start acc) as (x' & Hbody & HP'); [lia|done|].
    simpl. rewrite Hbody. simpl.
    destruct (IH (Datatypes.S start) x') as (acc' & Hfor & Hacc'); [done| |].
    + intros i x Hi. apply Hstep. lia.
    + exists acc'. split; [done|].
      by replace (start + Datatypes.S n)%nat with (Datatypes.S start + n)%nat
        by lia.
Qed.

Lemma sum_list_snoc (l : list Qc) (x : Qc) :
  sum_list (l ++ [x]) = sum_list l + x.
Proof.
  unfold sum_list. induction l as [|z l IH]; simpl.
  - ring.
  - rewrite IH. ring.
Qed.

(** The shapes of the docstring, an [s]-by-[s] array [a] and arrays [b] and
    [c] of length [s], can be indexed. *)
Lemma tableau_ok_square (a : list (list Qc)) (b c : list Qc) :
  length c = length b → length a = length b →
  Forall (λ row, length row = length b) a →
  tableau_ok a b c.
Proof.
  intros Hc Ha Hrows. split.
  - intros i Hi. apply lookup_lt_is_Some_2. lia.
  - intros i j Hj Hi.
    destruct (lookup_lt_is_Some_2 a i) as [row Hrow]; [lia|].
    exists row. split; [done|]. apply lookup_lt_is_Some_2.
    rewrite Forall_lookup in Hrows. rewrite (Hrows i row Hrow). lia.
Qed.

Lemma tableau_ok_Heun : tableau_ok aHeun bHeun cHeun.
Proof. apply tableau_ok_square; [done..|]. by repeat constructor. Qed.

Section FixedStepFacts.
Context {Y : Type} `{State Y}.
Variables (a : list (list Qc)) (b c : list Qc).
Variables (T : Qc) (f : Qc → Y → Y) (h : Qc).

Abbreviation rk_body := (explicitRK_body a b c f h).
Abbreviation rk_loop := (explicitRK_loop a b c T f h).

Hypothesis Hok : tableau_ok a b c.

Lemma rk_increment_Ok (i : nat) (ks : list Y) (y : Y) :
  (i < length b)%nat → (i ≤ length ks)%nat →
  ∃ dY_i, rk_increment a h i ks y = Ok dY_i.
Proof.
  intros Hi Hks. unfold rk_increment, for_range.
  edestruct (for_from_inv (λ _ (_ : Y), True) 0 i) as (dY_i & -> & _);
    [done| |by eauto].
  intros j dY_j Hj _. destruct Hok as [_ Ha].
  destruct (Ha i j) as (row & Hrow & [a_ij Ha_ij]); [lia..|].
  destruct (lookup_lt_is_Some_2 ks j) as [k_j Hk_j]; [lia|].
  unfold getitem2, getitem. rewrite Hrow. simpl. rewrite Ha_ij. simpl.
  rewrite Hk_j. simpl. eauto.
Qed.

(** After the stage loop every stage derivative is a value of [f], and [f]
    has been called once per stage. *)
Lemma rk_stages_Ok (t : Qc) (y : Y) (ks : list Y) (calls : nat) :
  length ks = length b →
  ∃ ks', for_range (rk_s b) (rk_stage a c f h t y) (ks, calls)
         = Ok (ks', (calls + length b)%nat)
         ∧ length ks' = length b
         ∧ ∀ i, (i < length b)%nat → ∃ t' y', ks' !! i = Some (f t' y').
Proof.
  intros Hks. unfold for_range, rk_s.
  edestruct (for_from_inv
               (λ i (acc : list Y * nat),
                  length acc.1 = length b ∧ acc.2 = (calls + i)%nat
                  ∧ ∀ j, (j < i)%nat → ∃ t' y', acc.1 !! j = Some (f t' y'))
               0 (length b) (rk_stage a c f h t y) (ks, calls))
    as ([ks' calls'] & Hfor & Hlen & Hcalls & Hvals).
  - simpl. split; [done|]. split; [lia|]. intros j Hj. lia.
  - intros i [ks1 calls1] Hi (Hlen1 & Hcalls1 & Hvals1). simpl in *.
    destruct Hok as [Hc _]. destruct (Hc i) as [c_i Hc_i]; [lia|].
    destruct (rk_increment_Ok i ks1 y) as [dY_i HdY_i]; [lia..|].
    unfold rk_stage, getitem, setitem. simpl. rewrite Hc_i. simpl.
    rewrite HdY_i. simpl. rewrite decide_True by lia. simpl.
    eexists. split; [done|]. simpl. rewrite length_insert.
    split; [done|]. split; [lia|]. intros j Hj.
    destruct (decide (j = i)) as [->|Hne].
    + rewrite list_lookup_insert_eq by lia. eauto.
    + rewrite list_lookup_insert_ne by done. apply Hvals1. lia.
  - simpl in *. exists ks'. rewrite Hfor. subst calls'.
    split; [done|]. split; [done|]. done.
Qed.

Lemma rk_update_Ok (ks : list Y) (y : Y) :
  length ks = length b → ∃ dy, rk_update b h ks y = Ok dy.
Proof.
  intros Hks. unfold rk_update, for_range, rk_s.
  edestruct (for_from_inv (λ _ (_ : Y), True) 0 (length b))
    as (dy & -> & _); [done| |by eauto].
  intros i dy Hi _.
  destruct (lookup_lt_is_Some_2 b i) as [b_i Hb_i]; [lia|].
  destruct (lookup_lt_is_Some_2 ks i) as [k_i Hk_i]; [lia|].
  unfold getitem. rewrite Hb_i. simpl. rewrite Hk_i. simpl. eauto.
Qed.

(** A pass of the [while] loop on an indexable tableau raises nothing. *)
Lemma explicitRK_body_Ok (st : rk_state Y) (t : Qc) (y : Y) :
  length (rk_ks st) = length b →
  last (rk_ts st) = Some t → last (rk_ys st) = Some y →
  ∃ ks' dy,
    rk_body st = Ok (RkState (rk_ys st ++ [add y dy]) (rk_ts st ++ [t + h])
                        ks' (rk_calls st + length b)%nat)
    ∧ length ks' = length b
    ∧ (∀ i, (i < length b)%nat → ∃ t' y', ks' !! i = Some (f t' y'))
    ∧ rk_update b h ks' y = Ok dy.
Proof.
  intros Hks Ht Hy.
  destruct (rk_stages_Ok t y (rk_ks st) (rk_calls st) Hks)
    as (ks' & Hstages & Hks' & Hvals).
  destruct (rk_update_Ok ks' y Hks') as [dy Hdy].
  exists ks', dy. unfold explicitRK_body, getitem_last.
  rewrite Ht, Hy. simpl. rewrite Hstages. simpl. rewrite Hdy. done.
Qed.

Section Steps.
Variable Q : nat → Y → Prop.
Hypothesis Qstep : ∀ n y ks dy,
  Q n y → length ks = length b →
  (∀ i, (i < length b)%nat → ∃ t' y', ks !! i = Some (f t' y')) →
  rk_update b h ks y = Ok dy → Q (S n) (add y dy).

Lemma rk_at_body (n : nat) (st : rk_state Y) :
  rk_at b h Q n st → ∃ st', rk_body st = Ok st' ∧ rk_at b h Q (S n) st'.
Proof.
  intros (Hks & Hts & Hys & HQ & Hcalls).
  assert (last (rk_ts st) = Some (Qc_of_nat n * h)) as Ht
    by by rewrite Hts, grid_last.
  destruct (lookup_lt_is_Some_2 (rk_ys st) n) as [y Hy]; [lia|].
  assert (last (rk_ys st) = Some y) as Hlast.
  { rewrite last_lookup, Hys. done. }
  destruct (explicitRK_body_Ok st _ y Hks Ht Hlast)
    as (ks' & dy & Hbody & Hks' & Hvals & Hdy).
  eexists. split; [exact Hbody|]. repeat split; simpl.
  - done.
  - rewrite Hts, grid_S. f_equal. f_equal. rewrite Qc_of_nat_S. ring.
  - rewrite length_app. simpl. lia.
  - intros k y' Hk. destruct (decide (k < S n)%nat) as [Hlt|Hge].
    + rewrite lookup_app_l in Hk by lia. by apply HQ.
    + assert (Hk' := lookup_lt_Some _ _ _ Hk).
      rewrite length_app in Hk'. simpl in Hk'.
      rewrite lookup_app_r in Hk by lia.
      replace (k - length (rk_ys st))%nat with 0%nat in Hk by lia.
      simpl in Hk. injection Hk as <-.
      replace k with (S n) by lia. eapply Qstep; eauto.
  - lia.
Qed.

Lemma explicitRK_loop_steps (m n : nat) (st : rk_state Y) (fuel : nat) :
  rk_at b h Q n st →
  (∀ k, (n ≤ k < n + m)%nat → Qc_of_nat k * h < T) →
  T ≤ Qc_of_nat (n + m) * h →
  (m ≤ fuel)%nat →
  ∃ st', rk_loop fuel st = Some (Ok st') ∧ rk_at b h Q (n + m) st'.
Proof.
  revert n st fuel. induction m as [|m IH]; intros n st fuel Hat Hlt Hge Hm.
  - exists st. rewrite Nat.add_0_r in *. split; [|done].
    destruct Hat as (_ & Hts & _).
    destruct fuel; simpl; unfold getitem_last; rewrite Hts, grid_last;
      by rewrite decide_False by by apply Qcle_not_lt.
  - destruct fuel as [|fuel]; [lia|].
    destruct (rk_at_body n st Hat) as (st' & Hbody & Hat').
    destruct (IH (S n) st' fuel Hat') as (st'' & Hloop & Hat'').
    + intros k Hk. apply Hlt. lia.
    + by replace (S n + m)%nat with (n + S m)%nat by lia.
    + lia.
    + exists st''. replace (n + S m)%nat with (S n + m)%nat by lia.
      split; [|done]. destruct Hat as (_ & Hts & _). simpl.
      unfold getitem_last. rewrite Hts, grid_last.
      rewrite decide_True by (apply Hlt; lia). by rewrite Hbody.
Qed.

(** The loop returns after [steps_needed T h] passes. *)
Lemma explicitRK_run_steps (y0 : Y) (fuel : nat) :
  0 < h → Q 0%nat y0 → (steps_needed T h ≤ fuel)%nat →
  ∃ st, explicitRK_run a b c T f h fuel y0 = Some (Ok st)
        ∧ rk_at b h Q (steps_needed T h) st.
Proof.
  intros Hh HQ0 Hfuel.
  apply (explicitRK_loop_steps (steps_needed T h) 0 (rk_init b y0) fuel).
  - repeat split; simpl.
    + apply length_replicate.
    + by rewrite grid_0.
    + intros [|k] y Hk; [by simplify_eq/=|done].
  - intros k Hk. apply steps_needed_before; [done|lia].
  - by apply steps_needed_reaches.
  - done.
Qed.
End Steps.

(** More fuel does not change a result. *)
Lemma explicitRK_loop_mono (fuel fuel' : nat) (st : rk_state Y) r :
  (fuel ≤ fuel')%nat → rk_loop fuel st = Some r → rk_loop fuel' st = Some r.
Proof.
  revert fuel' st. induction fuel as [|fuel IH]; intros fuel' st Hle; simpl;
    destruct (getitem_last (rk_ts st)) as [t|] eqn:Ht.
  - case_decide; [done|]. intros <-. destruct fuel'; simpl; rewrite Ht;
      by rewrite decide_False.
  - intros <-. destruct fuel'; simpl; by rewrite Ht.
  - destruct fuel' as [|fuel']; [lia|]. simpl. rewrite Ht.
    case_decide; [|done]. destruct (rk_body st); [|done]. apply IH. lia.
  - intros <-. destruct fuel'; simpl; by rewrite Ht.
Qed.
End FixedStepFacts.

(** ** The fixed-step integrator: results *)

Lemma explicitRK_Ok {Y : Type} `{State Y} fuel a b c (y0 : Y) T f h ts ys :
  explicitRK fuel a b c y0 T f h = Some (Ok (ts, ys)) →
  ∃ st, explicitRK_run a b c T f h fuel y0 = Some (Ok st)
        ∧ rk_ts st = ts ∧ rk_ys st = ys.
Proof.
  unfold explicitRK.
  destruct (explicitRK_run _ _ _ _ _ _ _ _) as [[st|]|]; [|done..].
  intros [= <- <-]. eauto.
Qed.

Lemma Qc_of_nat_lt (n m : nat) : (n < m)%nat → Qc_of_nat n < Qc_of_nat m.
Proof. intros Hnm. unfold Qc_of_nat. rewrite <-Z2Qc_inj_lt. lia. Qed.

(** The time grid in exact arithmetic.  On an indexable tableau, for
    [T > 0] and [h > 0], [explicitRK] returns the times [0, h, 2h, ..., N*h],
    where [N] is the least positive integer with [N*h >= T]: consecutive
    times differ by exactly [h], the last time is [N*h] (at or beyond [T],
    never clipped to [T]) and every earlier time is below [T]. *)
Theorem explicitRK_time_grid {Y : Type} `{State Y}
    a b c (y0 : Y) T f h :
  tableau_ok a b c → 0 < T → 0 < h →
  ∃ (N : nat) (ys : list Y),
    (1 ≤ N)%nat ∧ T ≤ Qc_of_nat N * h
    ∧ (∀ k, (1 ≤ k)%nat → T ≤ Qc_of_nat k * h → (N ≤ k)%nat)
    ∧ (∀ fuel, (N ≤ fuel)%nat →
         explicitRK fuel a b c y0 T f h = Some (Ok (grid h N, ys)))
    ∧ (∀ i t0 t1, grid h N !! i = Some t0 → grid h N !! S i = Some t1 →
         t1 - t0 = h)
    ∧ last (grid h N) = Some (Qc_of_nat N * h)
    ∧ (∀ i t, (i < N)%nat → grid h N !! i = Some t → t < T).
Proof.
  intros Hok HT Hh. set (N := steps_needed T h).
  destruct (explicitRK_run_steps a b c T f h Hok (λ _ _, True)
              (λ _ _ _ _ _ _ _ _, I) y0 N Hh I (le_n _))
    as (st & Hrun & _ & Hts & _).
  exists N, (rk_ys st). split; [by apply steps_needed_pos|].
  split; [by apply steps_needed_reaches|]. split; [|split; [|split; [|split]]].
  - intros k Hk HTk. destruct (decide (N ≤ k)%nat) as [|Hlt]; [done|].
    exfalso. apply (Qcle_not_lt _ _ HTk).
    apply steps_needed_before; [done|]. fold N. lia.
  - intros fuel Hfuel. unfold explicitRK, explicitRK_run in *.
    rewrite (explicitRK_loop_mono a b c T f h N fuel (rk_init b y0) (Ok st)
               Hfuel Hrun).
    by rewrite Hts.
  - intros i t0 t1 Hi HSi. assert (HSi' := lookup_lt_Some _ _ _ HSi).
    rewrite grid_length in HSi'.
    rewrite grid_lookup in Hi by lia. rewrite grid_lookup in HSi by lia.
    injection Hi as <-. injection HSi as <-. rewrite Qc_of_nat_S. ring.
  - apply grid_last.
  - intros i t Hi Ht. rewrite grid_lookup in Ht by lia. injection Ht as <-.
    by apply steps_needed_before.
Qed.

Lemma explicitRK_time_grid_witness :
  tableau_ok aHeun bHeun cHeun
  ∧ ∃ (N : nat) (ys : list Qc),
      (1 ≤ N)%nat ∧ 1 ≤ Qc_of_nat N * Q2Qc 0.3
      ∧ (∀ k, (1 ≤ k)%nat → 1 ≤ Qc_of_nat k * Q2Qc 0.3 → (N ≤ k)%nat)
      ∧ (∀ fuel, (N ≤ fuel)%nat →
           explicitRK fuel aHeun bHeun cHeun (0 : Qc) 1 (λ t y, y + 1)
             (Q2Qc 0.3)
           = Some (Ok (grid (Q2Qc 0.3) N, ys)))
      ∧ (∀ i t0 t1, grid (Q2Qc 0.3) N !! i = Some t0 →
           grid (Q2Qc 0.3) N !! S i = Some t1 → t1 - t0 = Q2Qc 0.3)
      ∧ last (grid (Q2Qc 0.3) N) = Some (Qc_of_nat N * Q2Qc 0.3)
      ∧ (∀ i t, (i < N)%nat → grid (Q2Qc 0.3) N !! i = Some t → t < 1).
Proof.
  pose proof tableau_ok_Heun as Hok.
  split; [exact Hok|].
  apply (explicitRK_time_grid aHeun bHeun cHeun (0 : Qc) 1 (λ t y, y + 1)
           (Q2Qc 0.3) Hok); reflexivity.
Defined.

(** The run of the witness: four steps of 0.3, the last landing on 1.2,
    beyond the horizon 1. *)
Lemma explicitRK_overshoots :
  explicitRK 4 aHeun bHeun cHeun (0 : Qc) 1 (λ t y, y + 1) (Q2Qc 0.3)
  = Some (Ok ([0; Q2Qc 0.3; Q2Qc 0.6; Q2Qc 0.9; Q2Qc 1.2],
              [0; Q2Qc 0.345; Q2Qc 0.809025; Q2Qc 1.433138625;
               Q2Qc 2.272571450625]))
  ∧ explicitRK 3 aHeun bHeun cHeun (0 : Qc) 1 (λ t y, y + 1) (Q2Qc 0.3) = None.
Proof. split; by_evaluation. Qed.

(** A tableau that cannot be indexed makes the first pass raise: here [c]
    has one entry for two stages. *)
Lemma explicitRK_short_c_raises :
  explicitRK 4 aHeun bHeun [0] (0 : Qc) 1 (λ t y, y + 1) (Q2Qc 0.3)
  = Some IndexError.
Proof. by_evaluation. Qed.

Section ConstantField.
Context {Y : Type} `{State Y} `{!StateLaws Y}.

Lemma add_zero_r (v : Y) : add v zero = v.
Proof. by rewrite add_comm, add_zero_l. Qed.

(** With every stage derivative equal to [C], the update is
    [h * (b[0] + ... + b[s-1])] times [C]. *)
Lemma rk_update_constant (b : list Qc) (h : Qc) (ks : list Y) (y C dy : Y) :
  (∀ i, (i < length b)%nat → ks !! i = Some C) →
  rk_update b h ks y = Ok dy → dy = scale (h * sum_list b) C.
Proof.
  intros Hks. unfold rk_update, for_range, rk_s.
  edestruct (for_from_inv
               (λ i (dy : Y), dy = scale (h * sum_list (take i b)) C)
               0 (length b)) as (dy' & -> & Hdy').
  - unfold zeros_like. simpl. by rewrite Qcmult_0_r, scale_zero_l.
  - intros i dy1 Hi ->.
    destruct (lookup_lt_is_Some_2 b i) as [b_i Hb_i]; [lia|].
    unfold getitem. rewrite Hb_i, Hks by lia. simpl.
    eexists. split; [done|].
    rewrite (take_S_r _ _ _ Hb_i), sum_list_snoc, <-scale_plus.
    f_equal. ring.
  - intros [= <-]. simpl in Hdy'. by rewrite firstn_all in Hdy'.
Qed.
End ConstantField.

(** C4.  On an indexable tableau whose weights [b] sum to 1, with the
    constant right-hand side [f(t,y) = C] and [h > 0], [explicitRK] returns,
    and the returned states satisfy [ys[n] = y0 + (n*h)*C] at every index [n]
    with [n*h <= T]. *)
Theorem explicitRK_constant_field {Y : Type} `{State Y} `{!StateLaws Y}
    a b c (y0 C : Y) T h :
  tableau_ok a b c → sum_list b = 1 → 0 < h →
  (∃ fuel ts ys,
     explicitRK fuel a b c y0 T (λ _ _, C) h = Some (Ok (ts, ys)))
  ∧ ∀ fuel ts ys,
      explicitRK fuel a b c y0 T (λ _ _, C) h = Some (Ok (ts, ys)) →
      ∀ n, Qc_of_nat n * h ≤ T →
           ys !! n = Some (add y0 (scale (Qc_of_nat n * h) C)).
Proof.
  intros Hok Hsum Hh. set (N := steps_needed T h).
  set (Q := λ (n : nat) (y : Y), y = add y0 (scale (Qc_of_nat n * h) C)).
  assert (∀ fuel, (N ≤ fuel)%nat →
            ∃ st, explicitRK_run a b c T (λ _ _, C) h fuel y0 = Some (Ok st)
                  ∧ rk_at b h Q N st) as Hrun.
  { intros fuel Hfuel. apply explicitRK_run_steps; [done| |done| |done].
    - intros n y ks dy Hy Hks Hvals Hdy.
      rewrite (rk_update_constant b h ks y C dy) by
        (try done; intros i Hi; by destruct (Hvals i Hi) as (? & ? & ->)).
      unfold Q in *. subst y. rewrite Hsum, <-add_assoc, <-scale_plus. do 2 f_equal.
      rewrite Qc_of_nat_S. ring.
    - unfold Q. by rewrite Qc_of_nat_0, Qcmult_0_l, scale_zero_l, add_zero_r. }
  split.
  - destruct (Hrun N (le_n _)) as (st & Hst & _).
    exists N, (rk_ts st), (rk_ys st). unfold explicitRK. by rewrite Hst.
  - intros fuel ts ys Hret n Hn.
    apply explicitRK_Ok in Hret as (st & Hst & _ & <-).
    destruct (Hrun (max fuel N)) as (st' & Hst' & _ & _ & Hlen & HQ & _);
      [lia|].
    unfold explicitRK_run in *.
    rewrite (explicitRK_loop_mono a b c T (λ _ _, C) h fuel (max fuel N)
               (rk_init b y0) (Ok st)) in Hst' by (done || lia).
    injection Hst' as <-.
    assert (n ≤ N)%nat as HnN.
    { destruct (decide (n ≤ N)%nat) as [|Hgt]; [done|]. exfalso.
      apply (Qcle_not_lt _ _ Hn).
      apply Qcle_lt_trans with (Qc_of_nat N * h).
      - by apply steps_needed_reaches.
      - apply Qcmult_lt_mono_pos_r; [done|]. apply Qc_of_nat_lt. lia. }
    destruct (lookup_lt_is_Some_2 (rk_ys st) n) as [y Hy]; [lia|].
    rewrite Hy. f_equal. by apply (HQ n y).
Qed.

Lemma explicitRK_constant_field_witness :
  tableau_ok aHeun bHeun cHeun ∧ sum_list bHeun = 1
  ∧ explicitRK 4 aHeun bHeun cHeun (Q2Qc 5 : Qc) 1 (λ _ _, Q2Qc 2) (Q2Qc 0.3)
    = Some (Ok ([0; Q2Qc 0.3; Q2Qc 0.6; Q2Qc 0.9; Q2Qc 1.2],
                [Q2Qc 5; Q2Qc 5.6; Q2Qc 6.2; Q2Qc 6.8; Q2Qc 7.4]))
  ∧ [Q2Qc 5; Q2Qc 5.6; Q2Qc 6.2; Q2Qc 6.8; Q2Qc 7.4] !! 3%nat
    = Some (Q2Qc 5 + Qc_of_nat 3 * Q2Qc 0.3 * Q2Qc 2).
Proof.
  pose proof tableau_ok_Heun as Hok.
  assert (sum_list bHeun = 1) as Hsum by by_evaluation.
  assert (explicitRK 4 aHeun bHeun cHeun (Q2Qc 5 : Qc) 1 (λ _ _, Q2Qc 2)
            (Q2Qc 0.3)
          = Some (Ok ([0; Q2Qc 0.3; Q2Qc 0.6; Q2Qc 0.9; Q2Qc 1.2],
                      [Q2Qc 5; Q2Qc 5.6; Q2Qc 6.2; Q2Qc 6.8; Q2Qc 7.4])))
    as Hrun by by_evaluation.
  split; [exact Hok|]. split; [exact Hsum|]. split; [exact Hrun|].
  destruct (explicitRK_constant_field aHeun bHeun cHeun (Q2Qc 5 : Qc)
              (Q2Qc 2) 1 (Q2Qc 0.3) Hok Hsum eq_refl) as [_ Hvals].
  apply (Hvals 4%nat _ _ Hrun 3%nat). by_evaluation.
Defined.

(** C6.  Two coefficient matrices that agree below the diagonal, on the
    rows of the stages, give the same run of [explicitRK]: the same times,
    states and number of calls of [f], or the same exception. *)
Theorem explicitRK_reads_lower_triangle {Y : Type} `{State Y}
    fuel a a' b c (y0 : Y) T f h :
  (∀ i j, (j < i)%nat → (i < length b)%nat →
          getitem2 a i j = getitem2 a' i j) →
  explicitRK fuel a b c y0 T f h = explicitRK fuel a' b c y0 T f h
  ∧ explicitRK_calls fuel a b c y0 T f h
    = explicitRK_calls fuel a' b c y0 T f h.
Proof.
  intros Hagree.
  assert (∀ st, explicitRK_body a b c f h st = explicitRK_body a' b c f h st)
    as Hbody.
  { intros st. unfold explicitRK_body.
    destruct (getitem_last (rk_ts st)) as [t|]; [|done].
    destruct (getitem_last (rk_ys st)) as [y|]; [|done]. simpl.
    unfold for_range, rk_s.
    rewrite (for_from_ext 0 (length b) (rk_stage a c f h t y)
               (rk_stage a' c f h t y)); [done|].
    intros i acc Hi. unfold rk_stage.
    destruct (getitem c i) as [c_i|]; [|done]. simpl.
    unfold rk_increment, for_range.
    rewrite (for_from_ext 0 i _
               (λ j dY_i,
                  do a_ij <- getitem2 a' i j;
                  do k_j <- getitem acc.1 j;
                  Ok (add dY_i (scale (h * a_ij) k_j)))); [done|].
    intros j dY_j Hj. rewrite Hagree by lia. done. }
  assert (∀ st, explicitRK_loop a b c T f h fuel st
                = explicitRK_loop a' b c T f h fuel st) as Hloop.
  { induction fuel as [|fuel IH]; intros st; simpl; [done|].
    destruct (getitem_last (rk_ts st)) as [t|]; [|done].
    case_decide; [|done]. rewrite Hbody.
    destruct (explicitRK_body a' b c f h st); [|done]. apply IH. }
  unfold explicitRK, explicitRK_calls, explicitRK_run. by rewrite Hloop.
Qed.

Lemma explicitRK_reads_lower_triangle_witness :
  let a' : list (list Qc) := [[Q2Qc 7; Q2Qc 8]; [1; Q2Qc 9]] in
  (∀ i j, (j < i)%nat → (i < length bHeun)%nat →
          getitem2 aHeun i j = getitem2 a' i j)
  ∧ explicitRK 4 aHeun bHeun cHeun (0 : Qc) 1 (λ t y, y + 1) (Q2Qc 0.3)
    = explicitRK 4 a' bHeun cHeun (0 : Qc) 1 (λ t y, y + 1) (Q2Qc 0.3).
Proof.
  intros a'.
  assert (∀ i j, (j < i)%nat → (i < length bHeun)%nat →
                 getitem2 aHeun i j = getitem2 a' i j) as Hagree.
  { intros [|[|i]] [|j] Hj Hi; simpl in *; (lia || done). }
  split; [exact Hagree|].
  apply (explicitRK_reads_lower_triangle 4 aHeun a' bHeun cHeun (0 : Qc) 1
           (λ t y, y + 1) (Q2Qc 0.3) Hagree).
Defined.

(** The entry below the diagonal is read: changing it changes the run. *)
Lemma explicitRK_lower_triangle_matters :
  explicitRK 4 aHeun bHeun cHeun (0 : Qc) 1 (λ t y, y + 1) (Q2Qc 0.3)
  ≠ explicitRK 4 [[0; 0]; [2; 0]] bHeun cHeun (0 : Qc) 1 (λ t y, y + 1)
      (Q2Qc 0.3).
Proof.
  match goal with
  | |- ¬ ?P => apply (bool_decide_eq_false_1 P); vm_compute; reflexivity
  end.
Qed.

(** C9.  With the horizon 0 both routines return at once, without a call of
    [f]: [explicitRK] returns the single time 0 with the single state [y0],
    and [HeunWithEuler] returns these two with the single step size [h]. *)
Theorem horizon_zero_single_sample {Y : Type} `{State Y}
    fuel a b c (y0 : Y) f h tol gamma alpha :
  explicitRK fuel a b c y0 0 f h = Some (Ok ([0]%list, [y0]))
  ∧ explicitRK_calls fuel a b c y0 0 f h = Some 0%nat
  ∧ HeunWithEuler fuel y0 0 f h tol gamma alpha
    = Some (Ok ([0]%list, [y0], [h]%list))
  ∧ HeunWithEuler_calls fuel y0 0 f h tol gamma alpha = Some 0%nat.
Proof.
  unfold explicitRK, explicitRK_calls, explicitRK_run, HeunWithEuler,
    HeunWithEuler_calls, HeunWithEuler_run.
  by destruct fuel.
Qed.

(** * Further properties of the two integrators *)

Section AdaptiveMore.
Context {Y : Type} `{State Y}.
Variables (T : Qc) (f : Qc → Y → Y) (tol gamma alpha : Qc).

Abbreviation body' := (HeunWithEuler_body T f tol gamma alpha).
Abbreviation loop' := (HeunWithEuler_loop T f tol gamma alpha).

(** The body raises nothing on non-empty lists, and keeps them non-empty. *)
Lemma HeunWithEuler_body_nonempty (st : he_state Y) :
  he_ts st ≠ [] → he_ys st ≠ [] →
  ∃ st', body' st = Ok st' ∧ he_ts st' ≠ [] ∧ he_ys st' ≠ [].
Proof.
  intros Hts Hys.
  destruct (proj2 (last_is_Some (he_ts st)) Hts) as [t Ht].
  destruct (proj2 (last_is_Some (he_ys st)) Hys) as [y Hy].
  unfold HeunWithEuler_body, getitem_last. rewrite Ht, Hy. simpl.
  repeat case_decide; eexists; (split; [done|]); simpl; split; try done.
  - intros [? _]%app_eq_nil. done.
  - intros [? _]%app_eq_nil. done.
Qed.

Lemma HeunWithEuler_loop_never_raises (fuel : nat) (st : he_state Y) :
  he_ts st ≠ [] → he_ys st ≠ [] → loop' fuel st ≠ Some IndexError.
Proof.
  revert st. induction fuel as [|fuel IH]; intros st Hts Hys; simpl;
    destruct (proj2 (last_is_Some (he_ts st)) Hts) as [t Ht];
    unfold getitem_last; rewrite Ht; case_decide; try done.
  destruct (HeunWithEuler_body_nonempty st Hts Hys) as (st' & -> & ? & ?).
  by apply IH.
Qed.

(** The passes of a returning run are counted by the least fuel, and each
    of them calls [f] twice and appends at most one entry. *)
Lemma HeunWithEuler_loop_passes (fuel : nat) (st r : he_state Y) :
  loop' fuel st = Some (Ok r) →
  ∃ n, (n ≤ fuel)%nat ∧ loop' n st = Some (Ok r)
       ∧ (∀ k, (k < n)%nat → loop' k st = None)
       ∧ he_calls r = (he_calls st + 2 * n)%nat
       ∧ (length (he_ts r) ≤ length (he_ts st) + n)%nat.
Proof.
  revert st. induction fuel as [|fuel IH]; intros st; simpl;
    destruct (getitem_last (he_ts st)) as [t|] eqn:Ht; try done;
    case_decide as HtT; try done.
  - intros [= <-]. exists 0%nat. simpl. rewrite Ht, decide_False by done.
    split; [lia|]. split; [done|]. split; [intros; lia|]. split; lia.
  - destruct (body' st) as [st'|] eqn:Hbody; [|done]. intros Hr.
    destruct (IH st' Hr) as (n & Hn & Hloop & Hnone & Hcalls & Hlen).
    exists (S n). split; [lia|]. split; [|split; [|split]].
    + simpl. by rewrite Ht, decide_True, Hbody by done.
    + intros [|k] Hk; simpl; rewrite Ht, decide_True by done; [done|].
      rewrite Hbody. apply Hnone. lia.
    + apply HeunWithEuler_body_inv in Hbody
        as (? & ? & _ & _ & [(_ & _ & ->)|[(_ & _ & ->)|(_ & ->)]]);
        simpl in *; lia.
    + apply HeunWithEuler_body_inv in Hbody
        as (? & ? & _ & _ & [(_ & _ & ->)|[(_ & _ & ->)|(_ & ->)]]);
        simpl in *; rewrite ?length_app in *; simpl in *; lia.
  - intros [= <-]. exists 0%nat. simpl. rewrite Ht, decide_False by done.
    split; [lia|]. split; [done|]. split; [intros; lia|]. split; lia.
Qed.

(** The chain of accepted Heun steps is kept by the body. *)
Lemma he_chain_body (st st' : he_state Y) :
  length (he_ys st) = length (he_ts st) →
  length (he_hs st) = length (he_ts st) →
  he_chain f tol (he_ts st) (he_ys st) (he_hs st) →
  body' st = Ok st' →
  he_chain f tol (he_ts st') (he_ys st') (he_hs st').
Proof.
  intros Hys Hhs Hchain Hbody.
  apply HeunWithEuler_body_inv in Hbody as (t & y & Ht & Hy & Hcases).
  destruct Hcases as [(_ & _ & ->)|[(Heps & _ & ->)|(_ & ->)]]; [done| |done].
  simpl. intros i t0 y0 t1 y1 h1 Hi Hyi HSi HySi HhSi.
  assert (HSi' := lookup_lt_Some _ _ _ HSi). rewrite length_app in HSi'.
  simpl in HSi'. rewrite lookup_app_l in Hi by lia.
  rewrite lookup_app_l in Hyi by lia.
  destruct (decide (S i < length (he_ts st))%nat) as [Hlt|Hge].
  - rewrite lookup_app_l in HSi by lia. rewrite lookup_app_l in HySi by lia.
    rewrite lookup_app_l in HhSi by lia. by eapply Hchain.
  - rewrite lookup_app_r in HSi by lia. rewrite lookup_app_r in HySi by lia.
    rewrite lookup_app_r in HhSi by lia.
    rewrite Hys in HySi. rewrite Hhs in HhSi.
    replace (S i - length (he_ts st))%nat with 0%nat in * by lia.
    simpl in *. injection HSi as <-. injection HySi as <-.
    injection HhSi as <-.
    rewrite last_lookup in Ht. rewrite last_lookup in Hy. rewrite Hys in Hy.
    replace (pred (length (he_ts st))) with i in * by lia.
    rewrite Ht in Hi. injection Hi as <-.
    rewrite Hy in Hyi. injection Hyi as <-.
    split; [done|]. split; [done|]. exact Heps.
Qed.
End AdaptiveMore.

(** What every returning run of the adaptive loop satisfies: the shape of
    the lists, the first state, and the chain of accepted steps. *)
Lemma HeunWithEuler_run_chain {Y : Type} `{State Y}
    fuel (y0 : Y) T f h tol gamma alpha (st : he_state Y) :
  HeunWithEuler_run T f tol gamma alpha fuel y0 h = Some (Ok st) →
  he_shape h st ∧ he_ys st !! 0%nat = Some y0
  ∧ he_chain f tol (he_ts st) (he_ys st) (he_hs st).
Proof.
  intros Hrun.
  apply (HeunWithEuler_loop_inv T f tol gamma alpha
           (λ st, he_shape h st ∧ he_ys st !! 0%nat = Some y0
                  ∧ he_chain f tol (he_ts st) (he_ys st) (he_hs st)))
    in Hrun; [by destruct Hrun| |].
  - intros s t s' (Hshape & Hy0 & Hchain) _ _ Hbody.
    split; [by apply (he_shape_body T f tol gamma alpha h s s')|]. split.
    + apply HeunWithEuler_body_inv in Hbody
        as (? & ? & _ & _ & [(_ & _ & ->)|[(_ & _ & ->)|(_ & ->)]]);
        simpl; try done. by apply lookup_app_l_Some.
    + destruct Hshape as [Hys Hhs _ _ _].
      by apply (he_chain_body T f tol gamma alpha s s').
  - split; [apply he_shape_init|]. split; [done|].
    intros i t y t' y' h' _ _ Hi. by destruct i.
Qed.

(** X1.  [HeunWithEuler] never raises: the two reads [ts[-1]] and [ys[-1]]
    always find an entry. *)
Theorem HeunWithEuler_never_raises {Y : Type} `{State Y}
    fuel (y0 : Y) T f h tol gamma alpha :
  HeunWithEuler fuel y0 T f h tol gamma alpha ≠ Some IndexError.
Proof.
  unfold HeunWithEuler, HeunWithEuler_run.
  pose proof (HeunWithEuler_loop_never_raises T f tol gamma alpha fuel
                (he_init y0 h)) as Hnever.
  destruct (HeunWithEuler_loop _ _ _ _ _ _ _) as [[st|]|]; [done| |done].
  exfalso. by apply Hnever.
Qed.

(** X2.  Whenever [HeunWithEuler] returns, the first sample is [(0, y0)]
    and every later sample is one Heun step from the sample before it:
    [ts[i+1] = ts[i] + hs[i+1]], [ys[i+1] = ys[i] + 0.5*hs[i+1]*(k1+k2)],
    with an error estimate at most [tol] for that step. *)
Theorem HeunWithEuler_accepted_steps {Y : Type} `{State Y}
    fuel (y0 : Y) T f h tol gamma alpha ts ys hs :
  HeunWithEuler fuel y0 T f h tol gamma alpha = Some (Ok (ts, ys, hs)) →
  ts !! 0%nat = Some 0 ∧ ys !! 0%nat = Some y0
  ∧ ∀ i t y t' y' h', ts !! i = Some t → ys !! i = Some y →
      ts !! S i = Some t' → ys !! S i = Some y' → hs !! S i = Some h' →
      t' = t + h'
      ∧ y' = add y (scale (point5 * h')
                      (add (f t y) (f (t + h') (add y (scale h' (f t y))))))
      ∧ he_epsilon h' (f t y) (f (t + h') (add y (scale h' (f t y)))) ≤ tol.
Proof.
  intros Hret. apply HeunWithEuler_Ok in Hret as (st & Hrun & <- & <- & <-).
  apply HeunWithEuler_run_chain in Hrun as ([_ _ Hts0 _ _] & Hy0 & Hchain).
  split; [done|]. split; [done|]. exact Hchain.
Qed.

Lemma HeunWithEuler_accepted_steps_witness :
  HeunWithEuler 5 (0 : Qc) (Q2Qc 0.2) (λ t y, Q2Qc 4 * t) (Q2Qc 0.3) (Q2Qc 0.1)
    (Q2Qc 0.9) (Q2Qc 1.1)
  = Some (Ok demo_result)
  ∧ Q2Qc 0.1575 = Q2Qc 0.075 + Q2Qc 0.0825
  ∧ he_epsilon (Q2Qc 0.0825) (Q2Qc 4 * Q2Qc 0.075)
      (Q2Qc 4 * (Q2Qc 0.075 + Q2Qc 0.0825)) ≤ Q2Qc 0.1.
Proof.
  split; [exact demo_run|].
  destruct (HeunWithEuler_accepted_steps 5 (0 : Qc) (Q2Qc 0.2)
              (λ t y, Q2Qc 4 * t) (Q2Qc 0.3) (Q2Qc 0.1) (Q2Qc 0.9) (Q2Qc 1.1)
              (demo_result.1.1) (demo_result.1.2) (demo_result.2) demo_run)
    as (_ & _ & Hchain).
  destruct (Hchain 1%nat (Q2Qc 0.075) (Q2Qc 0.01125) (Q2Qc 0.1575)
              (Q2Qc 0.0496125) (Q2Qc 0.0825) eq_refl eq_refl eq_refl eq_refl
              eq_refl) as (Ht & _ & Heps).
  split; [exact Ht|exact Heps].
Defined.

(** X3.  A returning run of [HeunWithEuler] calls [f] exactly twice in each
    pass of the loop: after [n] passes, [n] being the least fuel with which
    the run returns, it has made [2*n] calls, and it has appended at most
    [n] samples. *)
Theorem HeunWithEuler_two_calls_per_pass {Y : Type} `{State Y}
    fuel (y0 : Y) T f h tol gamma alpha ts ys hs :
  HeunWithEuler fuel y0 T f h tol gamma alpha = Some (Ok (ts, ys, hs)) →
  ∃ n, (n ≤ fuel)%nat
       ∧ HeunWithEuler n y0 T f h tol gamma alpha = Some (Ok (ts, ys, hs))
       ∧ (∀ k, (k < n)%nat → HeunWithEuler k y0 T f h tol gamma alpha = None)
       ∧ HeunWithEuler_calls fuel y0 T f h tol gamma alpha = Some (2 * n)%nat
       ∧ (length ts ≤ S n)%nat.
Proof.
  intros Hret. apply HeunWithEuler_Ok in Hret as (st & Hrun & <- & <- & <-).
  unfold HeunWithEuler, HeunWithEuler_calls, HeunWithEuler_run in *.
  destruct (HeunWithEuler_loop_passes T f tol gamma alpha fuel _ st Hrun)
    as (n & Hn & Hloop & Hnone & Hcalls & Hlen).
  exists n. rewrite Hrun, Hloop. split; [done|]. split; [done|].
  split; [|split].
  - intros k Hk. by rewrite Hnone.
  - f_equal. simpl in Hcalls. lia.
  - simpl in Hlen. lia.
Qed.

Lemma HeunWithEuler_two_calls_per_pass_witness :
  HeunWithEuler 9 (0 : Qc) (Q2Qc 0.2) (λ t y, Q2Qc 4 * t) (Q2Qc 0.3) (Q2Qc 0.1)
    (Q2Qc 0.9) (Q2Qc 1.1)
  = Some (Ok demo_result)
  ∧ ∃ n, (n ≤ 9)%nat
       ∧ HeunWithEuler n (0 : Qc) (Q2Qc 0.2) (λ t y, Q2Qc 4 * t) (Q2Qc 0.3)
           (Q2Qc 0.1) (Q2Qc 0.9) (Q2Qc 1.1) = Some (Ok demo_result)
       ∧ (∀ k, (k < n)%nat →
            HeunWithEuler k (0 : Qc) (Q2Qc 0.2) (λ t y, Q2Qc 4 * t) (Q2Qc 0.3)
              (Q2Qc 0.1) (Q2Qc 0.9) (Q2Qc 1.1) = None)
       ∧ HeunWithEuler_calls 9 (0 : Qc) (Q2Qc 0.2) (λ t y, Q2Qc 4 * t)
           (Q2Qc 0.3) (Q2Qc 0.1) (Q2Qc 0.9) (Q2Qc 1.1) = Some (2 * n)%nat
       ∧ (length (demo_result.1.1) ≤ S n)%nat.
Proof.
  assert (HeunWithEuler 9 (0 : Qc) (Q2Qc 0.2) (λ t y, Q2Qc 4 * t) (Q2Qc 0.3)
            (Q2Qc 0.1) (Q2Qc 0.9) (Q2Qc 1.1) = Some (Ok demo_result)) as Hrun
    by by_evaluation.
  split; [exact Hrun|].
  exact (HeunWithEuler_two_calls_per_pass 9 (0 : Qc) (Q2Qc 0.2)
           (λ t y, Q2Qc 4 * t) (Q2Qc 0.3) (Q2Qc 0.1) (Q2Qc 0.9) (Q2Qc 1.1)
           (demo_result.1.1) (demo_result.1.2) (demo_result.2) Hrun).
Defined.

Lemma Qcmult_pos_cancel_l (x y : Qc) : 0 < x → 0 < x * y → 0 < y.
Proof.
  intros Hx Hxy. apply Qcnot_le_lt. intros Hy.
  apply (Qclt_not_le _ _ Hxy). rewrite <-(Qcmult_0_r x).
  by apply Qcmult_le_mono_nonneg_l; [apply Qclt_le_weak|].
Qed.

Section AdaptiveControl.
Context {Y : Type} `{State Y}.
Variables (T : Qc) (f : Qc → Y → Y) (tol gamma alpha : Qc).

(** No proposal with a positive step size is rejected. *)
Hypothesis Hnever : ∀ h' t y, 0 < h' → heun_estimate f h' t y ≤ tol.

(** With a growth factor of at least 1, a loop that rejects nothing
    returns within [m + 1] passes when [m] steps of the smallest size
    [h0] cover what is left of the horizon. *)
Lemma HeunWithEuler_loop_accepting (h0 : Qc) (m : nat) (st : he_state Y)
    (t : Qc) :
  1 ≤ alpha → 0 < h0 → h0 ≤ he_h st →
  last (he_ts st) = Some t → he_ys st ≠ [] →
  T - t ≤ Qc_of_nat m * h0 →
  ∃ r, HeunWithEuler_loop T f tol gamma alpha (S m) st = Some (Ok r).
Proof.
  intros Halpha Hh0. revert st t.
  induction m as [|m IH]; intros st t Hh Ht Hys Hleft.
  - exists st. simpl. unfold getitem_last. rewrite Ht.
    rewrite decide_False; [done|]. apply Qcle_not_lt.
    rewrite Qc_of_nat_0, Qcmult_0_l in Hleft. clear -Hleft. qc_lra.
  - destruct (decide (t < T)) as [HtT|HtT]; last first.
    { exists st. simpl. unfold getitem_last. rewrite Ht.
      by rewrite decide_False. }
    destruct (proj2 (last_is_Some (he_ys st)) Hys) as [y Hy].
    assert (0 < he_h st) as Hpos by by apply Qclt_le_trans with h0.
    change (HeunWithEuler_loop T f tol gamma alpha (S (S m)) st)
      with (match getitem_last (he_ts st) with
            | IndexError => Some IndexError
            | Ok t =>
                if decide (t < T) then
                  match HeunWithEuler_body T f tol gamma alpha st with
                  | Ok st' =>
                      HeunWithEuler_loop T f tol gamma alpha (S m) st'
                  | IndexError => Some IndexError
                  end
                else Some (Ok st)
            end).
    unfold getitem_last at 1. rewrite Ht, decide_True by done.
    destruct (decide (T < t + he_h st)) as [Hclip|Hfit].
    + rewrite (HeunWithEuler_body_clipped T f tol gamma alpha st t y)
        by (try done; by apply Hnever).
      set (st1 := HeState _ _ _ _ _).
      assert (0 < T - t) as Hh1 by (clear -HtT; qc_lra).
      assert (t + (T - t) ≤ T) as Hland by (clear; qc_lra).
      simpl. unfold getitem_last. rewrite Ht, decide_True by done.
      rewrite (HeunWithEuler_body_accepted T f tol gamma alpha st1 t y)
        by (try done; by apply Hnever).
      eexists.
      destruct m; simpl; unfold getitem_last; rewrite last_snoc;
        (rewrite decide_False; [done|]); clear; qc_lra.
    + apply Qcnot_lt_le in Hfit.
      rewrite (HeunWithEuler_body_accepted T f tol gamma alpha st t y)
        by (try done; by apply Hnever).
      apply (IH _ (t + he_h st)); simpl.
      * apply Qcle_trans with (he_h st); [done|].
        rewrite <-(Qcmult_1_l (he_h st)) at 1.
        by apply Qcmult_le_mono_nonneg_r; [apply Qclt_le_weak|].
      * apply last_snoc.
      * by intros [? _]%app_eq_nil.
      * rewrite Qc_of_nat_S, Qcmult_plus_distr_l, Qcmult_1_l in Hleft.
        revert Hleft Hh. generalize (Qc_of_nat m * h0), (he_h st).
        clear. qc_lra.
Qed.

(** With a growth factor below 1 the accepted steps shrink geometrically:
    when the sum [h/(1-alpha)] of all of them does not reach the horizon,
    the loop runs for ever without rejecting anything. *)
Lemma HeunWithEuler_loop_zeno (fuel : nat) (st : he_state Y) (t : Qc) :
  0 < alpha → alpha < 1 →
  last (he_ts st) = Some t → he_ys st ≠ [] →
  0 < he_h st → he_h st ≤ (1 - alpha) * (T - t) →
  HeunWithEuler_loop T f tol gamma alpha fuel st = None.
Proof.
  intros Halpha0 Halpha1. revert st t.
  induction fuel as [|fuel IH]; intros st t Ht Hys Hh Hsum;
    assert (0 < 1 - alpha) as H1a by (clear -Halpha1; qc_lra);
    assert (0 < T - t) as Hleft
      by (apply (Qcmult_pos_cancel_l (1 - alpha)); [done|];
          by apply Qclt_le_trans with (he_h st));
    assert (t < T) as HtT by (clear -Hleft; qc_lra);
    simpl; unfold getitem_last; rewrite Ht, decide_True by done; [done|].
  destruct (proj2 (last_is_Some (he_ys st)) Hys) as [y Hy].
  assert ((1 - alpha) * (T - t) ≤ T - t) as Hshort.
  { rewrite <-(Qcmult_1_l (T - t)) at 2.
    apply Qcmult_le_mono_nonneg_r; [by apply Qclt_le_weak|].
    clear -Halpha0. qc_lra. }
  assert (t + he_h st ≤ T) as Hfit.
  { revert Hsum Hshort. generalize ((1 - alpha) * (T - t)), (he_h st).
    clear. qc_lra. }
  rewrite (HeunWithEuler_body_accepted T f tol gamma alpha st t y)
    by (try done; by apply Hnever).
  apply (IH _ (t + he_h st)); simpl.
  - apply last_snoc.
  - by intros [? _]%app_eq_nil.
  - by apply Qcmult_pos_pos.
  - replace ((1 - alpha) * (T - (t + he_h st)))
      with ((1 - alpha) * (T - t) - he_h st + alpha * he_h st) by ring.
    revert Hsum. generalize ((1 - alpha) * (T - t)), (alpha * he_h st),
      (he_h st). clear. qc_lra.
Qed.
End AdaptiveControl.

(** For a scalar state and a constant right-hand side the estimate is 0. *)
Lemma heun_estimate_constant (C h t y : Qc) :
  heun_estimate (λ _ _, C) h t y = 0.
Proof.
  unfold heun_estimate, he_epsilon. simpl.
  replace (h * ((point5 - 1) * C + (point5 - 0) * C)) with (0 : Qc).
  - by apply Qc_is_canon.
  - rewrite point5_half. qc_to_q. ring.
Qed.

(** X4.  In exact arithmetic: when no proposal is rejected (the estimate is
    within [tol] for every positive step size) and the growth factor [alpha]
    is at least 1, [HeunWithEuler] returns, after at most [ceil(T/h) + 1]
    passes.  (On doubles the clipped step can overshoot [T] again, and the
    call then never returns: X24.) *)
Theorem HeunWithEuler_returns_when_accepting {Y : Type} `{State Y}
    (y0 : Y) T f h tol gamma alpha :
  0 < h → 1 ≤ alpha →
  (∀ h' t y, 0 < h' → heun_estimate f h' t y ≤ tol) →
  ∃ r, ∀ fuel, (steps_needed T h + 1 ≤ fuel)%nat →
         HeunWithEuler fuel y0 T f h tol gamma alpha = Some (Ok r).
Proof.
  intros Hh Halpha Hnever.
  destruct (HeunWithEuler_loop_accepting T f tol gamma alpha Hnever h
              (steps_needed T h) (he_init y0 h) 0) as [st Hst];
    [done|done|apply Qcle_refl|done|done| |].
  { replace (T - 0) with T by ring. by apply steps_needed_reaches. }
  exists (he_ts st, he_ys st, he_hs st). intros fuel Hfuel.
  unfold HeunWithEuler, HeunWithEuler_run.
  by rewrite (HeunWithEuler_loop_mono T f tol gamma alpha
                (S (steps_needed T h)) fuel (he_init y0 h) (Ok st))
    by (done || lia).
Qed.

Lemma HeunWithEuler_returns_when_accepting_witness :
  (∀ h' t y : Qc, 0 < h' → heun_estimate (λ _ _, 1) h' t y ≤ Q2Qc 0.1)
  ∧ steps_needed 1 (Q2Qc 0.3) = 4%nat
  ∧ ∃ r, ∀ fuel, (steps_needed 1 (Q2Qc 0.3) + 1 ≤ fuel)%nat →
      HeunWithEuler fuel (0 : Qc) 1 (λ _ _, 1) (Q2Qc 0.3) (Q2Qc 0.1)
        (Q2Qc 0.9) (Q2Qc 1.1) = Some (Ok r).
Proof.
  assert (∀ h' t y : Qc, 0 < h' →
            heun_estimate (λ _ _, 1) h' t y ≤ Q2Qc 0.1) as Hnever.
  { intros h' t y _. by rewrite heun_estimate_constant. }
  split; [exact Hnever|]. split; [reflexivity|].
  apply (HeunWithEuler_returns_when_accepting (0 : Qc) 1 (λ _ _, 1)
           (Q2Qc 0.3) (Q2Qc 0.1) (Q2Qc 0.9) (Q2Qc 1.1));
    [reflexivity|by_evaluation|exact Hnever].
Defined.

(** X5.  In exact arithmetic: with a growth factor [0 < alpha < 1] and no
    proposal rejected, the accepted steps [h, alpha*h, alpha^2*h, ...] add up
    to less than [h/(1-alpha)]: when that is at most [T], [HeunWithEuler]
    never returns.  (On doubles such a sum can round to [T]:
    [HeunWithEuler_shrinking_steps_return].) *)
Theorem HeunWithEuler_shrinking_steps_diverge {Y : Type} `{State Y}
    (y0 : Y) T f h tol gamma alpha :
  0 < h → 0 < alpha → alpha < 1 → h ≤ (1 - alpha) * T →
  (∀ h' t y, 0 < h' → heun_estimate f h' t y ≤ tol) →
  ∀ fuel, HeunWithEuler fuel y0 T f h tol gamma alpha = None.
Proof.
  intros Hh Halpha0 Halpha1 Hsum Hnever fuel.
  unfold HeunWithEuler, HeunWithEuler_run.
  rewrite (HeunWithEuler_loop_zeno T f tol gamma alpha Hnever fuel
             (he_init y0 h) 0); try done.
  simpl. by replace (T - 0) with T by ring.
Qed.

Lemma HeunWithEuler_shrinking_steps_diverge_witness :
  (∀ h' t y : Qc, 0 < h' → heun_estimate (λ _ _, 1) h' t y ≤ Q2Qc 0.1)
  ∧ Q2Qc 0.25 ≤ (1 - Q2Qc 0.5) * 1
  ∧ (∀ fuel, HeunWithEuler fuel (0 : Qc) 1 (λ _ _, 1) (Q2Qc 0.25) (Q2Qc 0.1)
               (Q2Qc 0.9) (Q2Qc 0.5) = None).
Proof.
  assert (∀ h' t y : Qc, 0 < h' →
            heun_estimate (λ _ _, 1) h' t y ≤ Q2Qc 0.1) as Hnever.
  { intros h' t y _. by rewrite heun_estimate_constant. }
  assert (Q2Qc 0.25 ≤ (1 - Q2Qc 0.5) * 1) as Hsum by by_evaluation.
  split; [exact Hnever|]. split; [exact Hsum|].
  apply (HeunWithEuler_shrinking_steps_diverge (0 : Qc) 1 (λ _ _, 1)
           (Q2Qc 0.25) (Q2Qc 0.1) (Q2Qc 0.9) (Q2Qc 0.5));
    [reflexivity|reflexivity|reflexivity|exact Hsum|exact Hnever].
Defined.

(** X6.  In exact arithmetic: for the constant right-hand side
    [f(t,y) = C], whenever [HeunWithEuler] returns, every returned state is
    exact: [ys[i] = y0 + ts[i]*C].  (On doubles only up to rounding:
    [HeunWithEuler_constant_field_rounded].) *)
Theorem HeunWithEuler_constant_field {Y : Type} `{State Y} `{!StateLaws Y}
    fuel (y0 C : Y) T h tol gamma alpha ts ys hs :
  HeunWithEuler fuel y0 T (λ _ _, C) h tol gamma alpha
  = Some (Ok (ts, ys, hs)) →
  ∀ i t, ts !! i = Some t → ys !! i = Some (add y0 (scale t C)).
Proof.
  intros Hret. apply HeunWithEuler_Ok in Hret as (st & Hrun & <- & <- & <-).
  apply HeunWithEuler_run_chain in Hrun
    as ([Hys Hhs Hts0 _ _] & Hy0 & Hchain).
  induction i as [|i IH]; intros t Hi.
  - rewrite Hts0 in Hi. injection Hi as <-.
    by rewrite Hy0, scale_zero_l, add_zero_r.
  - assert (HSi := lookup_lt_Some _ _ _ Hi).
    destruct (lookup_lt_is_Some_2 (he_ts st) i) as [t0 Ht0]; [lia|].
    destruct (lookup_lt_is_Some_2 (he_ys st) (S i)) as [y1 Hy1]; [lia|].
    destruct (lookup_lt_is_Some_2 (he_hs st) (S i)) as [h1 Hh1]; [lia|].
    destruct (Hchain i t0 _ t y1 h1 Ht0 (IH t0 Ht0) Hi Hy1 Hh1)
      as (-> & -> & _).
    rewrite Hy1. f_equal. unfold heun_next.
    rewrite scale_add, <-scale_plus, <-add_assoc, <-scale_plus.
    do 2 f_equal. rewrite point5_half. clear. qc_to_q. ring.
Qed.

Lemma HeunWithEuler_constant_field_witness :
  HeunWithEuler 10 (Q2Qc 5 : Qc) 1 (λ _ _, Q2Qc 2) (Q2Qc 0.3) (Q2Qc 0.1)
    (Q2Qc 0.9) (Q2Qc 1.1)
  = Some (Ok ([0; Q2Qc 0.3; Q2Qc 0.63; Q2Qc 0.993; 1],
              [Q2Qc 5; Q2Qc 5.6; Q2Qc 6.26; Q2Qc 6.986; Q2Qc 7],
              [Q2Qc 0.3; Q2Qc 0.3; Q2Qc 0.33; Q2Qc 0.363; Q2Qc 0.007]))
  ∧ [Q2Qc 5; Q2Qc 5.6; Q2Qc 6.26; Q2Qc 6.986; Q2Qc 7] !! 3%nat
    = Some (Q2Qc 5 + Q2Qc 0.993 * Q2Qc 2).
Proof.
  assert (HeunWithEuler 10 (Q2Qc 5 : Qc) 1 (λ _ _, Q2Qc 2) (Q2Qc 0.3)
            (Q2Qc 0.1) (Q2Qc 0.9) (Q2Qc 1.1)
          = Some (Ok ([0; Q2Qc 0.3; Q2Qc 0.63; Q2Qc 0.993; 1],
                      [Q2Qc 5; Q2Qc 5.6; Q2Qc 6.26; Q2Qc 6.986; Q2Qc 7],
                      [Q2Qc 0.3; Q2Qc 0.3; Q2Qc 0.33; Q2Qc 0.363;
                       Q2Qc 0.007]))) as Hrun by by_evaluation.
  split; [exact Hrun|].
  exact (HeunWithEuler_constant_field 10 (Q2Qc 5 : Qc) (Q2Qc 2) 1 (Q2Qc 0.3)
           (Q2Qc 0.1) (Q2Qc 0.9) (Q2Qc 1.1) _ _ _ Hrun 3%nat (Q2Qc 0.993)
           eq_refl).
Defined.

(** A [for] loop that ended without an exception ran its body, without an
    exception, at every index. *)
Lemma for_from_Ok_each {S : Type} (start n : nat) (body : nat → S → exn S)
    (acc acc' : S) :
  for_from start n body acc = Ok acc' →
  ∀ i, (start ≤ i < start + n)%nat → ∃ x x', body i x = Ok x'.
Proof.
  revert start acc. induction n as [|n IH]; intros start acc Hfor i Hi;
    [lia|].
  simpl in Hfor. destruct (body start acc) as [x'|] eqn:Hbody; [|done].
  simpl in Hfor. destruct (decide (i = start)) as [->|Hne]; [by eauto|].
  apply (IH _ _ Hfor). lia.
Qed.

Section FixedStepMore.
Context {Y : Type} `{State Y}.
Variables (a : list (list Qc)) (b c : list Qc).
Variables (T : Qc) (f : Qc → Y → Y) (h : Qc).

Abbreviation rk_body' := (explicitRK_body a b c f h).
Abbreviation rk_loop' := (explicitRK_loop a b c T f h).

(** Loop invariants of the fixed-step loop. *)
Lemma explicitRK_loop_inv (P : rk_state Y → Prop) :
  (∀ st st', P st → rk_body' st = Ok st' → P st') →
  ∀ fuel st r, P st → rk_loop' fuel st = Some (Ok r) → P r.
Proof.
  intros Hstep fuel. induction fuel as [|fuel IH]; intros st r HP; simpl;
    destruct (getitem_last (rk_ts st)) as [t|]; try done;
    case_decide; try done.
  - by intros [= <-].
  - destruct (rk_body' st) as [st'|] eqn:Hbody; [|done].
    intros Hr. eapply IH; [|done]. eauto.
  - by intros [= <-].
Qed.

(** A pass that raises nothing found every entry it indexed. *)
Lemma explicitRK_body_Ok_tableau (st st' : rk_state Y) :
  rk_body' st = Ok st' → tableau_ok a b c.
Proof.
  unfold explicitRK_body.
  destruct (getitem_last (rk_ts st)) as [t|]; [|done].
  destruct (getitem_last (rk_ys st)) as [y|]; [|done]. simpl.
  destruct (for_range (rk_s b) _ _) as [acc|] eqn:Hstages; [|done].
  intros _. unfold for_range, rk_s in Hstages.
  pose proof (for_from_Ok_each _ _ _ _ _ Hstages) as Heach.
  assert (∀ i, (i < length b)%nat →
            is_Some (c !! i)
            ∧ ∀ j, (j < i)%nat → ∃ row, a !! i = Some row ∧ is_Some (row !! j))
    as Hall.
  { intros i Hi. destruct (Heach i) as (x & x' & Hstage); [lia|].
    unfold rk_stage, getitem in Hstage.
    destruct (c !! i) as [c_i|]; [|done]. simpl in Hstage.
    split; [by eexists|].
    destruct (rk_increment a h i x.1 y) as [dY_i|] eqn:Hincr; [|done].
    intros j Hj. unfold rk_increment, for_range in Hincr.
    destruct (for_from_Ok_each _ _ _ _ _ Hincr j) as (u & u' & Hread); [lia|].
    unfold getitem2, getitem in Hread.
    destruct (a !! i) as [row|]; [|done]. simpl in Hread.
    destruct (row !! j) as [a_ij|] eqn:Hrow; [|done].
    exists row. split; [done|]. rewrite Hrow. by eexists. }
  split.
  - intros i Hi. by apply Hall.
  - intros i j Hj Hi. by apply Hall.
Qed.

Lemma explicitRK_loop_short (Q : nat → Y → Prop) (m n fuel : nat)
    (st : rk_state Y) :
  tableau_ok a b c →
  (∀ n y ks dy, Q n y → length ks = length b →
     (∀ i, (i < length b)%nat → ∃ t' y', ks !! i = Some (f t' y')) →
     rk_update b h ks y = Ok dy → Q (S n) (add y dy)) →
  rk_at b h Q n st →
  (∀ k, (n ≤ k < n + m)%nat → Qc_of_nat k * h < T) →
  (fuel < m)%nat → rk_loop' fuel st = None.
Proof.
  intros Hok Qstep. revert m n st.
  induction fuel as [|fuel IH]; intros m n st Hat Hlt Hm;
    pose proof Hat as (_ & Hts & _); simpl; unfold getitem_last;
    rewrite Hts, grid_last, decide_True by (apply Hlt; lia); [done|].
  destruct (rk_at_body a b c f h Hok Q Qstep n st Hat) as (st' & -> & Hat').
  apply (IH (pred m) (S n)); [done| |lia].
  intros k Hk. apply Hlt. lia.
Qed.

(** With a step size that is not positive the times never advance. *)
Lemma explicitRK_loop_stuck (fuel : nat) (st : rk_state Y) (t : Qc) :
  tableau_ok a b c → 0 < T → h ≤ 0 →
  length (rk_ks st) = length b →
  last (rk_ts st) = Some t → t ≤ 0 → rk_ys st ≠ [] →
  rk_loop' fuel st = None.
Proof.
  intros Hok HT Hh. revert st t.
  induction fuel as [|fuel IH]; intros st t Hks Ht Hle Hys;
    assert (t < T) as HtT by (by apply Qcle_lt_trans with 0);
    simpl; unfold getitem_last; rewrite Ht, decide_True by done; [done|].
  destruct (proj2 (last_is_Some (rk_ys st)) Hys) as [y Hy].
  destruct (explicitRK_body_Ok a b c f h Hok st t y Hks Ht Hy)
    as (ks' & dy & -> & Hks' & _).
  apply (IH _ (t + h)); simpl; [done|apply last_snoc| |].
  - clear -Hle Hh. qc_lra.
  - by intros [? _]%app_eq_nil.
Qed.

(** On an indexable tableau the loop raises nothing. *)
Lemma explicitRK_loop_never_raises (fuel : nat) (st : rk_state Y) :
  tableau_ok a b c →
  length (rk_ks st) = length b → rk_ts st ≠ [] → rk_ys st ≠ [] →
  rk_loop' fuel st ≠ Some IndexError.
Proof.
  intros Hok. revert st.
  induction fuel as [|fuel IH]; intros st Hks Hts Hys;
    destruct (proj2 (last_is_Some (rk_ts st)) Hts) as [t Ht];
    simpl; unfold getitem_last; rewrite Ht; case_decide; try done.
  destruct (proj2 (last_is_Some (rk_ys st)) Hys) as [y Hy].
  destruct (explicitRK_body_Ok a b c f h Hok st t y Hks Ht Hy)
    as (ks' & dy & -> & Hks' & _).
  apply IH; simpl; [done|by intros [? _]%app_eq_nil..].
Qed.
End FixedStepMore.

(** The number of passes in exact arithmetic.  On an indexable tableau and
    for [h > 0], [explicitRK] makes exactly [N = max(0, ceil(T/h))] passes:
    it returns [N+1] times and [N+1] states, the first sample being
    [(0, y0)], after exactly [N * len(b)] calls of [f], and it is still
    running after fewer than [N] passes. *)
Theorem explicitRK_samples_and_calls {Y : Type} `{State Y}
    a b c (y0 : Y) T f h :
  tableau_ok a b c → 0 < h →
  let N := steps_needed T h in
  (∀ fuel, (fuel < N)%nat → explicitRK fuel a b c y0 T f h = None)
  ∧ ∀ fuel, (N ≤ fuel)%nat →
      ∃ ts ys, explicitRK fuel a b c y0 T f h = Some (Ok (ts, ys))
               ∧ length ts = S N ∧ length ys = S N
               ∧ ts !! 0%nat = Some 0 ∧ ys !! 0%nat = Some y0
               ∧ explicitRK_calls fuel a b c y0 T f h
                 = Some (N * length b)%nat.
Proof.
  intros Hok Hh N.
  set (Q := λ (n : nat) (y : Y), n = 0%nat → y = y0).
  assert (∀ n y ks dy, Q n y → length ks = length b →
            (∀ i, (i < length b)%nat → ∃ t' y', ks !! i = Some (f t' y')) →
            rk_update b h ks y = Ok dy → Q (S n) (add y dy)) as Qstep
    by (by intros n y ks dy _ _ _ _ ?).
  assert (rk_at b h Q 0 (rk_init b y0)) as Hinit.
  { repeat split; simpl.
    - apply length_replicate.
    - by rewrite grid_0.
    - intros [|k] y Hk; [by simplify_eq/=|done]. }
  split.
  - intros fuel Hfuel. unfold explicitRK, explicitRK_run.
    rewrite (explicitRK_loop_short a b c T f h Q N 0 fuel _ Hok Qstep Hinit);
      [done| |done].
    intros k Hk. apply steps_needed_before; [done|]. fold N. lia.
  - intros fuel Hfuel.
    destruct (explicitRK_run_steps a b c T f h Hok Q Qstep y0 fuel Hh)
      as (st & Hrun & _ & Hts & Hys & HQ & Hcalls); [done..|].
    exists (rk_ts st), (rk_ys st). unfold explicitRK, explicitRK_calls.
    rewrite Hrun. split; [done|]. fold N in Hts, Hys, Hcalls.
    split; [by rewrite Hts, grid_length|]. split; [done|].
    split; [rewrite Hts, grid_lookup by lia;
            by rewrite Qc_of_nat_0, Qcmult_0_l|].
    split; [|by rewrite Hcalls].
    destruct (lookup_lt_is_Some_2 (rk_ys st) 0) as [y Hy]; [lia|].
    rewrite Hy. f_equal. by apply (HQ 0%nat y).
Qed.

Lemma explicitRK_samples_and_calls_witness :
  tableau_ok aHeun bHeun cHeun ∧ steps_needed 1 (Q2Qc 0.3) = 4%nat
  ∧ explicitRK 3 aHeun bHeun cHeun (0 : Qc) 1 (λ t y, y + 1) (Q2Qc 0.3) = None
  ∧ ∃ ts ys,
      explicitRK 4 aHeun bHeun cHeun (0 : Qc) 1 (λ t y, y + 1) (Q2Qc 0.3)
      = Some (Ok (ts, ys))
      ∧ length ts = 5%nat ∧ length ys = 5%nat
      ∧ ts !! 0%nat = Some 0 ∧ ys !! 0%nat = Some 0
      ∧ explicitRK_calls 4 aHeun bHeun cHeun (0 : Qc) 1 (λ t y, y + 1)
          (Q2Qc 0.3) = Some 8%nat.
Proof.
  split; [exact tableau_ok_Heun|]. split; [reflexivity|].
  destruct (explicitRK_samples_and_calls aHeun bHeun cHeun (0 : Qc) 1
              (λ t y, y + 1) (Q2Qc 0.3) tableau_ok_Heun eq_refl)
    as [Hshort Hlong].
  split; [apply Hshort; vm_compute; lia|].
  apply (Hlong 4%nat). vm_compute. lia.
Defined.

(** X8.  On an indexable tableau, with [T > 0] and a step size [h <= 0],
    [explicitRK] never returns: the times do not advance. *)
Theorem explicitRK_nonpositive_step_diverges {Y : Type} `{State Y}
    a b c (y0 : Y) T f h :
  tableau_ok a b c → 0 < T → h ≤ 0 →
  ∀ fuel, explicitRK fuel a b c y0 T f h = None.
Proof.
  intros Hok HT Hh fuel. unfold explicitRK, explicitRK_run.
  rewrite (explicitRK_loop_stuck a b c T f h fuel (rk_init b y0) 0);
    try done.
  apply length_replicate.
Qed.

Lemma explicitRK_nonpositive_step_diverges_witness :
  tableau_ok aHeun bHeun cHeun
  ∧ (∀ fuel, explicitRK fuel aHeun bHeun cHeun (0 : Qc) 1 (λ t y, y + 1) 0
             = None).
Proof.
  split; [exact tableau_ok_Heun|].
  apply (explicitRK_nonpositive_step_diverges aHeun bHeun cHeun (0 : Qc) 1
           (λ t y, y + 1) 0 tableau_ok_Heun); [reflexivity|by_evaluation].
Defined.

(** X9.  For [T > 0], [explicitRK] raises [IndexError], in its first pass,
    exactly when the tableau cannot be indexed: when some [c[i]] with
    [i < len(b)] or some [a[i,j]] with [j < i < len(b)] does not exist. *)
Theorem explicitRK_raises_iff {Y : Type} `{State Y}
    fuel a b c (y0 : Y) T f h :
  0 < T → (1 ≤ fuel)%nat →
  explicitRK fuel a b c y0 T f h = Some IndexError ↔ ¬ tableau_ok a b c.
Proof.
  intros HT Hfuel. split.
  - intros Hraise Hok. revert Hraise. unfold explicitRK, explicitRK_run.
    pose proof (explicitRK_loop_never_raises a b c T f h fuel (rk_init b y0)
                  Hok) as Hnever.
    destruct (explicitRK_loop _ _ _ _ _ _ _ _) as [[st|]|]; [done| |done].
    intros _. apply Hnever; [apply length_replicate|done..].
  - intros Hnot. unfold explicitRK, explicitRK_run.
    destruct fuel as [|fuel]; [lia|]. simpl. rewrite decide_True by done.
    destruct (explicitRK_body a b c f h (rk_init b y0)) as [st'|] eqn:Hbody;
      [|done].
    exfalso. apply Hnot. by eapply explicitRK_body_Ok_tableau.
Qed.

Lemma explicitRK_raises_iff_witness :
  ¬ tableau_ok aHeun bHeun [0]
  ∧ explicitRK 4 aHeun bHeun [0] (0 : Qc) 1 (λ t y, y + 1) (Q2Qc 0.3)
    = Some IndexError.
Proof.
  assert (¬ tableau_ok aHeun bHeun [0]) as Hnot.
  { intros [Hc _]. destruct (Hc 1%nat) as [? ?]; [simpl; lia|done]. }
  split; [exact Hnot|].
  apply (explicitRK_raises_iff 4 aHeun bHeun [0] (0 : Qc) 1 (λ t y, y + 1)
           (Q2Qc 0.3)); [reflexivity|lia|exact Hnot].
Defined.

Lemma Qc_of_nat_le (n m : nat) : (n ≤ m)%nat → Qc_of_nat n ≤ Qc_of_nat m.
Proof. intros Hnm. unfold Qc_of_nat. rewrite <-Z2Qc_inj_le. lia. Qed.

Section HeunTableau.
Context {Y : Type} `{State Y} `{!StateLaws Y}.
Variables (f : Qc → Y → Y) (h : Qc).

Local Opaque Qcplus Qcmult Qcminus.

(** One pass of [explicitRK] with Heun's tableau is one Heun step. *)
Lemma explicitRK_body_Heun (st : rk_state Y) (t : Qc) (y : Y) :
  length (rk_ks st) = 2%nat →
  last (rk_ts st) = Some t → last (rk_ys st) = Some y →
  explicitRK_body aHeun bHeun cHeun f h st
  = Ok (RkState (rk_ys st ++ [heun_next f h t y]) (rk_ts st ++ [t + h])
          [f t y; f (t + h) (add y (scale h (f t y)))]
          (S (S (rk_calls st)))).
Proof.
  intros Hks Ht Hy. destruct st as [ys ts ks calls]. simpl in *.
  destruct ks as [|u [|v [|w ks]]]; try done.
  unfold explicitRK_body, getitem_last. simpl. rewrite Ht, Hy. simpl.
  unfold zeros_like, heun_next.
  rewrite Qcmult_0_l, Qcplus_0_r, Qcmult_1_l, Qcmult_1_r.
  rewrite !add_zero_r, !add_zero_l, scale_add, (Qcmult_comm h). done.
Qed.

Local Transparent Qcplus Qcmult Qcminus.

(** With [alpha = 1], a horizon [N*h] and no rejection at step size [h],
    the two loops advance in step. *)
Lemma Heun_loops_agree (tol gamma : Qc) (N m n fuel : nat)
    (rk : rk_state Y) (he : he_state Y) :
  0 < h → (∀ t y, heun_estimate f h t y ≤ tol) →
  (n + m = N)%nat → (m ≤ fuel)%nat →
  rk_ts rk = grid h n → he_ts he = grid h n → rk_ys rk = he_ys he →
  length (he_ys he) = S n → length (rk_ks rk) = 2%nat →
  he_h he = h → he_hs he = replicate (S n) h →
  ∃ rk' he',
    explicitRK_loop aHeun bHeun cHeun (Qc_of_nat N * h) f h fuel rk
    = Some (Ok rk')
    ∧ HeunWithEuler_loop (Qc_of_nat N * h) f tol gamma 1 fuel he
      = Some (Ok he')
    ∧ rk_ts rk' = he_ts he' ∧ rk_ys rk' = he_ys he'
    ∧ he_hs he' = replicate (S N) h.
Proof.
  intros Hh Hnever. revert n fuel rk he.
  induction m as [|m IH];
    intros n fuel rk he HN Hfuel Hrts Hhts Hys Hlen Hks Hhh Hhs.
  - replace n with N in * by lia. exists rk, he.
    destruct fuel; simpl; unfold getitem_last;
      rewrite Hrts, Hhts, grid_last;
      rewrite !decide_False by apply Qcle_not_lt, Qcle_refl;
      (repeat split; [congruence|done..]).
  - destruct fuel as [|fuel]; [lia|].
    assert (Qc_of_nat n * h < Qc_of_nat N * h) as HtT.
    { apply Qcmult_lt_mono_pos_r; [done|]. apply Qc_of_nat_lt. lia. }
    assert (Qc_of_nat n * h + h ≤ Qc_of_nat N * h) as Hfit.
    { replace (Qc_of_nat n * h + h) with (Qc_of_nat (S n) * h)
        by (rewrite Qc_of_nat_S; ring).
      apply Qcmult_le_mono_nonneg_r; [by apply Qclt_le_weak|].
      apply Qc_of_nat_le. lia. }
    destruct (lookup_lt_is_Some_2 (he_ys he) n) as [y Hy]; [lia|].
    assert (last (he_ys he) = Some y) as Hlast
      by (by rewrite last_lookup, Hlen).
    simpl. unfold getitem_last. rewrite Hrts, Hhts, grid_last.
    rewrite !decide_True by done.
    rewrite (explicitRK_body_Heun rk (Qc_of_nat n * h) y)
      by (rewrite ?Hrts, ?Hys, ?grid_last; done).
    rewrite (HeunWithEuler_body_accepted _ f tol gamma 1 he
               (Qc_of_nat n * h) y)
      by (rewrite ?Hhts, ?Hhh, ?grid_last; try done; apply Hnever).
    apply (IH (S n)); simpl; [lia|lia|..].
    + rewrite Hrts, grid_S, Qc_of_nat_S. do 2 f_equal. ring.
    + rewrite Hhts, Hhh, grid_S, Qc_of_nat_S. do 2 f_equal. ring.
    + rewrite Hys, Hhh. done.
    + rewrite length_app. simpl. lia.
    + done.
    + rewrite Hhh. apply Qcmult_1_l.
    + rewrite Hhs, Hhh. by rewrite <-replicate_S_end.
Qed.
End HeunTableau.

(** X10.  In exact arithmetic: with Heun's tableau, whenever [explicitRK]
    returns, every state after the first is one Heun step from the state
    before it: [ys[i+1] = ys[i] + 0.5*h*(k1 + k2)] with
    [k1 = f(ts[i], ys[i])] and [k2 = f(ts[i]+h, ys[i]+h*k1)], the step that
    [HeunWithEuler] appends.  (On doubles the two sums round differently:
    [Heun_fixed_and_adaptive_rounded].) *)
Theorem explicitRK_Heun_steps {Y : Type} `{State Y} `{!StateLaws Y}
    fuel (y0 : Y) T f h ts ys :
  explicitRK fuel aHeun bHeun cHeun y0 T f h = Some (Ok (ts, ys)) →
  length ys = length ts
  ∧ ∀ i t y y', ts !! i = Some t → ys !! i = Some y → ys !! S i = Some y' →
      y' = add y (scale (point5 * h)
                    (add (f t y) (f (t + h) (add y (scale h (f t y)))))).
Proof.
  intros Hret. apply explicitRK_Ok in Hret as (st & Hrun & <- & <-).
  apply (explicitRK_loop_inv aHeun bHeun cHeun T f h
           (λ st, length (rk_ks st) = 2%nat
                  ∧ length (rk_ys st) = length (rk_ts st)
                  ∧ rk_ts st ≠ []
                  ∧ ∀ i t y y', rk_ts st !! i = Some t →
                      rk_ys st !! i = Some y → rk_ys st !! S i = Some y' →
                      y' = heun_next f h t y)) in Hrun.
  - by destruct Hrun as (_ & Hlen & _ & Hsteps).
  - intros s s' (Hks & Hlen & Hne & Hsteps) Hbody.
    destruct (proj2 (last_is_Some (rk_ts s)) Hne) as [t Ht].
    destruct (lookup_lt_is_Some_2 (rk_ys s) (pred (length (rk_ys s))))
      as [y Hy].
    { destruct (rk_ts s); [done|]. simpl in Hlen. lia. }
    rewrite <-last_lookup in Hy.
    rewrite (explicitRK_body_Heun f h s t y Hks Ht Hy) in Hbody.
    injection Hbody as <-. simpl.
    split; [done|]. split; [rewrite !length_app; simpl; lia|].
    split; [by intros [? _]%app_eq_nil|].
    intros i t0 y0' y1 Hi Hyi HySi.
    assert (HSi := lookup_lt_Some _ _ _ HySi). rewrite length_app in HSi.
    simpl in HSi. rewrite lookup_app_l in Hi by lia.
    rewrite lookup_app_l in Hyi by lia.
    destruct (decide (S i < length (rk_ys s))%nat) as [Hlt|Hge].
    + rewrite lookup_app_l in HySi by lia. by eapply Hsteps.
    + rewrite lookup_app_r in HySi by lia.
      replace (S i - length (rk_ys s))%nat with 0%nat in HySi by lia.
      simpl in HySi. injection HySi as <-.
      rewrite last_lookup in Ht. rewrite last_lookup in Hy.
      replace (pred (length (rk_ts s))) with i in Ht by lia.
      replace (pred (length (rk_ys s))) with i in Hy by lia.
      rewrite Ht in Hi. injection Hi as <-.
      rewrite Hy in Hyi. by injection Hyi as <-.
  - split; [done|]. split; [done|]. split; [done|].
    intros i t y y' _ _ Hi. by destruct i.
Qed.

Lemma explicitRK_Heun_steps_witness :
  explicitRK 4 aHeun bHeun cHeun (0 : Qc) 1 (λ t y, y + 1) (Q2Qc 0.3)
  = Some (Ok ([0; Q2Qc 0.3; Q2Qc 0.6; Q2Qc 0.9; Q2Qc 1.2],
              [0; Q2Qc 0.345; Q2Qc 0.809025; Q2Qc 1.433138625;
               Q2Qc 2.272571450625]))
  ∧ Q2Qc 0.809025
    = Q2Qc 0.345
      + point5 * Q2Qc 0.3
        * (Q2Qc 0.345 + 1 + (Q2Qc 0.345 + Q2Qc 0.3 * (Q2Qc 0.345 + 1) + 1)).
Proof.
  assert (explicitRK 4 aHeun bHeun cHeun (0 : Qc) 1 (λ t y, y + 1) (Q2Qc 0.3)
          = Some (Ok ([0; Q2Qc 0.3; Q2Qc 0.6; Q2Qc 0.9; Q2Qc 1.2],
                      [0; Q2Qc 0.345; Q2Qc 0.809025; Q2Qc 1.433138625;
                       Q2Qc 2.272571450625]))) as Hrun by by_evaluation.
  split; [exact Hrun|].
  destruct (explicitRK_Heun_steps 4 (0 : Qc) 1 (λ t y, y + 1) (Q2Qc 0.3)
              _ _ Hrun) as [_ Hsteps].
  exact (Hsteps 1%nat (Q2Qc 0.3) (Q2Qc 0.345) (Q2Qc 0.809025) eq_refl eq_refl
           eq_refl).
Defined.

(** X11.  In exact arithmetic: with the growth factor [alpha = 1], a
    horizon [T = N*h] that the step size divides, and estimates within [tol]
    at step size [h], [HeunWithEuler] accepts every proposal and returns the
    times and states that [explicitRK] returns with Heun's tableau, with
    every recorded step size equal to [h].  (Not so on doubles:
    [Heun_fixed_and_adaptive_rounded].) *)
Theorem Heun_fixed_and_adaptive_agree {Y : Type} `{State Y} `{!StateLaws Y}
    (y0 : Y) f h tol gamma (N : nat) :
  0 < h → (∀ t y, heun_estimate f h t y ≤ tol) →
  ∃ ts ys, ∀ fuel, (N ≤ fuel)%nat →
    explicitRK fuel aHeun bHeun cHeun y0 (Qc_of_nat N * h) f h
    = Some (Ok (ts, ys))
    ∧ HeunWithEuler fuel y0 (Qc_of_nat N * h) f h tol gamma 1
      = Some (Ok (ts, ys, replicate (S N) h)).
Proof.
  intros Hh Hnever.
  destruct (Heun_loops_agree f h tol gamma N N 0 N (rk_init bHeun y0)
              (he_init y0 h) Hh Hnever)
    as (rk' & he' & Hrk & Hhe & Hts & Hys & Hhs);
    [lia|lia|by rewrite grid_0..|done|done|done|done|done|].
  exists (rk_ts rk'), (rk_ys rk'). intros fuel Hfuel.
  unfold explicitRK, explicitRK_run, HeunWithEuler, HeunWithEuler_run.
  rewrite (explicitRK_loop_mono aHeun bHeun cHeun _ f h N fuel _ _ Hfuel Hrk).
  rewrite (HeunWithEuler_loop_mono _ f tol gamma 1 N fuel _ _ Hfuel Hhe).
  by rewrite Hts, Hys, Hhs.
Qed.

Lemma Heun_fixed_and_adaptive_agree_witness :
  (∀ t y : Qc, heun_estimate (λ t y, Q2Qc 4 * t) (Q2Qc 0.05) t y ≤ Q2Qc 0.1)
  ∧ Qc_of_nat 4 * Q2Qc 0.05 = Q2Qc 0.2
  ∧ ∃ ts ys, ∀ fuel, (4 ≤ fuel)%nat →
      explicitRK fuel aHeun bHeun cHeun (0 : Qc) (Qc_of_nat 4 * Q2Qc 0.05)
        (λ t y, Q2Qc 4 * t) (Q2Qc 0.05)
      = Some (Ok (ts, ys))
      ∧ HeunWithEuler fuel (0 : Qc) (Qc_of_nat 4 * Q2Qc 0.05)
          (λ t y, Q2Qc 4 * t) (Q2Qc 0.05) (Q2Qc 0.1) (Q2Qc 0.9) 1
        = Some (Ok (ts, ys, replicate 5 (Q2Qc 0.05))).
Proof.
  assert (∀ t y : Qc,
            heun_estimate (λ t y, Q2Qc 4 * t) (Q2Qc 0.05) t y ≤ Q2Qc 0.1)
    as Hnever.
  { intros t y. unfold heun_estimate, he_epsilon. simpl.
    replace (Q2Qc 0.05 * ((point5 - 1) * (Q2Qc 4 * t)
               + (point5 - 0) * (Q2Qc 4 * (t + Q2Qc 0.05))))
      with (Q2Qc 0.005); [by_evaluation|].
    rewrite point5_half. clear. qc_to_q. ring. }
  split; [exact Hnever|]. split; [by_evaluation|].
  apply (Heun_fixed_and_adaptive_agree (0 : Qc) (λ t y, Q2Qc 4 * t)
           (Q2Qc 0.05) (Q2Qc 0.1) (Q2Qc 0.9) 4); [reflexivity|exact Hnever].
Defined.

(** * The root finders of notebook 04 *)


(** The midpoint halves the interval. *)
Lemma midpoint_left (lo hi : Qc) : (point5 * (lo + hi) - lo) * 2 = hi - lo.
Proof. rewrite point5_half. qc_to_q. ring. Qed.

Lemma midpoint_right (lo hi : Qc) : (hi - point5 * (lo + hi)) * 2 = hi - lo.
Proof. rewrite point5_half. qc_to_q. ring. Qed.

Lemma midpoint_between (lo hi : Qc) :
  lo ≤ hi → lo ≤ point5 * (lo + hi) ∧ point5 * (lo + hi) ≤ hi.
Proof. intros Hle. rewrite point5_half. split; qc_lra. Qed.

Section Bisection.
Variables (f : Qc → Qc) (tol fa : Qc).

(** A loop that makes a pass leaves [c] and [k] assigned. *)
Lemma bisection_for_S (n k : nat) (a b : Qc) :
  bisection_for f tol fa (S n) k a b ≠ None.
Proof.
  simpl. repeat case_decide; try done;
    by destruct (bisection_for f tol fa n (S k) _ _).
Qed.

(** What the loop of [bisection] returns, for an invariant [P] of the
    interval that the two updates [b = c] and [a = c] keep. *)
Lemma bisection_for_spec (P : Qc → Qc → Prop) :
  (∀ lo hi, P lo hi →
     ¬ Qcabs.Qcabs (f (point5 * (lo + hi))) < Q2Qc 1e-14 →
     ¬ hi - lo < 2 * tol →
     (fa * f (point5 * (lo + hi)) < 0 → P lo (point5 * (lo + hi)))
     ∧ (¬ fa * f (point5 * (lo + hi)) < 0 → P (point5 * (lo + hi)) hi)) →
  ∀ n k lo hi c k', P lo hi →
    bisection_for f tol fa n k lo hi = Some (c, k') →
    ∃ lo' hi', P lo' hi' ∧ c = point5 * (lo' + hi')
      ∧ (hi' - lo') * 2 ^ (k' - k) = hi - lo
      ∧ (k ≤ k' < k + n)%nat
      ∧ (Qcabs.Qcabs (f c) < Q2Qc 1e-14 ∨ hi' - lo' < 2 * tol
         ∨ k' = (k + n - 1)%nat)
      ∧ ((k < k')%nat → tol ≤ hi' - lo').
Proof.
  intros Hkeep. induction n as [|n IH]; intros k lo hi c k' HP; [done|].
  simpl. set (c0 := point5 * (lo + hi)).
  assert (∀ r : Qc, r * 2 ^ (k - k) = r) as Hpow0.
  { intros r. rewrite Nat.sub_diag. simpl. apply Qcmult_1_r. }
  destruct (decide (Qcabs.Qcabs (f c0) < Q2Qc 1e-14)) as [Hsmall|Hbig].
  { intros [= <- <-]. exists lo, hi. rewrite Hpow0.
    split; [done|]. split; [done|]. split; [done|]. split; [lia|].
    split; [by left|lia]. }
  destruct (decide (hi - lo < 2 * tol)) as [Hnarrow|Hwide].
  { intros [= <- <-]. exists lo, hi. rewrite Hpow0.
    split; [done|]. split; [done|]. split; [done|]. split; [lia|].
    split; [by right; left|lia]. }
  destruct (Hkeep lo hi HP Hbig Hwide) as [Hleft Hright].
  assert (tol ≤ c0 - lo ∧ tol ≤ hi - c0) as [Htol1 Htol2].
  { apply Qcnot_lt_le in Hwide.
    pose proof (midpoint_left lo hi) as H1.
    pose proof (midpoint_right lo hi) as H2. fold c0 in H1, H2.
    revert H1 H2 Hwide. generalize (hi - lo), (c0 - lo), (hi - c0).
    clear. intros w u v H1 H2 Hw. subst w. split; qc_lra. }
  set (ab := if decide (fa * f c0 < 0) then (lo, c0) else (c0, hi)).
  assert (P ab.1 ab.2 ∧ (ab.2 - ab.1) * 2 = hi - lo ∧ tol ≤ ab.2 - ab.1)
    as (HP' & Hhalf & Htol').
  { unfold ab. case_decide; simpl.
    - split; [by apply Hleft|]. split; [apply midpoint_left|done].
    - split; [by apply Hright|]. split; [apply midpoint_right|done]. }
  destruct (bisection_for f tol fa n (S k) ab.1 ab.2) as [[c1 k1]|] eqn:Hrec.
  - intros [= <- <-].
    destruct (IH (S k) ab.1 ab.2 c1 k1 HP' Hrec)
      as (lo' & hi' & HP1 & Hc1 & Hw1 & Hk1 & Hwhy & Hprev).
    exists lo', hi'. split; [done|]. split; [done|]. split; [|split; [lia|]].
    + replace (k1 - k)%nat with (S (k1 - S k)) by lia. simpl.
      rewrite <-Hhalf, <-Hw1. ring.
    + split.
      * destruct Hwhy as [?|[?| ->]]; [by left|by right; left|].
        right; right. lia.
      * intros _. destruct (decide (S k < k1)%nat) as [Hlt|Hge];
          [by apply Hprev|].
        replace (k1 - S k)%nat with 0%nat in Hw1 by lia. simpl in Hw1.
        rewrite Qcmult_1_r in Hw1. by rewrite Hw1.
  - intros [= <- <-]. destruct n; [|by apply bisection_for_S in Hrec].
    exists lo, hi. rewrite Hpow0.
    split; [done|]. split; [done|]. split; [done|]. split; [lia|].
    split; [right; right; lia|lia].
Qed.
End Bisection.



(** X12.  On an interval [a <= b] that passes the sign test, [bisection]
    returns a point of the interval, [a <= c <= b], and a count
    [k < max_iter]: every pass keeps an interval [[lo, hi]] inside [[a, b]],
    of which [c] is the midpoint. *)
Theorem bisection_bracket (f : Qc → Qc) (a b tol : Qc) (max_iter : nat)
    (c : Qc) (k : nat) :
  a ≤ b → ¬ 0 < f a * f b →
  bisection f a b tol max_iter = Returned (c, k) →
  (k < max_iter)%nat ∧ a ≤ c ∧ c ≤ b
  ∧ ∃ lo hi, a ≤ lo ∧ lo ≤ hi ∧ hi ≤ b ∧ c = point5 * (lo + hi).
Proof.
  intros Hab Hsign. unfold bisection. rewrite decide_False by done.
  destruct (bisection_for f tol (f a) max_iter 0 a b) as [[c' k']|] eqn:Hfor;
    [|done].
  intros [= -> ->].
  opose proof (bisection_for_spec f tol (f a)
                 (λ lo hi, a ≤ lo ∧ lo ≤ hi ∧ hi ≤ b) _
                 max_iter 0%nat a b c k _ Hfor)
    as (lo & hi & (Hlo & Hle & Hhi) & Hc & _ & Hk & _ & _).
  - intros lo hi (Hlo & Hle & Hhi) _ _.
    destruct (midpoint_between lo hi Hle) as [Hc1 Hc2].
    split; intros _; (split; [|split]); try done.
    + by apply Qcle_trans with hi.
    + by apply Qcle_trans with lo.
  - done.
  - destruct (midpoint_between lo hi Hle) as [Hc1 Hc2].
    split; [lia|]. rewrite Hc.
    split; [by apply Qcle_trans with lo|].
    split; [by apply Qcle_trans with hi|].
    exists lo, hi. by repeat (split; [done|]).
Qed.

Lemma bisection_bracket_witness :
  bisection (λ x, x * x - x) 0 (Q2Qc 3) (Q2Qc 1e-3) 100
  = Returned (Q2Qc 2.999267578125, 11%nat)
  ∧ (11 < 100)%nat ∧ 0 ≤ Q2Qc 2.999267578125
  ∧ Q2Qc 2.999267578125 ≤ Q2Qc 3.
Proof.
  assert (bisection (λ x, x * x - x) 0 (Q2Qc 3) (Q2Qc 1e-3) 100
          = Returned (Q2Qc 2.999267578125, 11%nat)) as Hrun by by_evaluation.
  split; [exact Hrun|].
  destruct (bisection_bracket (λ x, x * x - x) 0 (Q2Qc 3) (Q2Qc 1e-3) 100
              (Q2Qc 2.999267578125) 11) as (Hk & Hlo & Hhi & _);
    [by_evaluation|by_evaluation|exact Hrun|].
  split; [exact Hk|]. split; [exact Hlo|exact Hhi].
Defined.





Lemma iter_shift {A : Type} (g : A → A) (n : nat) (x : A) :
  Nat.iter n g (g x) = g (Nat.iter n g x).
Proof. induction n as [|n IH]; simpl; [done|]. by rewrite IH. Qed.

(** What the loop of [fixpoint] returns: the iterate at the first pass
    whose step is below [tol], or the last iterate. *)
Lemma fixpoint_for_spec (g : Qc → Qc) (tol : Qc) (n k : nat) (x : Qc) :
  match fixpoint_for g tol n k x with
  | (xf, None) => n = 0%nat ∧ xf = x
  | (xf, Some kf) =>
      ∃ j, kf = (k + j)%nat ∧ (j < n)%nat ∧ xf = Nat.iter (S j) g x
           ∧ (∀ i, (i < j)%nat →
                tol ≤ Qcabs.Qcabs (Nat.iter (S i) g x - Nat.iter i g x))
           ∧ ((S j < n)%nat →
                Qcabs.Qcabs (Nat.iter (S j) g x - Nat.iter j g x) < tol)
  end.
Proof.
  revert k x. induction n as [|n IH]; intros k x; simpl; [done|].
  case_decide as Herr.
  - exists 0%nat. simpl. repeat split; [lia|lia|intros; lia|done].
  - specialize (IH (S k) (g x)).
    destruct (fixpoint_for g tol n (S k) (g x)) as [xf [kf|]].
    + destruct IH as (j & -> & Hj & -> & Hbig & Hsmall).
      exists (S j). split; [lia|]. split; [lia|].
      split; [apply iter_shift|]. split.
      * intros [|i] Hi; [simpl; by apply Qcnot_lt_le|].
        specialize (Hbig i ltac:(lia)).
        by rewrite !iter_shift in Hbig.
      * intros HSj. specialize (Hsmall ltac:(lia)).
        by rewrite !iter_shift in Hsmall.
    + destruct IH as [-> ->]. exists 0%nat. simpl.
      repeat split; [lia|lia|intros; lia|lia].
Qed.

(** X15.  [fixpoint] returns [x = g^n(x0)] and the number [n] of
    applications of [g], with [1 <= n <= max_iter]: at every step before
    the last the test [err < tol] failed, and when [n < max_iter] it held at
    the last step, [|g^n(x0) - g^(n-1)(x0)| < tol]. *)
Theorem fixpoint_first_small_step (g : Qc → Qc) (x0 tol : Qc)
    (max_iter : nat) (x : Qc) (n : nat) :
  fixpoint g x0 tol max_iter = Returned (x, n) →
  (1 ≤ n ≤ max_iter)%nat ∧ x = Nat.iter n g x0
  ∧ (∀ m, (1 ≤ m < n)%nat →
       ¬ Qcabs.Qcabs (Nat.iter m g x0 - Nat.iter (m - 1) g x0) < tol)
  ∧ ((n < max_iter)%nat →
       Qcabs.Qcabs (Nat.iter n g x0 - Nat.iter (n - 1) g x0) < tol).
Proof.
  unfold fixpoint. pose proof (fixpoint_for_spec g tol max_iter 0 x0) as Hfor.
  destruct (fixpoint_for g tol max_iter 0 x0) as [xf [kf|]]; [|done].
  intros [= <- <-]. destruct Hfor as (j & -> & Hj & -> & Hbig & Hsmall).
  replace (0 + j + 1)%nat with (S j) by lia.
  split; [lia|]. split; [done|]. split.
  - intros [|m] Hm; [lia|]. replace (S m - 1)%nat with m by lia.
    apply Qcle_not_lt, Hbig. lia.
  - intros Hlt. replace (S j - 1)%nat with j by lia. apply Hsmall. lia.
Qed.

Lemma fixpoint_first_small_step_witness :
  fixpoint (λ x, point5 * x + 1) 0 (Q2Qc 0.3) 30 = Returned (Q2Qc 1.75, 3%nat)
  ∧ Q2Qc 1.75 = Nat.iter 3 (λ x, point5 * x + 1) 0
  ∧ Qcabs.Qcabs (Nat.iter 3 (λ x, point5 * x + 1) 0
                 - Nat.iter 2 (λ x, point5 * x + 1) 0) < Q2Qc 0.3.
Proof.
  assert (fixpoint (λ x, point5 * x + 1) 0 (Q2Qc 0.3) 30
          = Returned (Q2Qc 1.75, 3%nat)) as Hrun by by_evaluation.
  split; [exact Hrun|].
  destruct (fixpoint_first_small_step (λ x, point5 * x + 1) 0 (Q2Qc 0.3) 30
              (Q2Qc 1.75) 3 Hrun) as (_ & Hx & _ & Hsmall).
  split; [exact Hx|]. apply Hsmall. lia.
Defined.

(** X16.  The stopping rule of [fixpoint] bounds the error for a
    contraction: when [g] has the Lipschitz constant [L >= 0], [xs] is a
    fixed point of [g], and [fixpoint] returns [x] before [max_iter] is
    reached, then [(1 - L) * |x - xs| <= L * tol]. *)
Theorem fixpoint_error_bound (g : Qc → Qc) (x0 tol : Qc) (max_iter : nat)
    (x : Qc) (n : nat) (L xs : Qc) :
  fixpoint g x0 tol max_iter = Returned (x, n) → (n < max_iter)%nat →
  0 ≤ L →
  (∀ u v, Qcabs.Qcabs (g u - g v) ≤ L * Qcabs.Qcabs (u - v)) →
  g xs = xs →
  (1 - L) * Qcabs.Qcabs (x - xs) ≤ L * tol.
Proof.
  unfold fixpoint. pose proof (fixpoint_for_spec g tol max_iter 0 x0) as Hfor.
  destruct (fixpoint_for g tol max_iter 0 x0) as [xf [kf|]]; [|done].
  intros [= <- <-] Hn HL Hlip Hfix.
  destruct Hfor as (j & -> & Hj & -> & _ & Hsmall).
  specialize (Hsmall ltac:(lia)). simpl in *.
  set (p := Nat.iter j g x0) in *.
  pose proof (Hlip p xs) as Hstep. rewrite Hfix in Hstep.
  pose proof (Qcabs.Qcabs_triangle (p - g p) (g p - xs)) as Htri.
  replace (p - g p + (g p - xs)) with (p - xs) in Htri by ring.
  rewrite (Qcabs.Qcabs_Qcminus p (g p)) in Htri.
  assert (L * Qcabs.Qcabs (p - xs)
          ≤ L * (Qcabs.Qcabs (g p - p) + Qcabs.Qcabs (g p - xs))) as Hmul
    by by apply Qcmult_le_mono_nonneg_l.
  assert (L * Qcabs.Qcabs (g p - p) ≤ L * tol) as Hmul2
    by (apply Qcmult_le_mono_nonneg_l; [done|by apply Qclt_le_weak]).
  rewrite Qcmult_plus_distr_r in Hmul.
  replace ((1 - L) * Qcabs.Qcabs (g p - xs))
    with (Qcabs.Qcabs (g p - xs) - L * Qcabs.Qcabs (g p - xs)) by ring.
  revert Hstep Hmul Hmul2.
  generalize (Qcabs.Qcabs (g p - xs)), (L * Qcabs.Qcabs (p - xs)),
    (L * Qcabs.Qcabs (g p - p)), (L * tol).
  intros e1. generalize (L * e1). clear. qc_lra.
Qed.

Lemma fixpoint_error_bound_witness :
  fixpoint (λ x, point5 * x + 1) 0 (Q2Qc 0.3) 30 = Returned (Q2Qc 1.75, 3%nat)
  ∧ (∀ u v, Qcabs.Qcabs ((point5 * u + 1) - (point5 * v + 1))
            ≤ point5 * Qcabs.Qcabs (u - v))
  ∧ (1 - point5) * Qcabs.Qcabs (Q2Qc 1.75 - 2) ≤ point5 * Q2Qc 0.3.
Proof.
  assert (fixpoint (λ x, point5 * x + 1) 0 (Q2Qc 0.3) 30
          = Returned (Q2Qc 1.75, 3%nat)) as Hrun by by_evaluation.
  assert (∀ u v, Qcabs.Qcabs ((point5 * u + 1) - (point5 * v + 1))
                 ≤ point5 * Qcabs.Qcabs (u - v)) as Hlip.
  { intros u v.
    replace (point5 * u + 1 - (point5 * v + 1)) with (point5 * (u - v))
      by ring.
    rewrite Qcabs.Qcabs_Qcmult, (Qcabs.Qcabs_pos point5) by by_evaluation.
    apply Qcle_refl. }
  split; [exact Hrun|]. split; [exact Hlip|].
  apply (fixpoint_error_bound (λ x, point5 * x + 1) 0 (Q2Qc 0.3) 30
           (Q2Qc 1.75) 3 point5 2 Hrun);
    [lia|by_evaluation|exact Hlip|by_evaluation].
Defined.

(** What the loop of [newton] returns. *)
Lemma newton_for_spec (f df : Qc → Qc) (tol : Qc) (n k : nat) (x : Qc) :
  match newton_for f df tol n k x with
  | Returned (xf, None) => n = 0%nat ∧ xf = x
  | Returned (xf, Some kf) =>
      ∃ j, kf = (k + j)%nat ∧ (j < n)%nat
           ∧ ((Qcabs.Qcabs (f xf) < tol
               ∧ xf = Nat.iter j (newton_step f df) x)
              ∨ (S j = n ∧ xf = Nat.iter (S j) (newton_step f df) x))
  | ZeroDivisionError =>
      ∃ j, (j < n)%nat ∧ df (Nat.iter j (newton_step f df) x) = 0
  | _ => False
  end.
Proof.
  revert k x. induction n as [|n IH]; intros k x; simpl; [done|].
  case_decide as Hsmall.
  { exists 0%nat. split; [lia|]. split; [lia|]. by left. }
  case_decide as Hdf.
  { exists 0%nat. split; [lia|done]. }
  specialize (IH (S k) (x - f x / df x)).
  change (x - f x / df x) with (newton_step f df x) in *.
  destruct (newton_for f df tol n (S k) (newton_step f df x))
    as [[xf [kf|]]| | |]; try done.
  - destruct IH as (j & -> & Hj & Hwhy). exists (S j).
    split; [lia|]. split; [lia|].
    destruct Hwhy as [[Hf ->]|[<- ->]].
    + left. split; [done|]. by rewrite iter_shift.
    + right. split; [done|]. by rewrite iter_shift.
  - destruct IH as [-> ->]. exists 0%nat. split; [lia|]. split; [lia|].
    by right.
  - destruct IH as (j & Hj & Hzero). exists (S j). split; [lia|].
    by rewrite iter_shift in Hzero.
Qed.

(** X17.  [newton] returns a count [n] with [1 <= n <= max_iter].  Either
    the tolerance was met, [|f(x)| < tol], and [x] is the result of [n - 1]
    Newton updates, or all [max_iter] passes were used, [n = max_iter],
    and [x] is the result of [max_iter] updates: a count below [max_iter]
    means the tolerance was met, a count [max_iter] leaves both cases
    open. *)
Theorem newton_result (f df : Qc → Qc) (x0 tol : Qc) (max_iter : nat)
    (x : Qc) (n : nat) :
  newton f df x0 tol max_iter = Returned (x, n) →
  (1 ≤ n ≤ max_iter)%nat
  ∧ ((Qcabs.Qcabs (f x) < tol
      ∧ x = Nat.iter (n - 1) (newton_step f df) x0)
     ∨ (n = max_iter ∧ x = Nat.iter max_iter (newton_step f df) x0)).
Proof.
  unfold newton. pose proof (newton_for_spec f df tol max_iter 0 x0) as Hfor.
  destruct (newton_for f df tol max_iter 0 x0) as [[xf [kf|]]| | |];
    try done.
  intros [= <- <-]. destruct Hfor as (j & -> & Hj & Hwhy).
  split; [lia|]. replace (0 + j + 1 - 1)%nat with j by lia.
  destruct Hwhy as [[Hf ->]|[<- ->]]; [by left|].
  right. split; [lia|done].
Qed.

Lemma newton_result_witness :
  newton (λ x, x * x - x) (λ x, x) (Q2Qc 2) (Q2Qc 1e-14) 30
  = Returned (1, 2%nat)
  ∧ (1 ≤ 2 ≤ 30)%nat
  ∧ ((Qcabs.Qcabs (1 * 1 - 1) < Q2Qc 1e-14
      ∧ 1 = Nat.iter (2 - 1) (newton_step (λ x, x * x - x) (λ x, x))
              (Q2Qc 2))
     ∨ (2%nat = 30%nat
        ∧ 1 = Nat.iter 30 (newton_step (λ x, x * x - x) (λ x, x)) (Q2Qc 2))).
Proof.
  assert (newton (λ x, x * x - x) (λ x, x) (Q2Qc 2) (Q2Qc 1e-14) 30
          = Returned (1, 2%nat)) as Hrun by by_evaluation.
  split; [exact Hrun|].
  exact (newton_result (λ x, x * x - x) (λ x, x) (Q2Qc 2) (Q2Qc 1e-14) 30
           1 2 Hrun).
Defined.

(** X18.  In exact arithmetic: on an affine function [f(x) = m*x + q] with
    its derivative [df(x) = m], [m] not zero, [newton] with a positive
    tolerance and at least two passes returns after at most one update, with
    a count of at most 2; unless [x0] already met the tolerance, the
    returned point is the exact root, [m*x + q = 0].  (On doubles the
    update can leave a rounding residue.) *)
Theorem newton_affine (m q x0 tol : Qc) (max_iter : nat) :
  m ≠ 0 → 0 < tol → (2 ≤ max_iter)%nat →
  ∃ x n, newton (λ x, m * x + q) (λ _, m) x0 tol max_iter = Returned (x, n)
         ∧ (n ≤ 2)%nat ∧ Qcabs.Qcabs (m * x + q) < tol
         ∧ (tol ≤ Qcabs.Qcabs (m * x0 + q) → m * x + q = 0).
Proof.
  intros Hm Htol Hmax. destruct max_iter as [|[|max_iter]]; [lia..|].
  unfold newton. simpl.
  destruct (decide (Qcabs.Qcabs (m * x0 + q) < tol)) as [Hmet|Hnot].
  { exists x0, 1%nat. split; [done|]. split; [lia|]. split; [done|].
    intros Hle. by apply Qcle_not_lt in Hle. }
  rewrite decide_False by done.
  assert (m * (x0 - (m * x0 + q) / m) + q = 0) as Hroot by by field.
  rewrite Hroot. rewrite decide_True by done.
  eexists _, 2%nat. split; [done|]. split; [lia|].
  rewrite Hroot. split; [done|]. done.
Qed.

Lemma newton_affine_witness :
  ∃ x n, newton (λ x, Q2Qc 3 * x + - Q2Qc 6) (λ _, Q2Qc 3) (Q2Qc 10)
           (Q2Qc 1e-8) 30 = Returned (x, n)
         ∧ (n ≤ 2)%nat ∧ Qcabs.Qcabs (Q2Qc 3 * x + - Q2Qc 6) < Q2Qc 1e-8
         ∧ (Q2Qc 1e-8 ≤ Qcabs.Qcabs (Q2Qc 3 * Q2Qc 10 + - Q2Qc 6) →
            Q2Qc 3 * x + - Q2Qc 6 = 0).
Proof.
  apply (newton_affine (Q2Qc 3) (- Q2Qc 6) (Q2Qc 10) (Q2Qc 1e-8) 30);
    [by_evaluation|reflexivity|lia].
Defined.

(** What the loop of [newton_system] returns. *)
Lemma newton_system_for_spec {X M : Type} (norm_inf : X → Qc)
    (solve : M → X → option X) (neg : X → X) (plus : X → X → X)
    (f : X → X) (J : X → M) (tol : Qc) (n k : nat) (x : X) :
  match newton_system_for X M norm_inf solve neg plus f J tol n k x with
  | Returned (xf, None) => n = 0%nat ∧ xf = x
  | Returned (xf, Some kf) =>
      (k ≤ kf < k + n)%nat ∧ ((S kf < k + n)%nat → norm_inf (f xf) < tol)
  | LinAlgError => (0 < n)%nat
  | _ => False
  end.
Proof.
  revert k x. induction n as [|n IH]; intros k x; simpl; [done|].
  case_decide as Hsmall; [split; [lia|done]|].
  destruct (solve (J x) (neg (f x))) as [delta|]; [|lia].
  specialize (IH (S k) (plus x delta)).
  destruct (newton_system_for X M norm_inf solve neg plus f J tol n (S k)
              (plus x delta)) as [[xf [kf|]]| | |]; try done; try lia.
  destruct IH as [Hk Hmet]. split; [lia|]. intros Hlt. apply Hmet. lia.
Qed.

(** X19.  The count that [newton_system] returns is the index [k] of its
    last pass, so [k < max_iter]: it never equals [max_iter], the value
    that the calling cell compares it with to warn of non-convergence.
    When [k + 1 < max_iter] the tolerance was met at the returned point. *)
Theorem newton_system_count {X M : Type} (norm_inf : X → Qc)
    (solve : M → X → option X) (neg : X → X) (plus : X → X → X)
    (f : X → X) (J : X → M) (tol : Qc) (x0 : X) (max_iter : nat)
    (x : X) (k : nat) :
  newton_system X M norm_inf solve neg plus f J tol x0 max_iter
  = Returned (x, k) →
  (k < max_iter)%nat ∧ k ≠ max_iter
  ∧ ((S k < max_iter)%nat → norm_inf (f x) < tol).
Proof.
  unfold newton_system.
  pose proof (newton_system_for_spec norm_inf solve neg plus f J tol
                max_iter 0 x0) as Hfor.
  destruct (newton_system_for X M norm_inf solve neg plus f J tol max_iter 0
              x0) as [[xf [kf|]]| | |]; try done.
  intros [= <- <-]. destruct Hfor as [Hk Hmet].
  split; [lia|]. split; [lia|]. intros Hlt. apply Hmet. lia.
Qed.

Lemma newton_system_count_witness :
  let solve1 := λ (m v : Qc), if decide (m = 0) then None else Some (v / m) in
  newton_system Qc Qc Qcabs.Qcabs solve1 Qcopp Qcplus
    (λ x, x * x + 1) (λ x, 2 * x) (Q2Qc 1e-12) 2 3
  = Returned (Q2Qc (527 # 336), 2%nat)
  ∧ (2 < 3)%nat ∧ 2%nat ≠ 3%nat.
Proof.
  intros solve1.
  assert (newton_system Qc Qc Qcabs.Qcabs solve1 Qcopp Qcplus
            (λ x, x * x + 1) (λ x, 2 * x) (Q2Qc 1e-12) 2 3
          = Returned (Q2Qc (527 # 336), 2%nat)) as Hrun by by_evaluation.
  split; [exact Hrun|].
  destruct (newton_system_count Qcabs.Qcabs solve1 Qcopp Qcplus
              (λ x, x * x + 1) (λ x, 2 * x) (Q2Qc 1e-12) 2 3
              (Q2Qc (527 # 336)) 2
              Hrun) as (Hlt & Hne & _).
  split; [exact Hlt|exact Hne].
Defined.

(** X20.  The four root finders raise [UnboundLocalError] exactly when
    [max_iter = 0] (for [bisection]: and the sign test did not already
    return): then no pass assigns the variables that [return] reads. *)
Theorem unbound_iff_no_pass {X M : Type} (f g df : Qc → Qc)
    (a b x0 tol : Qc) (norm_inf : X → Qc) (solve : M → X → option X)
    (neg : X → X) (plus : X → X → X) (F : X → X) (J : X → M) (v0 : X)
    (max_iter : nat) :
  (bisection f a b tol max_iter = UnboundLocalError
   ↔ max_iter = 0%nat ∧ ¬ 0 < f a * f b)
  ∧ (fixpoint g x0 tol max_iter = UnboundLocalError ↔ max_iter = 0%nat)
  ∧ (newton f df x0 tol max_iter = UnboundLocalError ↔ max_iter = 0%nat)
  ∧ (newton_system X M norm_inf solve neg plus F J tol v0 max_iter
     = UnboundLocalError ↔ max_iter = 0%nat).
Proof.
  split; [|split; [|split]].
  - unfold bisection. case_decide as Hsign.
    { split; [done|]. by intros [_ ?]. }
    destruct max_iter as [|n]; [by split|].
    pose proof (bisection_for_S f tol (f a) n 0 a b) as Hsome.
    destruct (bisection_for f tol (f a) (S n) 0 a b) as [r|]; [|done].
    split; [done|]. by intros [? _].
  - unfold fixpoint.
    pose proof (fixpoint_for_spec g tol max_iter 0 x0) as Hfor.
    destruct (fixpoint_for g tol max_iter 0 x0) as [xf [kf|]].
    + destruct Hfor as (j & _ & Hj & _). split; [done|]. intros ->. lia.
    + by destruct Hfor as [-> _].
  - unfold newton.
    pose proof (newton_for_spec f df tol max_iter 0 x0) as Hfor.
    destruct (newton_for f df tol max_iter 0 x0) as [[xf [kf|]]| | |];
      try done.
    + destruct Hfor as (j & _ & Hj & _). split; [done|]. intros ->. lia.
    + by destruct Hfor as [-> _].
    + destruct Hfor as (j & Hj & _). split; [done|]. intros ->. lia.
  - unfold newton_system.
    pose proof (newton_system_for_spec norm_inf solve neg plus F J tol
                  max_iter 0 v0) as Hfor.
    destruct (newton_system_for X M norm_inf solve neg plus F J tol max_iter
                0 v0) as [[xf [kf|]]| | |]; try done.
    + destruct Hfor as [Hk _]. split; [done|]. intros ->. lia.
    + by destruct Hfor as [-> _].
    + split; [done|]. intros ->. lia.
Qed.

(** * Equilibria *)

(** What a loop of [for_from] that raised nothing preserves. *)
Lemma for_from_Ok_inv {S : Type} (P : nat → S → Prop) (start n : nat)
    (body : nat → S → exn S) (acc acc' : S) :
  P start acc →
  (∀ i x x', (start ≤ i < start + n)%nat → P i x → body i x = Ok x' →
             P (Datatypes.S i) x') →
  for_from start n body acc = Ok acc' → P (start + n)%nat acc'.
Proof.
  revert start acc. induction n as [|n IH]; intros start acc HP Hstep; simpl.
  - intros [= <-]. by rewrite Nat.add_0_r.
  - destruct (body start acc) as [x|] eqn:Hbody; [|done]. simpl. intros Hfor.
    replace (start + Datatypes.S n)%nat with (Datatypes.S start + n)%nat by lia.
    apply (IH (Datatypes.S start) x); [| |done].
    + apply (Hstep start acc x); [lia|done|done].
    + intros i y y' Hi. apply Hstep. lia.
Qed.

Section Equilibrium.
Context {Y : Type} `{State Y} `{!StateLaws Y}.

Lemma scale_zero_r (p : Qc) : scale p (zero : Y) = zero.
Proof.
  rewrite <-(scale_zero_l (zero : Y)) at 1.
  by rewrite scale_scale, Qcmult_0_r, scale_zero_l.
Qed.

(** A weighted sum of stage derivatives that are all zero is zero. *)
Lemma weighted_sum_zero (n : nat) (coef : nat → exn Qc) (ks : list Y)
    (h : Qc) (d : Y) :
  Forall (λ k, k = zero) ks →
  for_range n
    (λ j acc, do q <- coef j; do k_j <- getitem ks j;
              Ok (add acc (scale (h * q) k_j)))
    zero = Ok d →
  d = zero.
Proof.
  intros Hks Hfor. unfold for_range in Hfor.
  apply (for_from_Ok_inv (λ _ acc, acc = zero)) in Hfor; [done|done|].
  intros j x x' _ ->. destruct (coef j) as [q|]; [|done]. simpl.
  unfold getitem. destruct (ks !! j) as [k_j|] eqn:Hk; [|done]. simpl.
  intros [= <-]. rewrite (proj1 (Forall_lookup _ _) Hks j k_j Hk).
  by rewrite scale_zero_r, add_zero_l.
Qed.

(** At an equilibrium [y0] of [f], a pass of [explicitRK] that starts from
    [y0] with zero stage derivatives appends [y0] and leaves the stage
    derivatives zero. *)
Lemma explicitRK_body_equilibrium a b c (f : Qc → Y → Y) h (y0 : Y)
    (st st' : rk_state Y) :
  (∀ t, f t y0 = zero) →
  Forall (λ y, y = y0) (rk_ys st) ∧ Forall (λ k, k = zero) (rk_ks st) →
  explicitRK_body a b c f h st = Ok st' →
  Forall (λ y, y = y0) (rk_ys st') ∧ Forall (λ k, k = zero) (rk_ks st').
Proof.
  intros Heq [Hys Hks]. unfold explicitRK_body.
  destruct (getitem_last (rk_ts st)) as [t|]; [|done]. simpl.
  unfold getitem_last.
  destruct (last (rk_ys st)) as [y|] eqn:Hlast; [|done]. simpl.
  assert (y = y0) as ->.
  { apply last_Some in Hlast as [l Hl]. rewrite Hl in Hys.
    apply Forall_app in Hys as [_ Hy]. by inversion Hy. }
  destruct (for_range (rk_s b) (rk_stage a c f h t y0)
              (rk_ks st, rk_calls st)) as [acc|] eqn:Hstages; [|done].
  simpl.
  assert (Forall (λ k, k = zero) acc.1) as Hacc.
  { unfold for_range in Hstages.
    apply (for_from_Ok_inv (λ _ acc, Forall (λ k : Y, k = zero) acc.1))
      in Hstages; [done|done|].
    intros i x x' _ Hx. unfold rk_stage.
    destruct (getitem c i) as [c_i|]; [|done]. simpl.
    destruct (rk_increment a h i x.1 y0) as [dY_i|] eqn:Hinc; [|done]. simpl.
    apply (weighted_sum_zero i (λ j, getitem2 a i j)) in Hinc as ->;
      [|done].
    rewrite add_zero_r, Heq. unfold setitem. case_decide; [|done]. simpl.
    intros [= <-]. simpl. by apply Forall_insert. }
  destruct (rk_update b h acc.1 y0) as [dy|] eqn:Hupd; [|done]. simpl.
  apply (weighted_sum_zero (rk_s b) (λ i, getitem b i)) in Hupd as ->;
    [|done].
  intros [= <-]. simpl. split; [|done].
  rewrite add_zero_r. apply Forall_app. split; [done|].
  by apply Forall_singleton.
Qed.

End Equilibrium.

(** X21.  [explicitRK] keeps an equilibrium: when [f(t, y0) = 0] at every
    time [t], every state that it returns equals [y0], for any tableau
    (also one whose weights do not sum to 1) and any step size. *)
Theorem explicitRK_keeps_equilibrium {Y : Type} `{State Y} `{!StateLaws Y}
    fuel a b c (y0 : Y) T f h ts ys :
  (∀ t, f t y0 = zero) →
  explicitRK fuel a b c y0 T f h = Some (Ok (ts, ys)) →
  Forall (λ y, y = y0) ys.
Proof.
  intros Heq Hret.
  apply explicitRK_Ok in Hret as (st & Hst & _ & <-).
  unfold explicitRK_run in Hst.
  apply (explicitRK_loop_inv a b c T f h
           (λ st, Forall (λ y, y = y0) (rk_ys st)
                  ∧ Forall (λ k, k = zero) (rk_ks st))) in Hst
    as [Hys _].
  - done.
  - intros st1 st2. by apply explicitRK_body_equilibrium.
  - simpl. split; [by apply Forall_singleton|].
    apply Forall_replicate. done.
Qed.

Lemma explicitRK_keeps_equilibrium_witness :
  (∀ t : Qc, (λ t y : Qc, t * (y - 1) + y * (1 - y)) t 1 = zero)
  ∧ explicitRK 4 aHeun bHeun cHeun (1 : Qc) 1
      (λ t y, t * (y - 1) + y * (1 - y)) (Q2Qc 0.3)
    = Some (Ok ([0; Q2Qc 0.3; Q2Qc 0.6; Q2Qc 0.9; Q2Qc 1.2], [1; 1; 1; 1; 1]))
  ∧ Forall (λ y : Qc, y = 1) [1; 1; 1; 1; 1].
Proof.
  assert (∀ t : Qc, t * (1 - 1) + 1 * (1 - 1) = 0) as Heq
    by (intros t; ring).
  assert (explicitRK 4 aHeun bHeun cHeun (1 : Qc) 1
            (λ t y, t * (y - 1) + y * (1 - y)) (Q2Qc 0.3)
          = Some (Ok ([0; Q2Qc 0.3; Q2Qc 0.6; Q2Qc 0.9; Q2Qc 1.2],
                      [1; 1; 1; 1; 1]))) as Hrun by by_evaluation.
  split; [exact Heq|]. split; [exact Hrun|].
  exact (explicitRK_keeps_equilibrium 4 aHeun bHeun cHeun (1 : Qc) 1
           (λ t y, t * (y - 1) + y * (1 - y)) (Q2Qc 0.3) _ _ Heq Hrun).
Defined.

(** X22.  [HeunWithEuler] keeps an equilibrium: when [f(t, y0) = 0] at every
    time [t], every state that it returns equals [y0]. *)
Theorem HeunWithEuler_keeps_equilibrium {Y : Type} `{State Y} `{!StateLaws Y}
    fuel (y0 : Y) T f h tol gamma alpha ts ys hs :
  (∀ t, f t y0 = zero) →
  HeunWithEuler fuel y0 T f h tol gamma alpha = Some (Ok (ts, ys, hs)) →
  Forall (λ y, y = y0) ys.
Proof.
  intros Heq Hret.
  apply HeunWithEuler_Ok in Hret as (st & Hst & <- & <- & <-).
  apply HeunWithEuler_run_chain in Hst as (Hshape & H0 & Hchain).
  destruct Hshape as [Hlen_ys Hlen_hs _ _ _].
  apply Forall_lookup_2. intros i. induction i as [|i IH]; intros y Hy.
  - rewrite H0 in Hy. by injection Hy as <-.
  - destruct (lookup_lt_is_Some_2 (he_ys st) i) as [y1 Hy1].
    { apply lookup_lt_Some in Hy. lia. }
    pose proof (IH y1 Hy1) as ->.
    destruct (lookup_lt_is_Some_2 (he_ts st) i) as [t Ht].
    { apply lookup_lt_Some in Hy. lia. }
    destruct (lookup_lt_is_Some_2 (he_ts st) (S i)) as [t' Ht'].
    { apply lookup_lt_Some in Hy. lia. }
    destruct (lookup_lt_is_Some_2 (he_hs st) (S i)) as [h' Hh'].
    { apply lookup_lt_Some in Hy. lia. }
    destruct (Hchain i t y0 t' y h' Ht Hy1 Ht' Hy Hh') as (_ & -> & _).
    unfold heun_next.
    by rewrite !Heq, scale_zero_r, add_zero_r, Heq, add_zero_l,
      scale_zero_r, add_zero_r.
Qed.

Lemma HeunWithEuler_keeps_equilibrium_witness :
  (∀ t : Qc, (λ t y : Qc, t * (y - 1) + y * (1 - y)) t 1 = zero)
  ∧ HeunWithEuler 10 (1 : Qc) 1 (λ t y, t * (y - 1) + y * (1 - y))
      (Q2Qc 0.3) (Q2Qc 0.1) (Q2Qc 0.9) (Q2Qc 1.1)
    = Some (Ok ([0; Q2Qc 0.3; Q2Qc 0.63; Q2Qc 0.993; 1], [1; 1; 1; 1; 1],
                [Q2Qc 0.3; Q2Qc 0.3; Q2Qc 0.33; Q2Qc 0.363; Q2Qc 0.007]))
  ∧ Forall (λ y : Qc, y = 1) [1; 1; 1; 1; 1].
Proof.
  assert (∀ t : Qc, t * (1 - 1) + 1 * (1 - 1) = 0) as Heq
    by (intros t; ring).
  assert (HeunWithEuler 10 (1 : Qc) 1 (λ t y, t * (y - 1) + y * (1 - y))
            (Q2Qc 0.3) (Q2Qc 0.1) (Q2Qc 0.9) (Q2Qc 1.1)
          = Some (Ok ([0; Q2Qc 0.3; Q2Qc 0.63; Q2Qc 0.993; 1],
                      [1; 1; 1; 1; 1],
                      [Q2Qc 0.3; Q2Qc 0.3; Q2Qc 0.33; Q2Qc 0.363;
                       Q2Qc 0.007]))) as Hrun by by_evaluation.
  split; [exact Heq|]. split; [exact Hrun|].
  exact (HeunWithEuler_keeps_equilibrium 10 (1 : Qc) 1
           (λ t y, t * (y - 1) + y * (1 - y)) (Q2Qc 0.3) (Q2Qc 0.1)
           (Q2Qc 0.9) (Q2Qc 1.1) _ _ _ Heq Hrun).
Defined.

(** * Double arithmetic

    What the two integrators do on IEEE doubles, in the model [Binary64]. *)

Section Binary64Adaptive.
Context {Y : Type} `{Binary64.State Y}.
Variables (T : float) (f : float → Y → Y) (tol gamma alpha : float).

Abbreviation body64 := (Binary64.HeunWithEuler_body T f tol gamma alpha).
Abbreviation loop64 := (Binary64.HeunWithEuler_loop T f tol gamma alpha).

(** A pass keeps the three lists, or appends [t + h] and [h] to the times
    and the step sizes. *)
Lemma Binary64_HeunWithEuler_body_inv (st st' : Binary64.he_state Y) :
  body64 st = Ok st' →
  (Binary64.he_ts st' = Binary64.he_ts st
   ∧ Binary64.he_ys st' = Binary64.he_ys st
   ∧ Binary64.he_hs st' = Binary64.he_hs st)
  ∨ ∃ t y, last (Binary64.he_ts st) = Some t
      ∧ Binary64.he_ts st' = Binary64.he_ts st ++ [(t + Binary64.he_h st)%float]
      ∧ Binary64.he_ys st' = Binary64.he_ys st ++ [y]
      ∧ Binary64.he_hs st' = Binary64.he_hs st ++ [Binary64.he_h st].
Proof.
  unfold Binary64.HeunWithEuler_body, getitem_last.
  destruct (last (Binary64.he_ts st)) as [t|]; [|done].
  destruct (last (Binary64.he_ys st)) as [y|]; [|done]. simpl.
  destruct (_ <=? _)%float; [destruct (_ <? _)%float|];
    intros [= <-]; simpl; eauto 10.
Qed.

Lemma Binary64_HeunWithEuler_loop_inv (P : Binary64.he_state Y → Prop) :
  (∀ st st', P st → body64 st = Ok st' → P st') →
  ∀ fuel st r, P st → loop64 fuel st = Some (Ok r) → P r.
Proof.
  intros Hstep fuel. induction fuel as [|fuel IH]; intros st r HP; simpl;
    destruct (getitem_last (Binary64.he_ts st)) as [t|]; try done;
    destruct (t <? T)%float; try done.
  - by intros [= <-].
  - destruct (body64 st) as [st'|] eqn:Hbody; [|done].
    apply IH. by apply (Hstep st).
  - by intros [= <-].
Qed.

(** A state that a pass leaves as it is, at a time below the horizon, is
    never left. *)
Lemma Binary64_HeunWithEuler_loop_fixed (st : Binary64.he_state Y) (t : float) :
  last (Binary64.he_ts st) = Some t → (t <? T)%float = true →
  body64 st = Ok st → ∀ fuel, loop64 fuel st = None.
Proof.
  intros Ht HtT Hbody fuel. induction fuel as [|fuel IH]; simpl;
    unfold getitem_last; rewrite Ht, HtT; [done|]. by rewrite Hbody.
Qed.

Lemma Binary64_HeunWithEuler_loop_step (st st' : Binary64.he_state Y)
    (t : float) (fuel : nat) :
  last (Binary64.he_ts st) = Some t → (t <? T)%float = true →
  body64 st = Ok st' → loop64 (S fuel) st = loop64 fuel st'.
Proof.
  intros Ht HtT Hbody. simpl. unfold getitem_last. by rewrite Ht, HtT, Hbody.
Qed.
End Binary64Adaptive.

Section Binary64FixedStep.
Context {Y : Type} `{Binary64.State Y}.
Variables (a : list (list float)) (b c : list float).
Variables (T : float) (f : float → Y → Y) (h : float).

(** A pass appends [t + h] to the times. *)
Lemma Binary64_explicitRK_body_inv (st st' : Binary64.rk_state Y) :
  Binary64.explicitRK_body a b c f h st = Ok st' →
  ∃ t, last (Binary64.rk_ts st) = Some t
       ∧ Binary64.rk_ts st' = Binary64.rk_ts st ++ [(t + h)%float].
Proof.
  unfold Binary64.explicitRK_body, getitem_last.
  destruct (last (Binary64.rk_ts st)) as [t|]; [|done].
  destruct (last (Binary64.rk_ys st)) as [y|]; [|done]. simpl.
  destruct (for_range _ _ _) as [ks|]; [|done]. simpl.
  destruct (Binary64.rk_update _ _ _ _) as [dy|]; [|done]. simpl.
  intros [= <-]. simpl. eauto.
Qed.

(** The loop is left at the first time that is not below the horizon. *)
Lemma Binary64_explicitRK_loop_times (fuel : nat)
    (st r : Binary64.rk_state Y) :
  (∀ i t t', Binary64.rk_ts st !! i = Some t →
     Binary64.rk_ts st !! S i = Some t' →
     t' = (t + h)%float ∧ (t <? T)%float = true) →
  Binary64.explicitRK_loop a b c T f h fuel st = Some (Ok r) →
  (∀ i t t', Binary64.rk_ts r !! i = Some t →
     Binary64.rk_ts r !! S i = Some t' →
     t' = (t + h)%float ∧ (t <? T)%float = true)
  ∧ (∃ t, last (Binary64.rk_ts r) = Some t ∧ (t <? T)%float = false)
  ∧ Binary64.rk_ts r !! 0%nat = Binary64.rk_ts st !! 0%nat.
Proof.
  revert st. induction fuel as [|fuel IH]; intros st Hst; simpl;
    unfold getitem_last;
    destruct (last (Binary64.rk_ts st)) as [t|] eqn:Ht; try done;
    destruct (t <? T)%float eqn:HtT; try done.
  - intros [= <-]. eauto.
  - destruct (Binary64.explicitRK_body a b c f h st) as [st'|] eqn:Hbody;
      [|done].
    apply Binary64_explicitRK_body_inv in Hbody as (t' & Ht' & Hts).
    rewrite Ht in Ht'. injection Ht' as <-. intros Hloop.
    apply IH in Hloop as (Hr & Hlast & H0).
    + split; [done|]. split; [done|]. rewrite H0, Hts.
      apply last_Some in Ht as [l Hl]. rewrite Hl. by destruct l.
    + rewrite Hts. intros i t0 t1 Hi HSi.
      assert (HSi' := lookup_lt_Some _ _ _ HSi). rewrite length_app in HSi'.
      simpl in HSi'. rewrite lookup_app_l in Hi by lia.
      destruct (decide (S i < length (Binary64.rk_ts st))%nat) as [Hlt|Hge].
      * rewrite lookup_app_l in HSi by done. eauto.
      * rewrite lookup_app_r in HSi by lia.
        replace (S i - length (Binary64.rk_ts st))%nat with 0%nat in * by lia.
        simpl in HSi. injection HSi as <-.
        rewrite last_lookup in Ht.
        replace (pred (length (Binary64.rk_ts st))) with i in Ht by lia.
        rewrite Ht in Hi. by injection Hi as <-.
  - intros [= <-]. eauto.
Qed.
End Binary64FixedStep.

(** C3 (amended).  In exact arithmetic, on an indexable tableau and for
    [T > 0] and [h > 0], [explicitRK] returns the times [0, h, 2h, ..., N*h]
    with [N] the least positive integer with [N*h >= T]: consecutive times
    differ by exactly [h], the last is at or beyond [T] and is not clipped,
    the earlier ones are below [T].  On doubles, whenever [explicitRK]
    returns, the first time is 0, every later time is the rounded sum
    [t + h] of the time before it and [h] (neither [i*h] nor clipped), the
    loop test [t < T] holds at every time but the last, and fails at the
    last. *)
Theorem explicitRK_times :
  (∀ (Y : Type) (HY : State Y) a b c (y0 : Y) T f h,
     tableau_ok a b c → 0 < T → 0 < h →
     ∃ (N : nat) (ys : list Y),
       (1 ≤ N)%nat ∧ T ≤ Qc_of_nat N * h
       ∧ (∀ k, (1 ≤ k)%nat → T ≤ Qc_of_nat k * h → (N ≤ k)%nat)
       ∧ (∀ fuel, (N ≤ fuel)%nat →
            explicitRK fuel a b c y0 T f h = Some (Ok (grid h N, ys)))
       ∧ (∀ i t0 t1, grid h N !! i = Some t0 → grid h N !! S i = Some t1 →
            t1 - t0 = h)
       ∧ last (grid h N) = Some (Qc_of_nat N * h)
       ∧ (∀ i t, (i < N)%nat → grid h N !! i = Some t → t < T))
  ∧ (∀ (Y : Type) (HY : Binary64.State Y) fuel a b c (y0 : Y) T f h ts ys,
       Binary64.explicitRK fuel a b c y0 T f h = Some (Ok (ts, ys)) →
       ts !! 0%nat = Some 0%float
       ∧ (∀ i t t', ts !! i = Some t → ts !! S i = Some t' →
            t' = (t + h)%float ∧ (t <? T)%float = true)
       ∧ ∃ t, last ts = Some t ∧ (t <? T)%float = false).
Proof.
  split.
  - intros Y HY a b c y0 T f h Hok HT Hh.
    exact (explicitRK_time_grid a b c y0 T f h Hok HT Hh).
  - intros Y HY fuel a b c y0 T f h ts ys.
    unfold Binary64.explicitRK, Binary64.explicitRK_run.
    destruct (Binary64.explicitRK_loop _ _ _ _ _ _ _ _) as [[st|]|] eqn:Hrun;
      [|done..].
    intros [= <- <-].
    apply Binary64_explicitRK_loop_times in Hrun as (Hr & Hlast & H0).
    + by rewrite H0.
    + intros i t t' _ Hi. by destruct i.
Qed.

Lemma explicitRK_times_witness :
  (tableau_ok aHeun bHeun cHeun
   ∧ ∃ (N : nat) (ys : list Qc), ∀ fuel, (N ≤ fuel)%nat →
       explicitRK fuel aHeun bHeun cHeun (0 : Qc) 1 (λ t y, y + 1) (Q2Qc 0.3)
       = Some (Ok (grid (Q2Qc 0.3) N, ys)))
  ∧ Binary64.explicitRK 4 Binary64.aHeun Binary64.bHeun Binary64.cHeun
      0%float 1%float (λ t y, (y + 1)%float) 0.3%float
    = Some (Ok ([0; 0.29999999999999999; 0.59999999999999998;
                 0.89999999999999991; 1.2]%float,
                [0; 0.34499999999999997; 0.80902499999999988;
                 1.4331386249999998; 2.2725714506249997]%float))
  ∧ ∃ t, last [0; 0.29999999999999999; 0.59999999999999998;
               0.89999999999999991; 1.2]%float = Some t
         ∧ (t <? 1)%float = false.
Proof.
  destruct explicitRK_times as [Hexact Hdouble].
  split; [|split].
  - pose proof tableau_ok_Heun as Hok. split; [exact Hok|].
    destruct (Hexact Qc _ aHeun bHeun cHeun (0 : Qc) 1 (λ t y, y + 1)
                (Q2Qc 0.3) Hok eq_refl eq_refl)
      as (N & ys & _ & _ & _ & Hrun & _).
    by exists N, ys.
  - vm_compute. reflexivity.
  - refine (proj2 (proj2 (Hdouble float _ 4%nat Binary64.aHeun Binary64.bHeun
                            Binary64.cHeun 0%float 1%float
                            (λ t y, (y + 1)%float) 0.3%float _ _ _))).
    vm_compute. reflexivity.
Defined.

(** The notebook's horizon and step size, [T = 1.5] and [h = 0.025], with
    Heun's tableau (the times do not depend on the right-hand side).
    [N = 60] is the least positive integer with [N*h >= T], also for the
    real number that the double [0.025] is, so that the times would be the
    61 numbers [0, h, ..., 60*h].  The code returns 62 times: the time at
    index 60 is still below [T], the times at the indices 2 and 3 do not
    differ by [h], and the sequence is [0, h, ..., N*h] for no [N]. *)
Lemma explicitRK_time_grid_counterexample :
  ∃ ts ys,
    Binary64.explicitRK 61 Binary64.aHeun Binary64.bHeun Binary64.cHeun
      0%float 1.5%float (λ t y, (y + 1)%float) 0.025%float
    = Some (Ok (ts, ys))
    ∧ Binary64.exact 1.5 ≤ Qc_of_nat 60 * Binary64.exact 0.025
    ∧ Qc_of_nat 59 * Binary64.exact 0.025 < Binary64.exact 1.5
    ∧ length ts = 62%nat
    ∧ ts !! 60%nat = Some 1.4999999999999987%float
    ∧ Binary64.exact 1.4999999999999987 < Binary64.exact 1.5
    ∧ ts !! 2%nat = Some 0.050000000000000003%float
    ∧ ts !! 3%nat = Some 0.075000000000000011%float
    ∧ Binary64.exact 0.075000000000000011 - Binary64.exact 0.050000000000000003
      ≠ Binary64.exact 0.025
    ∧ ¬ ∃ N, map Binary64.exact ts = grid (Binary64.exact 0.025) N.
Proof.
  let r := eval vm_compute in
    (Binary64.explicitRK 61 Binary64.aHeun Binary64.bHeun Binary64.cHeun
       0%float 1.5%float (λ t y, (y + 1)%float) 0.025%float) in
  match r with Some (Ok (?ts, ?ys)) => exists ts, ys end.
  split; [vm_compute; reflexivity|]. split; [by_evaluation|].
  split; [by_evaluation|].
  split; [reflexivity|]. split; [reflexivity|]. split; [by_evaluation|].
  split; [reflexivity|]. split; [reflexivity|]. split; [by_evaluation|].
  intros [N HN].
  assert (N = 61%nat) as ->.
  { apply (f_equal length) in HN. rewrite length_map, grid_length in HN.
    simpl in HN. lia. }
  revert HN. by_evaluation.
Qed.

(** C10 (amended).  Whenever [HeunWithEuler] returns, the recorded step
    size at every index [i >= 1] is the increment that was added for that
    step.  On doubles: the time [ts[i]] is the rounded sum
    [ts[i-1] + hs[i]].  In exact arithmetic: [hs[i]] is the difference
    [ts[i] - ts[i-1]]. *)
Theorem HeunWithEuler_recorded_steps :
  (∀ (Y : Type) (HY : Binary64.State Y) fuel (y0 : Y) T f h tol gamma alpha
     ts ys hs (i : nat),
     Binary64.HeunWithEuler fuel y0 T f h tol gamma alpha
     = Some (Ok (ts, ys, hs)) →
     (1 ≤ i)%nat → (i < length ts)%nat →
     ∃ t0 t1 h1, ts !! (i - 1)%nat = Some t0 ∧ ts !! i = Some t1
                 ∧ hs !! i = Some h1 ∧ t1 = (t0 + h1)%float)
  ∧ (∀ (Y : Type) (HY : State Y) fuel (y0 : Y) T f h tol gamma alpha
       ts ys hs (i : nat),
       HeunWithEuler fuel y0 T f h tol gamma alpha = Some (Ok (ts, ys, hs)) →
       (1 ≤ i)%nat → (i < length ts)%nat →
       ∃ t0 t1, ts !! (i - 1)%nat = Some t0 ∧ ts !! i = Some t1
                ∧ hs !! i = Some (t1 - t0)).
Proof.
  split.
  - intros Y HY fuel y0 T f h tol gamma alpha ts ys hs i.
    unfold Binary64.HeunWithEuler, Binary64.HeunWithEuler_run.
    destruct (Binary64.HeunWithEuler_loop _ _ _ _ _ _ _) as [[st|]|] eqn:Hrun;
      [|done..].
    intros [= <- <- <-] Hi Hlen.
    apply (Binary64_HeunWithEuler_loop_inv T f tol gamma alpha
             (λ st, length (Binary64.he_hs st) = length (Binary64.he_ts st)
                    ∧ ∀ i t0 t1 h1, Binary64.he_ts st !! i = Some t0 →
                        Binary64.he_ts st !! S i = Some t1 →
                        Binary64.he_hs st !! S i = Some h1 →
                        t1 = (t0 + h1)%float)) in Hrun.
    + destruct Hrun as [Hhs Hsum].
      destruct i as [|i]; [lia|]. replace (S i - 1)%nat with i by lia.
      destruct (lookup_lt_is_Some_2 (Binary64.he_ts st) i) as [t0 Ht0];
        [lia|].
      destruct (lookup_lt_is_Some_2 (Binary64.he_ts st) (S i)) as [t1 Ht1];
        [lia|].
      destruct (lookup_lt_is_Some_2 (Binary64.he_hs st) (S i)) as [h1 Hh1];
        [lia|].
      exists t0, t1, h1. eauto.
    + intros st1 st2 [Hhs Hsum] Hbody.
      apply Binary64_HeunWithEuler_body_inv in Hbody
        as [(-> & _ & ->)|(t & y & Ht & -> & _ & ->)]; [done|].
      split; [rewrite !length_app; simpl; lia|].
      intros j t0 t1 h1 Hj HSj Hh1.
      assert (HSj' := lookup_lt_Some _ _ _ HSj). rewrite length_app in HSj'.
      simpl in HSj'. rewrite lookup_app_l in Hj by lia.
      destruct (decide (S j < length (Binary64.he_ts st1))%nat) as [Hlt|Hge].
      * rewrite lookup_app_l in HSj by done.
        rewrite lookup_app_l in Hh1 by lia. eauto.
      * rewrite lookup_app_r in HSj by lia.
        rewrite lookup_app_r in Hh1 by lia. rewrite Hhs in Hh1.
        replace (S j - length (Binary64.he_ts st1))%nat with 0%nat in *
          by lia.
        simpl in *. injection HSj as <-. injection Hh1 as <-.
        rewrite last_lookup in Ht.
        replace (pred (length (Binary64.he_ts st1))) with j in Ht by lia.
        rewrite Ht in Hj. by injection Hj as <-.
    + simpl. split; [done|]. intros j t0 t1 h1 _ Hj. by destruct j.
  - intros Y HY fuel y0 T f h tol gamma alpha ts ys hs i.
    apply HeunWithEuler_step_sizes_are_increments.
Qed.

Lemma HeunWithEuler_recorded_steps_witness :
  Binary64.HeunWithEuler 5 0%float 1%float (λ _ _, 0%float) 0.1%float
    0.01%float 0.9%float 2%float
  = Some (Ok ([0; 0.10000000000000001; 0.30000000000000004;
               0.70000000000000007; 1]%float,
              [0; 0; 0; 0; 0]%float,
              [0.10000000000000001; 0.10000000000000001;
               0.20000000000000001; 0.40000000000000002;
               0.29999999999999993]%float))
  ∧ (∃ t0 t1 h1,
       [0; 0.10000000000000001; 0.30000000000000004;
        0.70000000000000007; 1]%float !! (2 - 1)%nat = Some t0
       ∧ [0; 0.10000000000000001; 0.30000000000000004;
          0.70000000000000007; 1]%float !! 2%nat = Some t1
       ∧ [0.10000000000000001; 0.10000000000000001; 0.20000000000000001;
          0.40000000000000002; 0.29999999999999993]%float !! 2%nat = Some h1
       ∧ t1 = (t0 + h1)%float)
  ∧ HeunWithEuler 5 (0 : Qc) (Q2Qc 0.2) (λ t y, Q2Qc 4 * t) (Q2Qc 0.3)
      (Q2Qc 0.1) (Q2Qc 0.9) (Q2Qc 1.1)
    = Some (Ok demo_result)
  ∧ ∃ t0 t1, demo_result.1.1 !! (2 - 1)%nat = Some t0
             ∧ demo_result.1.1 !! 2%nat = Some t1
             ∧ demo_result.2 !! 2%nat = Some (t1 - t0).
Proof.
  destruct HeunWithEuler_recorded_steps as [Hdouble Hexact].
  assert (Binary64.HeunWithEuler 5 0%float 1%float (λ _ _, 0%float) 0.1%float
            0.01%float 0.9%float 2%float
          = Some (Ok ([0; 0.10000000000000001; 0.30000000000000004;
                       0.70000000000000007; 1]%float,
                      [0; 0; 0; 0; 0]%float,
                      [0.10000000000000001; 0.10000000000000001;
                       0.20000000000000001; 0.40000000000000002;
                       0.29999999999999993]%float))) as Hrun
    by (vm_compute; reflexivity).
  split; [exact Hrun|]. split.
  - apply (Hdouble float _ 5%nat 0%float 1%float (λ _ _, 0%float) 0.1%float
             0.01%float 0.9%float 2%float _ _ _ 2%nat Hrun);
      simpl; lia.
  - split; [exact demo_run|].
    apply (Hexact Qc _ 5%nat (0 : Qc) (Q2Qc 0.2) (λ t y, Q2Qc 4 * t)
             (Q2Qc 0.3) (Q2Qc 0.1) (Q2Qc 0.9) (Q2Qc 1.1) _ _ _ 2%nat
             demo_run); vm_compute; lia.
Defined.

(** With [f = 0], [T = 1], [h = 0.1] and [alpha = 2] every proposal is
    accepted, and the code records the step size 0.2 at index 2 while
    [ts[2] - ts[1]] is not 0.2: neither the difference as the doubles give
    it, nor the difference of the real numbers that the two times are. *)
Lemma HeunWithEuler_step_sizes_are_increments_counterexample :
  Binary64.HeunWithEuler 5 0%float 1%float (λ _ _, 0%float) 0.1%float
    0.01%float 0.9%float 2%float
  = Some (Ok ([0; 0.10000000000000001; 0.30000000000000004;
               0.70000000000000007; 1]%float,
              [0; 0; 0; 0; 0]%float,
              [0.10000000000000001; 0.10000000000000001;
               0.20000000000000001; 0.40000000000000002;
               0.29999999999999993]%float))
  ∧ (0.30000000000000004 - 0.10000000000000001)%float
    ≠ 0.20000000000000001%float
  ∧ Binary64.exact 0.30000000000000004 - Binary64.exact 0.10000000000000001
    ≠ Binary64.exact 0.20000000000000001.
Proof.
  split; [vm_compute; reflexivity|]. split.
  - vm_compute. discriminate.
  - by_evaluation.
Qed.

(** * Calls per sample *)

(** The stage loop calls [f] once for each stage. *)
Lemma rk_stages_count {Y : Type} `{State Y} a c (f : Qc → Y → Y) h t y
    (s : nat) (acc0 acc : list Y * nat) :
  for_range s (rk_stage a c f h t y) acc0 = Ok acc →
  acc.2 = (acc0.2 + s)%nat.
Proof.
  unfold for_range. intros Hfor.
  apply (for_from_Ok_inv (λ i (x : list Y * nat), x.2 = (acc0.2 + i)%nat))
    in Hfor; [done|lia|].
  intros i x x' _ Hx. unfold rk_stage.
  destruct (getitem c i) as [c_i|]; [|done]. simpl.
  destruct (rk_increment a h i x.1 y) as [dY_i|]; [|done]. simpl.
  destruct (setitem x.1 i _) as [ks'|]; [|done]. simpl.
  intros [= <-]. simpl. lia.
Qed.

(** X7.  Whenever [explicitRK] returns, it returns as many states as times,
    the first sample is [(0, y0)], and it has called [f] exactly [len(b)]
    times for every sample after the first: [(len(ts) - 1) * len(b)] calls
    in all. *)
Theorem explicitRK_calls_per_sample {Y : Type} `{State Y}
    fuel a b c (y0 : Y) T f h ts ys :
  explicitRK fuel a b c y0 T f h = Some (Ok (ts, ys)) →
  length ys = length ts ∧ ts !! 0%nat = Some 0 ∧ ys !! 0%nat = Some y0
  ∧ explicitRK_calls fuel a b c y0 T f h
    = Some ((length ts - 1) * length b)%nat.
Proof.
  intros Hret. apply explicitRK_Ok in Hret as (st & Hst & <- & <-).
  unfold explicitRK_calls. rewrite Hst. unfold explicitRK_run in Hst.
  apply (explicitRK_loop_inv a b c T f h
           (λ st, length (rk_ys st) = length (rk_ts st)
                  ∧ rk_ts st !! 0%nat = Some 0
                  ∧ rk_ys st !! 0%nat = Some y0
                  ∧ (1 ≤ length (rk_ts st))%nat
                  ∧ rk_calls st
                    = ((length (rk_ts st) - 1) * length b)%nat)) in Hst.
  - by destruct Hst as (? & ? & ? & _ & ->).
  - intros st1 st2 (Hlen & Ht0 & Hy0 & Hpos & Hcalls).
    unfold explicitRK_body.
    destruct (getitem_last (rk_ts st1)) as [t|]; [|done].
    destruct (getitem_last (rk_ys st1)) as [y|]; [|done]. simpl.
    destruct (for_range _ _ _) as [acc|] eqn:Hstages; [|done]. simpl.
    destruct (rk_update _ _ _ _) as [dy|]; [|done]. simpl.
    intros [= <-]. simpl. apply rk_stages_count in Hstages.
    simpl in Hstages. rewrite !length_app. simpl.
    split; [lia|]. split; [by apply lookup_app_l_Some|].
    split; [by apply lookup_app_l_Some|]. split; [lia|].
    rewrite Hstages, Hcalls. unfold rk_s. nia.
  - simpl. repeat (split; [done|]). lia.
Qed.

Lemma explicitRK_calls_per_sample_witness :
  explicitRK 4 aHeun bHeun cHeun (0 : Qc) 1 (λ t y, y + 1) (Q2Qc 0.3)
  = Some (Ok ([0; Q2Qc 0.3; Q2Qc 0.6; Q2Qc 0.9; Q2Qc 1.2],
              [0; Q2Qc 0.345; Q2Qc 0.809025; Q2Qc 1.433138625;
               Q2Qc 2.272571450625]))
  ∧ explicitRK_calls 4 aHeun bHeun cHeun (0 : Qc) 1 (λ t y, y + 1) (Q2Qc 0.3)
    = Some ((5 - 1) * 2)%nat.
Proof.
  assert (explicitRK 4 aHeun bHeun cHeun (0 : Qc) 1 (λ t y, y + 1) (Q2Qc 0.3)
          = Some (Ok ([0; Q2Qc 0.3; Q2Qc 0.6; Q2Qc 0.9; Q2Qc 1.2],
                      [0; Q2Qc 0.345; Q2Qc 0.809025; Q2Qc 1.433138625;
                       Q2Qc 2.272571450625]))) as Hrun by by_evaluation.
  split; [exact Hrun|].
  exact (proj2 (proj2 (proj2 (explicitRK_calls_per_sample 4 aHeun bHeun cHeun
                                (0 : Qc) 1 (λ t y, y + 1) (Q2Qc 0.3) _ _
                                Hrun)))).
Defined.

(** * Bisection in exact arithmetic *)



(** * Runs that rounding changes

    Runs on doubles on which the statements X4, X5, X6, X10 and X11 of
    exact arithmetic fail. *)

(** X24.  On doubles the final-step correction [h = T - t] does not make
    the loop end.  With [T = 0.9], [h = 0.3], [alpha = 3] and [f = 0] every
    proposal is accepted, for every tolerance [tol >= 0] and every [gamma].
    After the step to [0.3] the proposal is clipped to [0.9 - 0.3], which is
    the double [0.6000000000000001]; [0.3 + 0.6000000000000001] is above
    [0.9] again, the clip gives the same step size, and the loop state
    repeats: the call never returns. *)
Theorem HeunWithEuler_clip_repeats (tol gamma : float) (fuel : nat) :
  (0 <=? tol)%float = true →
  Binary64.HeunWithEuler fuel 0%float 0.9%float (λ _ _, 0%float) 0.3%float
    tol gamma 3%float
  = None.
Proof.
  intros Htol.
  unfold Binary64.HeunWithEuler, Binary64.HeunWithEuler_run.
  set (st1 := Binary64.HeState [0; 0]%float [0; 0.3]%float [0.3; 0.3]%float
                (3 * 0.3)%float).
  set (st2 := Binary64.HeState [0; 0]%float [0; 0.3]%float [0.3; 0.3]%float
                (0.9 - 0.3)%float).
  assert (Binary64.HeunWithEuler_body 0.9%float (λ _ _, 0%float) tol gamma
            3%float (Binary64.he_init 0%float 0.3%float) = Ok st1) as Hb0.
  { cbv. rewrite Htol. reflexivity. }
  assert (Binary64.HeunWithEuler_body 0.9%float (λ _ _, 0%float) tol gamma
            3%float st1 = Ok st2) as Hb1.
  { cbv. rewrite Htol. reflexivity. }
  assert (Binary64.HeunWithEuler_body 0.9%float (λ _ _, 0%float) tol gamma
            3%float st2 = Ok st2) as Hb2.
  { cbv. rewrite Htol. reflexivity. }
  destruct fuel as [|[|fuel]].
  - reflexivity.
  - rewrite (Binary64_HeunWithEuler_loop_step 0.9%float (λ _ _, 0%float)
               tol gamma 3%float _ st1 0%float 0%nat); done.
  - rewrite (Binary64_HeunWithEuler_loop_step 0.9%float (λ _ _, 0%float)
               tol gamma 3%float _ st1 0%float (S fuel)) by done.
    rewrite (Binary64_HeunWithEuler_loop_step 0.9%float (λ _ _, 0%float)
               tol gamma 3%float st1 st2 0.3%float fuel) by done.
    by rewrite (Binary64_HeunWithEuler_loop_fixed 0.9%float (λ _ _, 0%float)
                  tol gamma 3%float st2 0.3%float).
Qed.

Lemma HeunWithEuler_clip_repeats_witness :
  (0 <=? 0.01)%float = true
  ∧ Binary64.HeunWithEuler 1000 0%float 0.9%float (λ _ _, 0%float) 0.3%float
      0.01%float 0.9%float 3%float
    = None.
Proof.
  split; [reflexivity|].
  apply (HeunWithEuler_clip_repeats 0.01%float 0.9%float 1000). reflexivity.
Defined.

(** [T = 1], [h = 0.5], [alpha = 0.5], [f = 1]: the accepted steps
    [1/2, 1/4, 1/8, ...] never add up to 1 in exact arithmetic; on doubles
    the 54th sum rounds to 1 and the call returns 55 samples. *)
Lemma HeunWithEuler_shrinking_steps_return :
  ∃ ts ys hs,
    Binary64.HeunWithEuler 54 0%float 1%float (λ _ _, 1%float) 0.5%float
      0.01%float 0.9%float 0.5%float
    = Some (Ok (ts, ys, hs))
    ∧ length ts = 55%nat ∧ last ts = Some 1%float.
Proof.
  let r := eval vm_compute in
    (Binary64.HeunWithEuler 54 0%float 1%float (λ _ _, 1%float) 0.5%float
       0.01%float 0.9%float 0.5%float) in
  match r with Some (Ok (?ts, ?ys, ?hs)) => exists ts, ys, hs end.
  split; [vm_compute; reflexivity|]. split; reflexivity.
Qed.

(** The constant right-hand side 2 from [y0 = 5]: the fourth state of the
    adaptive run on doubles is not [y0 + ts[3]*2], neither as the doubles
    give that sum nor as a real number. *)
Lemma HeunWithEuler_constant_field_rounded :
  Binary64.HeunWithEuler 5 5%float 1%float (λ _ _, 2%float) 0.3%float
    0.1%float 0.9%float 1.1%float
  = Some (Ok ([0; 0.29999999999999999; 0.63; 0.9930000000000001; 1]%float,
              [5; 5.5999999999999996; 6.2599999999999998;
               6.9859999999999998; 7]%float,
              [0.29999999999999999; 0.29999999999999999;
               0.33000000000000002; 0.36300000000000004;
               0.0069999999999998952]%float))
  ∧ (5 + 0.9930000000000001 * 2)%float ≠ 6.9859999999999998%float
  ∧ Binary64.exact 5 + Binary64.exact 0.9930000000000001 * Binary64.exact 2
    ≠ Binary64.exact 6.9859999999999998.
Proof.
  split; [vm_compute; reflexivity|]. split.
  - vm_compute. discriminate.
  - by_evaluation.
Qed.

(** [f(t, y) = 4t], [h = 0.05], [T = 4*h], [alpha = 1]: on doubles the
    fixed-step run with Heun's tableau and the adaptive run return the same
    times but not the same states (the fourth differs in the last bit),
    because [h*b0*k1 + h*b1*k2] and [0.5*h*(k1 + k2)] round differently. *)
Lemma Heun_fixed_and_adaptive_rounded :
  ∃ ts ys ys' hs y y',
    Binary64.explicitRK 4 Binary64.aHeun Binary64.bHeun Binary64.cHeun
      0%float (4 * 0.05)%float (λ t y, (4 * t)%float) 0.05%float
    = Some (Ok (ts, ys))
    ∧ Binary64.HeunWithEuler 4 0%float (4 * 0.05)%float
        (λ t y, (4 * t)%float) 0.05%float 0.1%float 0.9%float 1%float
      = Some (Ok (ts, ys', hs))
    ∧ ys !! 3%nat = Some y ∧ ys' !! 3%nat = Some y' ∧ y ≠ y'.
Proof.
  let r := eval vm_compute in
    (Binary64.explicitRK 4 Binary64.aHeun Binary64.bHeun Binary64.cHeun
       0%float (4 * 0.05)%float (λ t y, (4 * t)%float) 0.05%float) in
  match r with Some (Ok (?ts, ?ys)) => exists ts, ys end.
  let r := eval vm_compute in
    (Binary64.HeunWithEuler 4 0%float (4 * 0.05)%float
       (λ t y, (4 * t)%float) 0.05%float 0.1%float 0.9%float 1%float) in
  match r with Some (Ok (_, ?ys', ?hs)) => exists ys', hs end.
  eexists _, _. split; [vm_compute; reflexivity|].
  split; [vm_compute; reflexivity|]. split; [reflexivity|].
  split; [reflexivity|]. discriminate.
Qed.
